(** * A shallow embedding of the APFS read-only core

    [fs/apfs/super.c] (checksum, container super block, statfs, mount
    options) and [fs/apfs/extents.c] (extent cache and block mapping) are
    embedded as pure functions with explicit state passing.  Kernel integers
    are [Z] with the wrap-around written out; disk buffers are lists of
    bytes; the C structures are records. *)

From Stdlib.Strings Require Import String Ascii Byte.
From Stdlib Require Import ZArith List Lia Bool.
Import ListNotations.
Local Open Scope Z_scope.

(** ** Machine integers and error numbers *)

Definition u64 (x : Z) : Z := x mod 2 ^ 64.
Definition u32 (x : Z) : Z := x mod 2 ^ 32.

Module Errno.
Definition EIO : Z := 5.
Definition ENOMEM : Z := 12.
Definition EINVAL : Z := 22.
Definition EROFS : Z := 30.
Definition ERANGE : Z := 34.
Definition ENODATA : Z := 61.
Definition EUCLEAN : Z := 117.
(* include/linux/fs.h: #define EFSCORRUPTED EUCLEAN *)
Definition EFSCORRUPTED : Z := EUCLEAN.
End Errno.
Import Errno.

(** ** Little-endian fields of a disk buffer *)

Definition byte_val (b : byte) : Z := Z.of_N (Byte.to_N b).

(** Value of a little-endian byte string. *)
Fixpoint le_decode (bs : list byte) : Z :=
  match bs with
  | [] => 0
  | b :: bs' => byte_val b + 256 * le_decode bs'
  end.

(** [le32_to_cpu] / [le64_to_cpu] of the field found [off] bytes into [raw].
    Bytes past the end of the modelled buffer read as absent (zero). *)
Definition le32_at (raw : list byte) (off : Z) : Z :=
  le_decode (firstn 4 (skipn (Z.to_nat off) raw)).
Definition le64_at (raw : list byte) (off : Z) : Z :=
  le_decode (firstn 8 (skipn (Z.to_nat off) raw)).

(** The view [__le32 *buff = addr]: the buffer cut into complete words. *)
Fixpoint le32_array (addr : list byte) : list Z :=
  match addr with
  | b0 :: b1 :: b2 :: b3 :: rest => le_decode [b0; b1; b2; b3] :: le32_array rest
  | _ => []
  end.

(** ** Kernel objects shared by the two files *)

Record buffer_head := mk_bh {
  b_data : list byte;
  b_size : Z;
  b_blocknr : Z;
  b_mapped : bool
}.

Record apfs_node := mk_node {
  block_nr : Z;
  node_id : Z;
  bh : buffer_head
}.

Record apfs_table := mk_table {
  t_node : apfs_node;
  t_records : Z
}.

Record apfs_sb_info := mk_sbi {
  s_msb_raw : list byte;
  s_mnode : apfs_node;
  s_vsb_raw : list byte;
  s_vnode : apfs_node;
  s_omap_root : apfs_table;
  s_cat_root : apfs_table;
  s_vol_nr : Z;
  s_flags : Z;
  s_uid : Z;
  s_gid : Z;
  s_nodesize : Z;
  s_nodesize_bits : Z
}.

Record super_block := mk_sb {
  s_blocksize : Z;
  s_blocksize_bits : Z;
  s_magic : Z;
  sb_flags : Z;
  s_maxbytes : Z;
  s_root : option Z;
  s_fs_info : option apfs_sb_info
}.

Definition null_bh : buffer_head := mk_bh [] 0 0 false.
Definition null_node : apfs_node := mk_node 0 0 null_bh.
Definition null_table : apfs_table := mk_table null_node 0.

(** What [kzalloc(sizeof( *sbi))] returns: every field zero. *)
Definition sbi_zero : apfs_sb_info :=
  mk_sbi [] null_node [] null_node null_table null_table 0 0 0 0 0 0.

(** [APFS_SB(sb)] is [sb->s_fs_info]; the statements below are about super
    blocks whose [s_fs_info] is set. *)
Definition APFS_SB (sb : super_block) : apfs_sb_info :=
  match s_fs_info sb with
  | Some sbi => sbi
  | None => sbi_zero
  end.

(** ** Constants of apfs.h

    Modelled from the spec: the header apfs.h is not among the sources.  The
    container super block is at block [0] with magic [NXSB]; the checksum
    field is the first [8] bytes of an object; the low 56 bits of
    [len_and_flags] are the length of an extent. *)

Definition APFS_NX_MAGIC : Z := 0x4253584E.
Definition APFS_NX_BLOCK_NUM : Z := 0.
Definition APFS_NX_DEFAULT_BLOCK_SIZE : Z := 4096.
Definition APFS_MAX_CKSUM_SIZE : Z := 8.
Definition APFS_FILE_EXTENT_LEN_MASK : Z := 0x00ffffffffffffff.

(** Record type of file extents and the catalog flag of a query: bit
    patterns of the header; no statement depends on their values. *)
Definition APFS_TYPE_FILE_EXTENT : Z := 8.
Definition APFS_QUERY_CAT : Z := 2.

(** [sizeof(struct apfs_file_extent_val)]: [len_and_flags], [phys_block_num]
    and [crypto_id], 64 bits each; [sizeof(struct apfs_file_extent_key)]: the
    64-bit key header and the 64-bit [logical_addr]. *)
Definition sizeof_file_extent_val : Z := 24.
Definition sizeof_file_extent_key : Z := 16.

(** * super.c: the Fletcher-64 checksum *)

(** The loop of [apfs_fletcher64]: both sums are [u64]. *)
Fixpoint fletcher_loop (buff : list Z) (sum1 sum2 : Z) : Z * Z :=
  match buff with
  | [] => (sum1, sum2)
  | w :: buff' =>
      let sum1 := u64 (sum1 + w) in
      let sum2 := u64 (sum2 + sum1) in
      fletcher_loop buff' sum1 sum2
  end.

(** [do_div(n, base)]: [n] becomes the quotient, the remainder is the
    value of the expression. *)
Definition do_div (n base : Z) : Z * Z := (n / base, n mod base).

Definition apfs_fletcher64 (addr : list byte) (len : Z) : Z :=
  let buff := firstn (Z.to_nat (len / 4)) (le32_array addr) in
  let '(sum1, sum2) := fletcher_loop buff 0 0 in
  let c1 := u64 (sum1 + sum2) in
  let c1 := u64 (0xFFFFFFFF - snd (do_div c1 0xFFFFFFFF)) in
  let c2 := u64 (sum1 + c1) in
  let c2 := u64 (0xFFFFFFFF - snd (do_div c2 0xFFFFFFFF)) in
  u64 (Z.lor (Z.shiftl c2 32) c1).

(** [obj] is the block that starts with the object header; [o_cksum] is
    its first field. *)
Definition o_cksum (obj : list byte) : Z := le64_at obj 0.

Definition apfs_obj_verify_csum (sb : super_block) (obj : list byte) : bool :=
  o_cksum obj =?
  apfs_fletcher64 (skipn (Z.to_nat APFS_MAX_CKSUM_SIZE) obj)
                  (s_blocksize sb - APFS_MAX_CKSUM_SIZE).

(** The checksum as the specification words it: sums over the integers,
    no reduction inside the loop. *)
Module Ref.
Definition accumulate (acc : Z * Z) (word : Z) : Z * Z :=
  (fst acc + word, snd acc + (fst acc + word)).

Definition sums (words : list Z) : Z * Z :=
  fold_left accumulate words (0, 0).

Definition fletcher64 (buf : list byte) : Z :=
  let '(sum1, sum2) := sums (le32_array buf) in
  let c1 := 0xFFFFFFFF - ((sum1 + sum2) mod 0xFFFFFFFF) in
  let c2 := 0xFFFFFFFF - ((sum1 + c1) mod 0xFFFFFFFF) in
  Z.lor (Z.shiftl c2 32) c1.
End Ref.

(** * extents.c: the extent cache and the block mapping *)

Record apfs_file_extent := mk_extent {
  logical_addr : Z;
  phys_block_num : Z;
  len : Z
}.

(** [struct inode] together with the [apfs_inode_info] that contains it
    ([APFS_I] is [container_of]). *)
Record inode := mk_inode {
  i_sb : super_block;
  i_ino : Z;
  i_blkbits : Z;
  i_extent_id : Z;
  i_cached_extent : apfs_file_extent
}.

Record apfs_key := mk_key {
  k_id : Z;
  k_type : Z;
  k_number : Z;
  k_name : option string
}.

(** [struct apfs_query]: the fields the callers of the B-tree read or set. *)
Record apfs_query := mk_query {
  q_table : apfs_table;
  q_key : apfs_key;
  q_flags : Z;
  q_index : Z;
  q_key_off : Z;
  q_key_len : Z;
  q_off : Z;
  q_len : Z
}.

(** Outcome of the two allocations of [apfs_extent_read]. *)
Record kmem := mk_kmem {
  kmalloc_ok : bool;
  alloc_query_ok : bool
}.

(** Modelled from the spec: [apfs_init_key] of key.c is not among the
    sources.  A catalog key is the pair (type, object id) and a tail, here
    the logical address; there is no name. *)
Definition apfs_init_key (sb : super_block) (type id : Z) (name : option string)
    (namelen : Z) (offset : Z) : apfs_key :=
  mk_key id type offset name.

(** Modelled from the spec: [apfs_alloc_query] of btree.c is not among the
    sources.  A fresh query on [table], or [NULL]. *)
Definition apfs_alloc_query (km : kmem) (table : apfs_table) : option apfs_query :=
  if alloc_query_ok km then Some (mk_query table (mk_key 0 0 0 None) 0 0 0 0 0 0) else None.

Definition set_cached_extent (ino : inode) (e : apfs_file_extent) : inode :=
  mk_inode (i_sb ino) (i_ino ino) (i_blkbits ino) (i_extent_id ino) e.

(** The test of lines 45-46, in 64-bit arithmetic. *)
Definition cache_covers (cache : apfs_file_extent) (iaddr : Z) : bool :=
  (logical_addr cache <=? iaddr) &&
  (iaddr <? u64 (logical_addr cache + len cache)).

Definition iaddr_of (ino : inode) (iblock : Z) : Z :=
  u64 (Z.shiftl iblock (i_blkbits ino)).

(** Lines 57-66: the key and the query handed to the B-tree. *)
Definition extent_query (ino : inode) (iaddr : Z) (query : apfs_query) : apfs_query :=
  let key := apfs_init_key (i_sb ino) APFS_TYPE_FILE_EXTENT (i_extent_id ino)
                           None 0 iaddr in
  mk_query (q_table query) key APFS_QUERY_CAT (q_index query)
           (q_key_off query) (q_key_len query) (q_off query) (q_len query).

(** The record a finished query points at, read as the code reads it. *)
Definition query_raw (query : apfs_query) : list byte :=
  b_data (bh (t_node (q_table query))).
Definition ext_len_of (query : apfs_query) : Z :=
  Z.land (le64_at (query_raw query) (q_off query)) APFS_FILE_EXTENT_LEN_MASK.
Definition extent_of (query : apfs_query) : apfs_file_extent :=
  mk_extent (le64_at (query_raw query) (q_key_off query + 8))
            (le64_at (query_raw query) (q_off query + 8))
            (ext_len_of query).

Definition map_bh (bh : buffer_head) (sb : super_block) (block : Z) : buffer_head :=
  mk_bh (b_data bh) (s_blocksize sb) block true.

Definition set_b_size (bh : buffer_head) (size : Z) : buffer_head :=
  mk_bh (b_data bh) size (b_blocknr bh) (b_mapped bh).

Section Extents.

(** [apfs_btree_query] of btree.c: the return code and the query as the
    B-tree leaves it. *)
Variable apfs_btree_query : super_block -> apfs_query -> Z * apfs_query.

(** [extent] is the caller's structure: written on success only.  The
    result is the return code, the caller's structure and the inode. *)
Definition apfs_extent_read (km : kmem) (ino : inode) (iblock : Z)
    (extent : apfs_file_extent) : Z * apfs_file_extent * inode :=
  let sb := i_sb ino in
  let sbi := APFS_SB sb in
  let cache := i_cached_extent ino in
  let iaddr := iaddr_of ino iblock in
  if cache_covers cache iaddr then (0, cache, ino)
  else if negb (kmalloc_ok km) then (- ENOMEM, extent, ino)
  else
    match apfs_alloc_query km (s_cat_root sbi) with
    | None => (- ENOMEM, extent, ino)
    | Some query =>
        let '(ret, query) := apfs_btree_query sb (extent_query ino iaddr query) in
        if negb (ret =? 0) then (ret, extent, ino)
        else if negb (q_len query =? sizeof_file_extent_val)
                || negb (q_key_len query =? sizeof_file_extent_key)
        then (- EFSCORRUPTED, extent, ino)
        else
          let ext_len := ext_len_of query in
          if negb (Z.land ext_len (u64 (s_blocksize sb - 1)) =? 0)
          then (- EFSCORRUPTED, extent, ino)
          else
            let extent := extent_of query in
            (0, extent, set_cached_extent ino extent)
    end.

(** [ext] is the content of the stack slot before the call. *)
Definition apfs_get_block (km : kmem) (ino : inode) (iblock : Z)
    (bh_result : buffer_head) (create : Z) (ext : apfs_file_extent)
    : Z * buffer_head * inode :=
  let sb := i_sb ino in
  let '(ret, ext, ino') := apfs_extent_read km ino iblock ext in
  if negb (ret =? 0) then (ret, bh_result, ino')
  else
    let blk_off := u64 (iblock - Z.shiftr (logical_addr ext) (i_blkbits ino)) in
    let map_len := u64 (len ext - u64 (Z.shiftl blk_off (i_blkbits ino))) in
    let bh_result :=
      if b_size bh_result >? map_len then set_b_size bh_result map_len
      else bh_result in
    let map_len := b_size bh_result in
    let bh_result :=
      if negb (phys_block_num ext =? 0)
      then map_bh bh_result sb (u64 (phys_block_num ext + blk_off))
      else bh_result in
    (0, set_b_size bh_result map_len, ino').

End Extents.

(** [init_once]: a new inode has an empty cached extent. *)
Definition init_once (ino : inode) : inode :=
  set_cached_extent ino
    (mk_extent (logical_addr (i_cached_extent ino))
               (phys_block_num (i_cached_extent ino)) 0).

(** ** The catalog B-tree engine

    Modelled from the spec: [apfs_btree_query] (btree.c, table.c and key.c
    are not among the sources).  The catalog query for file extents finds
    the greatest key with (type, object id) equal to the target and
    [logical_addr <= query]; the result is accepted when
    [logical_addr <= query < logical_addr + value.len], otherwise the answer
    is NotFound; an empty node is Corrupt.  The tree is flattened to the
    records of its root node, found through the two decoders of the node
    loader, [locate_key] and [locate_value]; the acceptance test is the
    inequality of the specification over the integers, with no
    wrap-around. *)

Section CatalogEngine.

(** [apfs_table_locate_key] and [apfs_table_locate_data] of table.c: the
    length and the offset of the key, and of the value, of record
    [index]. *)
Variable apfs_table_locate_key : apfs_table -> Z -> Z * Z.
Variable apfs_table_locate_data : apfs_table -> Z -> Z * Z.

(** The 64-bit header of a catalog key: the type in the high 4 bits, the
    object id in the low 60 bits. *)
Definition cat_key_type (hdr : Z) : Z := Z.shiftr hdr 60.
Definition cat_key_oid (hdr : Z) : Z := Z.land hdr (Z.ones 60).

Definition query_at (query : apfs_query) (index : Z) : apfs_query :=
  let '(key_len, key_off) := apfs_table_locate_key (q_table query) index in
  let '(len, off) := apfs_table_locate_data (q_table query) index in
  mk_query (q_table query) (q_key query) (q_flags query) index
           key_off key_len off len.

Definition cand_logical_addr (cand : apfs_query) : Z :=
  le64_at (query_raw cand) (q_key_off cand + 8).

Definition key_matches (key : apfs_key) (cand : apfs_query) : bool :=
  let hdr := le64_at (query_raw cand) (q_key_off cand) in
  (cat_key_type hdr =? k_type key) && (cat_key_oid hdr =? k_id key)
  && (cand_logical_addr cand <=? k_number key).

(** The greatest matching key among the records of index below [n]. *)
Fixpoint greatest_below (query : apfs_query) (n : nat) (best : option apfs_query)
    : option apfs_query :=
  match n with
  | O => best
  | S n' =>
      let cand := query_at query (Z.of_nat n') in
      let best' :=
        if key_matches (q_key query) cand then
          match best with
          | Some b =>
              if cand_logical_addr b <? cand_logical_addr cand
              then Some cand else best
          | None => Some cand
          end
        else best in
      greatest_below query n' best'
  end.

Definition cat_btree_query (sb : super_block) (query : apfs_query)
    : Z * apfs_query :=
  if t_records (q_table query) <=? 0 then (- EFSCORRUPTED, query)
  else
    match greatest_below query (Z.to_nat (t_records (q_table query))) None with
    | None => (- ENODATA, query)
    | Some cand =>
        let addr := cand_logical_addr cand in
        let query_addr := k_number (q_key query) in
        if (addr <=? query_addr) && (query_addr <? addr + ext_len_of cand)
        then (0, cand)
        else (- ENODATA, query)
    end.

End CatalogEngine.

(** ** Well-formed inodes *)

(** The three fields of an extent are [u64]. *)
Definition extent_u64 (e : apfs_file_extent) : Prop :=
  0 <= logical_addr e < 2 ^ 64 /\
  0 <= phys_block_num e < 2 ^ 64 /\
  0 <= len e < 2 ^ 64.

(** [i_blkbits] is the logarithm of the block size of the super block, as
    [sb_set_blocksize] and the inode initialisation of the VFS leave them. *)
Definition inode_ok (ino : inode) : Prop :=
  extent_u64 (i_cached_extent ino) /\
  0 <= i_blkbits ino < 64 /\
  s_blocksize (i_sb ino) = 2 ^ i_blkbits ino.

(** The cached extent is empty or block aligned. *)
Definition cache_valid (ino : inode) : Prop :=
  len (i_cached_extent ino) mod s_blocksize (i_sb ino) = 0.

(** What section 4.4 of the specification promises of a B-tree engine: an
    accepted record covers the address of the query,
    [logical_addr <= query < logical_addr + value.len]. *)
Definition engine_covers
    (engine : super_block -> apfs_query -> Z * apfs_query) : Prop :=
  forall sb q q',
    engine sb q = (0, q') ->
    logical_addr (extent_of q') <= k_number (q_key q)
    < logical_addr (extent_of q') + len (extent_of q').

(** ** A sample catalog

    One leaf with one file-extent record, the extent of scenario 5 of the
    specification: [{logical_addr = 0, len = 12288, phys_block_num = 500}] of
    the file with extent id [7], on a volume with 4096-byte blocks. *)

Definition byte_of (v : Z) : byte :=
  match Byte.of_N (Z.to_N (v mod 256)) with
  | Some b => b
  | None => x00
  end.

(** The [n] bytes of [v], least significant first. *)
Fixpoint le_encode (n : nat) (v : Z) : list byte :=
  match n with
  | O => []
  | S n' => byte_of v :: le_encode n' (v / 256)
  end.

Definition sample_leaf_data : list byte :=
  (le_encode 8 (APFS_TYPE_FILE_EXTENT * 2 ^ 60 + 7) ++ le_encode 8 0)
  ++ (le_encode 8 12288 ++ le_encode 8 500 ++ le_encode 8 0).

Definition sample_cat_root : apfs_table :=
  mk_table (mk_node 300 0x600 (mk_bh sample_leaf_data 4096 300 true)) 1.

(** The table of contents of the sample leaf: the key is 16 bytes at offset
    0, the value 24 bytes at offset 16. *)
Definition sample_locate_key (t : apfs_table) (index : Z) : Z * Z := (16, 0).
Definition sample_locate_data (t : apfs_table) (index : Z) : Z * Z := (24, 16).

Definition sample_sbi : apfs_sb_info :=
  mk_sbi [] null_node [] null_node null_table sample_cat_root 0 0 0 0 4096 12.

Definition sample_sb : super_block :=
  mk_sb 4096 12 APFS_NX_MAGIC 1 0 None (Some sample_sbi).

Definition sample_inode : inode :=
  init_once (mk_inode sample_sb 20 12 7 (mk_extent 0 0 0)).

Definition sample_engine : super_block -> apfs_query -> Z * apfs_query :=
  cat_btree_query sample_locate_key sample_locate_data.

Definition sample_extent : apfs_file_extent := mk_extent 0 500 12288.

Definition kmem_ok : kmem := mk_kmem true true.
Definition kmem_exhausted : kmem := mk_kmem false false.

(** A leaf whose only record has a length that is not block aligned. *)
Definition odd_leaf_data : list byte :=
  (le_encode 8 (APFS_TYPE_FILE_EXTENT * 2 ^ 60 + 7) ++ le_encode 8 0)
  ++ (le_encode 8 12289 ++ le_encode 8 500 ++ le_encode 8 0).

Definition odd_inode : inode :=
  mk_inode
    (mk_sb 4096 12 APFS_NX_MAGIC 1 0 None
       (Some (mk_sbi [] null_node [] null_node null_table
                (mk_table (mk_node 300 0x600 (mk_bh odd_leaf_data 4096 300 true)) 1)
                0 0 0 0 4096 12)))
    20 12 7 (mk_extent 0 0 0).

(** An inode of the file with extent id 7 on a volume with 4096-byte blocks
    whose catalog is the leaf [leaf], with one record; the cache is the one
    [init_once] leaves. *)
Definition inode_on (leaf : list byte) : inode :=
  init_once
    (mk_inode
       (mk_sb 4096 12 APFS_NX_MAGIC 1 0 None
          (Some (mk_sbi [] null_node [] null_node null_table
                   (mk_table (mk_node 300 0x600 (mk_bh leaf 4096 300 true)) 1)
                   0 0 0 0 4096 12)))
       20 12 7 (mk_extent 0 0 0)).

(** A leaf whose only record has length 0. *)
Definition empty_leaf_data : list byte :=
  (le_encode 8 (APFS_TYPE_FILE_EXTENT * 2 ^ 60 + 7) ++ le_encode 8 0)
  ++ (le_encode 8 0 ++ le_encode 8 500 ++ le_encode 8 0).

Definition empty_inode : inode := inode_on empty_leaf_data.

(** A leaf whose only record starts at the last block of the 64-bit address
    space and is two blocks long:
    [{logical_addr = 2^64 - 4096, len = 8192, phys_block_num = 500}]. *)
Definition edge_leaf_data : list byte :=
  (le_encode 8 (APFS_TYPE_FILE_EXTENT * 2 ^ 60 + 7) ++ le_encode 8 (2 ^ 64 - 4096))
  ++ (le_encode 8 8192 ++ le_encode 8 500 ++ le_encode 8 0).

Definition edge_inode : inode := inode_on edge_leaf_data.

Definition edge_extent : apfs_file_extent := mk_extent (2 ^ 64 - 4096) 500 8192.

(** A B-tree query that hands over the first record of the root node as it
    is, without the acceptance test of the catalog engine. *)
Definition first_record_query (sb : super_block) (query : apfs_query)
    : Z * apfs_query :=
  (0, query_at sample_locate_key sample_locate_data query 0).

(** A buffer of 92681 words, all [0xFFFFFFFF]: long enough for
    [sum1 + sum2] to leave 64 bits. *)
Definition long_buffer : list byte := repeat xff (4 * Z.to_nat 92681).

(** * super.c: mounting *)

(** ** Layout of the disk structures

    Modelled from the spec: the structures of apfs.h are not among the
    sources.  Every object starts with a 32-byte header (checksum, oid, xid,
    type, subtype); the fields below are found at their offsets in the disk
    format. *)

Definition o_oid (raw : list byte) : Z := le64_at raw 8.

Definition nx_magic (raw : list byte) : Z := le32_at raw 32.
Definition nx_block_size (raw : list byte) : Z := le32_at raw 36.
Definition nx_block_count (raw : list byte) : Z := le64_at raw 40.
Definition nx_omap_oid (raw : list byte) : Z := le64_at raw 160.
Definition nx_fs_oid (raw : list byte) (i : Z) : Z := le64_at raw (184 + 8 * i).
Definition sizeof_nx_superblock : Z := 184.

Definition om_tree_oid (raw : list byte) : Z := le64_at raw 48.

Definition apfs_magic (raw : list byte) : Z := le32_at raw 32.
Definition apfs_fs_alloc_count (raw : list byte) : Z := le64_at raw 88.
Definition apfs_omap_oid (raw : list byte) : Z := le64_at raw 128.
Definition apfs_root_tree_oid (raw : list byte) : Z := le64_at raw 136.
Definition apfs_num_files (raw : list byte) : Z := le64_at raw 184.
Definition apfs_num_directories (raw : list byte) : Z := le64_at raw 192.
Definition apfs_num_symlinks (raw : list byte) : Z := le64_at raw 200.
Definition apfs_num_other_fsobjects (raw : list byte) : Z := le64_at raw 208.
Definition apfs_vol_uuid (raw : list byte) : list byte :=
  firstn 16 (skipn 240 raw).

Definition APFS_MAGIC : Z := 0x42535041.
Definition APFS_SUPER_MAGIC : Z := 0x4253584E.
Definition APFS_ROOT_DIR_INO_NUM : Z := 2.
Definition APFS_UID_OVERRIDE : Z := 1.
Definition APFS_GID_OVERRIDE : Z := 2.
Definition SB_RDONLY : Z := 1.
Definition MAX_LFS_FILESIZE : Z := 0x7fffffffffffffff.

(** ** The kernel and the rest of the module *)

Inductive opt := Opt_uid | Opt_gid | Opt_vol | Opt_err.

Definition match_table_t := list (opt * option string).

(** The functions of the kernel that super.c calls.  [sb_set_blocksize]
    gives the new block size, or 0, and the super block it leaves;
    [match_token] the token and the substrings [args]; [match_int] the error
    code and the number. *)
Record kernel := mk_kernel {
  sb_set_blocksize : super_block -> Z -> Z * super_block;
  sb_bread : super_block -> Z -> option buffer_head;
  match_token : string -> match_table_t -> opt * list string;
  match_int : string -> Z * Z;
  make_kuid : Z -> Z;
  make_kgid : Z -> Z;
  d_make_root : inode -> option Z
}.

(** A pointer result: the object, or [ERR_PTR(-errno)] for an error number
    between 1 and [MAX_ERRNO], for which [IS_ERR] holds. *)
Inductive err_ptr (T : Type) : Type :=
| Ptr (t : T)
| ErrPtr (errno : positive).
Arguments Ptr {T} t.
Arguments ErrPtr {T} errno.

Definition PTR_ERR (errno : positive) : Z := - Z.pos errno.

(** The functions of btree.c, table.c and inode.c that super.c calls: not
    among the sources. *)
Record apfs_lib := mk_lib {
  apfs_read_table : super_block -> Z -> err_ptr apfs_table;
  apfs_table_locate_data : apfs_table -> Z -> Z * Z;
  apfs_omap_lookup_block : super_block -> apfs_table -> Z -> Z * Z;
  apfs_omap_read_table : super_block -> Z -> err_ptr apfs_table;
  apfs_iget : super_block -> Z -> err_ptr inode
}.

(** [(int) x] of a 32-bit field. *)
Definition int_of_u32 (x : Z) : Z := if x <? 2 ^ 31 then x else x - 2 ^ 32.

(** [uid_valid] and [gid_valid]: the id is not [(uid_t) -1]. *)
Definition uid_valid (kuid : Z) : bool := negb (kuid =? 0xFFFFFFFF).
Definition gid_valid (kgid : Z) : bool := negb (kgid =? 0xFFFFFFFF).

(** Field updates. *)
Definition set_sb_flags (sb : super_block) (f : Z) : super_block :=
  mk_sb (s_blocksize sb) (s_blocksize_bits sb) (s_magic sb) f
        (s_maxbytes sb) (s_root sb) (s_fs_info sb).
Definition set_s_magic (sb : super_block) (m : Z) : super_block :=
  mk_sb (s_blocksize sb) (s_blocksize_bits sb) m (sb_flags sb)
        (s_maxbytes sb) (s_root sb) (s_fs_info sb).
Definition set_s_fs_info (sb : super_block) (i : option apfs_sb_info) : super_block :=
  mk_sb (s_blocksize sb) (s_blocksize_bits sb) (s_magic sb) (sb_flags sb)
        (s_maxbytes sb) (s_root sb) i.
Definition set_s_maxbytes (sb : super_block) (m : Z) : super_block :=
  mk_sb (s_blocksize sb) (s_blocksize_bits sb) (s_magic sb) (sb_flags sb)
        m (s_root sb) (s_fs_info sb).
Definition set_s_root (sb : super_block) (r : option Z) : super_block :=
  mk_sb (s_blocksize sb) (s_blocksize_bits sb) (s_magic sb) (sb_flags sb)
        (s_maxbytes sb) r (s_fs_info sb).

Definition set_main_super (sbi : apfs_sb_info) (raw : list byte) (n : apfs_node)
    : apfs_sb_info :=
  mk_sbi raw n (s_vsb_raw sbi) (s_vnode sbi) (s_omap_root sbi) (s_cat_root sbi)
         (s_vol_nr sbi) (s_flags sbi) (s_uid sbi) (s_gid sbi)
         (s_nodesize sbi) (s_nodesize_bits sbi).
Definition set_volume_super (sbi : apfs_sb_info) (raw : list byte) (n : apfs_node)
    : apfs_sb_info :=
  mk_sbi (s_msb_raw sbi) (s_mnode sbi) raw n (s_omap_root sbi) (s_cat_root sbi)
         (s_vol_nr sbi) (s_flags sbi) (s_uid sbi) (s_gid sbi)
         (s_nodesize sbi) (s_nodesize_bits sbi).
Definition set_omap_root (sbi : apfs_sb_info) (t : apfs_table) : apfs_sb_info :=
  mk_sbi (s_msb_raw sbi) (s_mnode sbi) (s_vsb_raw sbi) (s_vnode sbi) t
         (s_cat_root sbi) (s_vol_nr sbi) (s_flags sbi) (s_uid sbi) (s_gid sbi)
         (s_nodesize sbi) (s_nodesize_bits sbi).
Definition set_cat_root (sbi : apfs_sb_info) (t : apfs_table) : apfs_sb_info :=
  mk_sbi (s_msb_raw sbi) (s_mnode sbi) (s_vsb_raw sbi) (s_vnode sbi)
         (s_omap_root sbi) t (s_vol_nr sbi) (s_flags sbi) (s_uid sbi) (s_gid sbi)
         (s_nodesize sbi) (s_nodesize_bits sbi).
Definition set_nodesize (sbi : apfs_sb_info) (size bits : Z) : apfs_sb_info :=
  mk_sbi (s_msb_raw sbi) (s_mnode sbi) (s_vsb_raw sbi) (s_vnode sbi)
         (s_omap_root sbi) (s_cat_root sbi) (s_vol_nr sbi) (s_flags sbi)
         (s_uid sbi) (s_gid sbi) size bits.
Definition set_vol_nr (sbi : apfs_sb_info) (v : Z) : apfs_sb_info :=
  mk_sbi (s_msb_raw sbi) (s_mnode sbi) (s_vsb_raw sbi) (s_vnode sbi)
         (s_omap_root sbi) (s_cat_root sbi) v (s_flags sbi)
         (s_uid sbi) (s_gid sbi) (s_nodesize sbi) (s_nodesize_bits sbi).
Definition set_s_flags (sbi : apfs_sb_info) (f : Z) : apfs_sb_info :=
  mk_sbi (s_msb_raw sbi) (s_mnode sbi) (s_vsb_raw sbi) (s_vnode sbi)
         (s_omap_root sbi) (s_cat_root sbi) (s_vol_nr sbi) f
         (s_uid sbi) (s_gid sbi) (s_nodesize sbi) (s_nodesize_bits sbi).
Definition set_s_uid (sbi : apfs_sb_info) (u : Z) : apfs_sb_info :=
  mk_sbi (s_msb_raw sbi) (s_mnode sbi) (s_vsb_raw sbi) (s_vnode sbi)
         (s_omap_root sbi) (s_cat_root sbi) (s_vol_nr sbi) (s_flags sbi)
         u (s_gid sbi) (s_nodesize sbi) (s_nodesize_bits sbi).
Definition set_s_gid (sbi : apfs_sb_info) (g : Z) : apfs_sb_info :=
  mk_sbi (s_msb_raw sbi) (s_mnode sbi) (s_vsb_raw sbi) (s_vnode sbi)
         (s_omap_root sbi) (s_cat_root sbi) (s_vol_nr sbi) (s_flags sbi)
         (s_uid sbi) g (s_nodesize sbi) (s_nodesize_bits sbi).

(** [struct kstatfs]; [f_fsid] is the pair [val[0]], [val[1]]. *)
Record kstatfs := mk_kstatfs {
  f_type : Z;
  f_bsize : Z;
  f_blocks : Z;
  f_bfree : Z;
  f_bavail : Z;
  f_files : Z;
  f_ffree : Z;
  f_fsid : Z * Z;
  f_namelen : Z
}.

Definition set_f_type (b : kstatfs) (v : Z) : kstatfs :=
  mk_kstatfs v (f_bsize b) (f_blocks b) (f_bfree b) (f_bavail b) (f_files b)
             (f_ffree b) (f_fsid b) (f_namelen b).
Definition set_f_bsize (b : kstatfs) (v : Z) : kstatfs :=
  mk_kstatfs (f_type b) v (f_blocks b) (f_bfree b) (f_bavail b) (f_files b)
             (f_ffree b) (f_fsid b) (f_namelen b).
Definition set_f_blocks (b : kstatfs) (v : Z) : kstatfs :=
  mk_kstatfs (f_type b) (f_bsize b) v (f_bfree b) (f_bavail b) (f_files b)
             (f_ffree b) (f_fsid b) (f_namelen b).
Definition set_f_bfree (b : kstatfs) (v : Z) : kstatfs :=
  mk_kstatfs (f_type b) (f_bsize b) (f_blocks b) v (f_bavail b) (f_files b)
             (f_ffree b) (f_fsid b) (f_namelen b).
Definition set_f_bavail (b : kstatfs) (v : Z) : kstatfs :=
  mk_kstatfs (f_type b) (f_bsize b) (f_blocks b) (f_bfree b) v (f_files b)
             (f_ffree b) (f_fsid b) (f_namelen b).
Definition set_f_files (b : kstatfs) (v : Z) : kstatfs :=
  mk_kstatfs (f_type b) (f_bsize b) (f_blocks b) (f_bfree b) (f_bavail b) v
             (f_ffree b) (f_fsid b) (f_namelen b).
Definition set_f_namelen (b : kstatfs) (v : Z) : kstatfs :=
  mk_kstatfs (f_type b) (f_bsize b) (f_blocks b) (f_bfree b) (f_bavail b)
             (f_files b) (f_ffree b) (f_fsid b) v.
Definition set_f_fsid (b : kstatfs) (v0 v1 : Z) : kstatfs :=
  mk_kstatfs (f_type b) (f_bsize b) (f_blocks b) (f_bfree b) (f_bavail b)
             (f_files b) (f_ffree b) (v0, v1) (f_namelen b).

(** ** Mount options *)

Definition tokens : match_table_t :=
  [ (Opt_uid, Some "uid=%u"%string);
    (Opt_gid, Some "gid=%u"%string);
    (Opt_vol, Some "vol=%u"%string);
    (Opt_err, None) ].

(** [strsep(&options, ",")]: the first segment, and what is left of the
    string, [NULL] after the last segment. *)
Fixpoint strsep (s : string) : string * option string :=
  match s with
  | EmptyString => (EmptyString, None)
  | String c s' =>
      if (c =? ",")%char then (EmptyString, Some s')
      else let '(p, rest) := strsep s' in (String c p, rest)
  end.

(** The segments that the calls of [strsep] in the loop return, in order. *)
Fixpoint segments (s : string) : list string :=
  match s with
  | EmptyString => [EmptyString]
  | String c s' =>
      if (c =? ",")%char then EmptyString :: segments s'
      else
        match segments s' with
        | p :: rest => String c p :: rest
        | [] => [String c EmptyString]
        end
  end.

Section Super.

Variable K : kernel.
Variable L : apfs_lib.

(** The body of the loop of [parse_options], over the segments left. *)
Fixpoint parse_segments (sbi : apfs_sb_info) (segs : list string)
    : Z * apfs_sb_info :=
  match segs with
  | [] => (0, sbi)
  | p :: segs' =>
      if (p =? "")%string then parse_segments sbi segs'
      else
        let '(token, args) := match_token K p tokens in
        match token with
        | Opt_uid =>
            let '(err, option) := match_int K (nth 0 args EmptyString) in
            if negb (err =? 0) then (err, sbi)
            else
              let sbi := set_s_uid sbi (make_kuid K option) in
              if negb (uid_valid (s_uid sbi)) then (- EINVAL, sbi)
              else
                parse_segments
                  (set_s_flags sbi (Z.lor (s_flags sbi) APFS_UID_OVERRIDE)) segs'
        | Opt_gid =>
            let '(err, option) := match_int K (nth 0 args EmptyString) in
            if negb (err =? 0) then (err, sbi)
            else
              let sbi := set_s_gid sbi (make_kgid K option) in
              if negb (gid_valid (s_gid sbi)) then (- EINVAL, sbi)
              else
                parse_segments
                  (set_s_flags sbi (Z.lor (s_flags sbi) APFS_GID_OVERRIDE)) segs'
        | Opt_vol =>
            let '(err, vol_nr) := match_int K (nth 0 args EmptyString) in
            if negb (err =? 0) then (err, sbi)
            else parse_segments (set_vol_nr sbi vol_nr) segs'
        | Opt_err => (- EINVAL, sbi)
        end
  end.

Definition parse_options (sb : super_block) (options : option string)
    : Z * super_block :=
  let sbi := APFS_SB sb in
  let sbi := set_s_flags (set_vol_nr sbi 0) 0 in
  match options with
  | None => (0, set_s_fs_info sb (Some sbi))
  | Some s =>
      let '(err, sbi) := parse_segments sbi (segments s) in
      (err, set_s_fs_info sb (Some sbi))
  end.

(** ** The container super block *)

(** Lines 107-126: the magic and the checksum of the block in [bh]. *)
Definition check_main_super (sb : super_block) (bh : buffer_head)
    : Z * super_block :=
  let err := - EINVAL in
  let msb_raw := b_data bh in
  let sb := set_s_magic sb (nx_magic msb_raw) in
  if negb (s_magic sb =? APFS_NX_MAGIC) then (err, sb)
  else if negb (apfs_obj_verify_csum sb msb_raw) then (err, sb)
  else
    let sbi :=
      set_main_super (APFS_SB sb) msb_raw
        (mk_node APFS_NX_BLOCK_NUM (o_oid msb_raw) bh) in
    (0, set_s_fs_info sb (Some sbi)).

Definition apfs_map_main_super (sb : super_block) : Z * super_block :=
  let err := - EINVAL in
  let '(size, sb) := sb_set_blocksize K sb APFS_NX_DEFAULT_BLOCK_SIZE in
  if size =? 0 then (err, sb)
  else
    match sb_bread K sb APFS_NX_BLOCK_NUM with
    | None => (err, sb)
    | Some bh =>
        let blocksize := int_of_u32 (nx_block_size (b_data bh)) in
        if negb (s_blocksize sb =? u64 blocksize) then
          let '(size, sb) := sb_set_blocksize K sb blocksize in
          if size =? 0 then (err, sb)
          else
            match sb_bread K sb APFS_NX_BLOCK_NUM with
            | None => (err, sb)
            | Some bh => check_main_super sb bh
            end
        else check_main_super sb bh
    end.

(** ** The volume super block, the object map and the catalog *)

(** Modelled from the spec: the declaration of [s_vol_nr] is in super.h,
    which is not among the sources.  The volume slot is a [u32] in the
    specification and the field is printed with [%u] at line 484: it is an
    [unsigned int], and the number that [match_int] stored through an
    [int *] is read back modulo 2^32. *)
Definition vol_nr_of (sbi : apfs_sb_info) : Z := u32 (s_vol_nr sbi).

(** The range test of line 160.  [8 * (sbi->s_vol_nr + 1)] is computed in
    [unsigned int] and wraps at 32 bits; the sum with [sizeof( *msb_raw)] and
    the comparison are in [size_t]. *)
Definition vol_nr_out_of_range (sb : super_block) : bool :=
  s_blocksize sb
  <=? u64 (sizeof_nx_superblock + u32 (8 * u32 (vol_nr_of (APFS_SB sb) + 1))).

(** The 8 bytes of [msb_raw->nx_fs_oid[s_vol_nr]] lie inside the block that
    [msb_raw] points at. *)
Definition vol_slot_in_block (sb : super_block) : bool :=
  sizeof_nx_superblock + 8 * vol_nr_of (APFS_SB sb) + 8 <=? s_blocksize sb.

(** The result is [None] when the call has no defined result: the range
    test of line 160 passed, because the product wrapped, and line 165 reads
    [nx_fs_oid[s_vol_nr]] outside the block. *)
Definition apfs_map_volume_super (sb : super_block) : option (Z * super_block) :=
  let sbi := APFS_SB sb in
  let msb_raw := s_msb_raw sbi in
  if vol_nr_out_of_range sb then Some (- EINVAL, sb)
  else if negb (vol_slot_in_block sb) then None
  else
    let vol_id := nx_fs_oid msb_raw (vol_nr_of sbi) in
    if vol_id =? 0 then Some (- EINVAL, sb)
    else
      match sb_bread K sb (nx_omap_oid msb_raw) with
      | None => Some (- EINVAL, sb)
      | Some bh =>
          let vb := om_tree_oid (b_data bh) in
          match apfs_read_table L sb vb with
          | ErrPtr errno => Some (PTR_ERR errno, sb)
          | Ptr vtable =>
              let '(err, vsb) := apfs_omap_lookup_block L sb vtable vol_id in
              if negb (err =? 0) then Some (err, sb)
              else
                match sb_bread K sb vsb with
                | None => Some (- EINVAL, sb)
                | Some bh =>
                    let vsb_raw := b_data bh in
                    if negb (apfs_magic vsb_raw =? APFS_MAGIC)
                    then Some (- EINVAL, sb)
                    else
                      Some (0, set_s_fs_info sb
                                 (Some (set_volume_super sbi vsb_raw
                                          (mk_node vsb (o_oid vsb_raw) bh))))
                end
          end
      end.

Definition apfs_read_omap (sb : super_block) : Z * super_block :=
  let sbi := APFS_SB sb in
  match sb_bread K sb (apfs_omap_oid (s_vsb_raw sbi)) with
  | None => (- EINVAL, sb)
  | Some bh =>
      match apfs_read_table L sb (om_tree_oid (b_data bh)) with
      | ErrPtr errno => (PTR_ERR errno, sb)
      | Ptr omap_root => (0, set_s_fs_info sb (Some (set_omap_root sbi omap_root)))
      end
  end.

Definition apfs_read_catalog (sb : super_block) : Z * super_block :=
  let sbi := APFS_SB sb in
  match apfs_omap_read_table L sb (apfs_root_tree_oid (s_vsb_raw sbi)) with
  | ErrPtr errno => (PTR_ERR errno, sb)
  | Ptr root_table => (0, set_s_fs_info sb (Some (set_cat_root sbi root_table)))
  end.

(** [kzalloc_ok]: whether the allocation of the [apfs_sb_info] succeeds.
    Every failure after it ends at [failed_main_super], which clears
    [s_fs_info].  The result is [None] when [apfs_map_volume_super] has no
    defined result. *)
Definition apfs_fill_super (kzalloc_ok : bool) (sb : super_block)
    (data : option string) (silent : Z) : option (Z * super_block) :=
  let sb := set_sb_flags sb (Z.lor (sb_flags sb) SB_RDONLY) in
  if negb kzalloc_ok then Some (- ENOMEM, sb)
  else
    let sb := set_s_fs_info sb (Some sbi_zero) in
    let failed (err : Z) (sb : super_block) :=
      Some (err, set_s_fs_info sb None) in
    let '(err, sb) := apfs_map_main_super sb in
    if negb (err =? 0) then failed err sb
    else
      let sb :=
        set_s_fs_info sb
          (Some (set_nodesize (APFS_SB sb) (s_blocksize sb) (s_blocksize_bits sb))) in
      let '(err, sb) := parse_options sb data in
      if negb (err =? 0) then failed err sb
      else
        match apfs_map_volume_super sb with
        | None => None
        | Some (err, sb) =>
            if negb (err =? 0) then failed err sb
            else
              let '(err, sb) := apfs_read_omap sb in
              if negb (err =? 0) then failed err sb
              else
                let '(err, sb) := apfs_read_catalog sb in
                if negb (err =? 0) then failed err sb
                else
                  let sb := set_s_maxbytes sb MAX_LFS_FILESIZE in
                  match apfs_iget L sb APFS_ROOT_DIR_INO_NUM with
                  | ErrPtr errno => failed (PTR_ERR errno) sb
                  | Ptr root =>
                      let sb := set_s_root sb (d_make_root K root) in
                      match s_root sb with
                      | None => failed (- ENOMEM) sb
                      | Some _ => Some (0, sb)
                      end
                  end
        end.

(** ** statfs *)

(** The loop of [apfs_count_used_blocks]: [n] records are left, [i] is the
    index of the next one. *)
Fixpoint count_loop (sb : super_block) (vtable : apfs_table) (n : nat) (i : Z)
    (count : Z) : Z * Z :=
  match n with
  | O => (0, count)
  | S n' =>
      let '(len, off) := apfs_table_locate_data L vtable i in
      if negb (len =? 16) then (- EIO, count)
      else
        let vsb := le64_at (b_data (bh (t_node vtable))) (off + 8) in
        match sb_bread K sb vsb with
        | None => (- EIO, count)
        | Some bh =>
            let count := u64 (count + apfs_fs_alloc_count (b_data bh)) in
            count_loop sb vtable n' (i + 1) count
        end
  end.

(** The result is the return code and [*count]. *)
Definition apfs_count_used_blocks (sb : super_block) (count : Z) : Z * Z :=
  let sbi := APFS_SB sb in
  let msb_raw := s_msb_raw sbi in
  match sb_bread K sb (nx_omap_oid msb_raw) with
  | None => (- EIO, count)
  | Some bh =>
      let vb := om_tree_oid (b_data bh) in
      match apfs_read_table L sb vb with
      | ErrPtr errno => (PTR_ERR errno, count)
      | Ptr vtable =>
          count_loop sb vtable (Z.to_nat (t_records vtable)) 0 0
      end
  end.

(** [buf] is the caller's structure; the result is the return code and the
    structure as the call leaves it. *)
Definition apfs_statfs (sb : super_block) (buf : kstatfs) : Z * kstatfs :=
  let sbi := APFS_SB sb in
  let msb_raw := s_msb_raw sbi in
  let vol := s_vsb_raw sbi in
  let used_blocks := 0 in
  let buf := set_f_type buf APFS_SUPER_MAGIC in
  let buf := set_f_bsize buf (s_blocksize sb) in
  let buf := set_f_blocks buf (nx_block_count msb_raw) in
  let '(err, used_blocks) := apfs_count_used_blocks sb used_blocks in
  if negb (err =? 0) then (err, buf)
  else
    let buf := set_f_bfree buf (u64 (f_blocks buf - used_blocks)) in
    let buf := set_f_bavail buf (f_bfree buf) in
    let buf :=
      set_f_files buf
        (u64 (u64 (u64 (apfs_num_files vol + apfs_num_directories vol)
                   + apfs_num_symlinks vol)
              + apfs_num_other_fsobjects vol)) in
    let buf := set_f_namelen buf 255 in
    let fsid := Z.lxor (le_decode (firstn 8 (apfs_vol_uuid vol)))
                       (le_decode (firstn 8 (skipn 8 (apfs_vol_uuid vol)))) in
    let buf :=
      set_f_fsid buf (Z.land fsid 0xFFFFFFFF)
                 (Z.land (Z.shiftr fsid 32) 0xFFFFFFFF) in
    (0, buf).

End Super.

(** * A model of the kernel functions

    Used to run the code on sample images.  The option parser follows
    lib/parser.c and lib/vsprintf.c of the kernel for patterns made of
    literal text and [%u]; allocations succeed; the device has 4096-byte
    blocks only. *)

(** The value of a digit, decimal or hexadecimal. *)
Definition digit_val (c : ascii) : option Z :=
  let n := Z.of_N (N_of_ascii c) in
  if (48 <=? n) && (n <=? 57) then Some (n - 48)
  else
    let lc := Z.lor n 0x20 in
    if (97 <=? lc) && (lc <=? 102) then Some (lc - 97 + 10) else None.

(** [_parse_integer]: the digits of [s] in [base]; the value wraps at 64
    bits.  The result is the value and the text after the digits. *)
Fixpoint parse_integer (s : string) (base : Z) (result : Z) : Z * string :=
  match s with
  | EmptyString => (result, s)
  | String c s' =>
      match digit_val c with
      | Some v =>
          if v <? base then parse_integer s' base (u64 (result * base + v))
          else (result, s)
      | None => (result, s)
      end
  end.

Definition is_x (c : ascii) : bool := ((c =? "x") || (c =? "X"))%char.

(** [simple_strtoul(cp, &endp, 0)]: the radix is read from the prefix. *)
Definition simple_strtoul (cp : string) : Z * string :=
  match cp with
  | String "0" (String x (String d rest)) =>
      if is_x x && (match digit_val d with Some _ => true | None => false end)
      then parse_integer (String d rest) 16 0
      else parse_integer cp 8 0
  | String "0" _ => parse_integer cp 8 0
  | _ => parse_integer cp 10 0
  end.

(** [(long) x] of a 64-bit value. *)
Definition long_of_u64 (x : Z) : Z := if x <? 2 ^ 63 then x else x - 2 ^ 64.

(** [simple_strtol(cp, &endp, 0)]. *)
Definition simple_strtol (cp : string) : Z * string :=
  match cp with
  | String "-" cp' =>
      let '(v, endp) := simple_strtoul cp' in (long_of_u64 (u64 (- v)), endp)
  | _ => let '(v, endp) := simple_strtoul cp in (long_of_u64 v, endp)
  end.

(** [match_int]: [-EINVAL] without a digit, [-ERANGE] outside [int]. *)
Definition kernel_match_int (s : string) : Z * Z :=
  let '(val, endp) := simple_strtol s in
  if (String.length endp =? String.length s)%nat then (- EINVAL, 0)
  else if (val <? - 2 ^ 31) || (val >? 2 ^ 31 - 1) then (- ERANGE, 0)
  else (0, val).

(** The text of [p] before its first [%], and the text after it. *)
Fixpoint split_percent (p : string) : option (string * string) :=
  match p with
  | EmptyString => None
  | String c p' =>
      if (c =? "%")%char then Some (EmptyString, p')
      else
        match split_percent p' with
        | Some (lit, after) => Some (String c lit, after)
        | None => None
        end
  end.

(** [s] without the prefix [lit], when it starts with it. *)
Fixpoint strip_prefix (lit s : string) : option string :=
  match lit, s with
  | EmptyString, _ => Some s
  | String a lit', String b s' =>
      if (a =? b)%char then strip_prefix lit' s' else None
  | String _ _, EmptyString => None
  end.

(** [match_one]: [fuel] bounds the number of conversions of the pattern. *)
Fixpoint match_one (fuel : nat) (s p : string) (args : list string)
    : option (list string) :=
  match split_percent p with
  | None => if (p =? s)%string then Some args else None
  | Some (lit, after) =>
      match fuel, strip_prefix lit s, after with
      | S fuel', Some s1, String "u" p' =>
          let '(_, endp) := simple_strtoul s1 in
          let consumed := (String.length s1 - String.length endp)%nat in
          if (consumed =? 0)%nat then None
          else match_one fuel' endp p' (args ++ [substring 0 consumed s1])
      | _, _, _ => None
      end
  end.

(** [match_token]: the first entry of the table whose pattern matches; the
    entry without a pattern matches everything. *)
Fixpoint kernel_match_token (s : string) (table : match_table_t)
    : opt * list string :=
  match table with
  | [] => (Opt_err, [])
  | (token, None) :: _ => (token, [])
  | (token, Some p) :: table' =>
      match match_one (String.length p) s p [] with
      | Some args => (token, args)
      | None => kernel_match_token s table'
      end
  end.

(** A device as the list of its blocks, by number. *)
Definition disk := list (Z * list byte).

Fixpoint disk_block (d : disk) (bno : Z) : option (list byte) :=
  match d with
  | [] => None
  | (n, data) :: d' => if n =? bno then Some data else disk_block d' bno
  end.

Definition disk_bread (d : disk) (sb : super_block) (bno : Z)
    : option buffer_head :=
  match disk_block d bno with
  | Some data => Some (mk_bh data (s_blocksize sb) bno true)
  | None => None
  end.

Definition disk_set_blocksize (sb : super_block) (size : Z) : Z * super_block :=
  if size =? 4096 then
    (4096, mk_sb 4096 12 (s_magic sb) (sb_flags sb) (s_maxbytes sb) (s_root sb)
                 (s_fs_info sb))
  else (0, sb).

(** The kernel over the device [d], in the initial user namespace. *)
Definition kernel_on (d : disk) : kernel :=
  mk_kernel disk_set_blocksize (disk_bread d) kernel_match_token
            kernel_match_int (fun uid => u32 uid) (fun gid => u32 gid)
            (fun root => Some (i_ino root)).

(** ** Sample images *)

Definition zeros (n : nat) : list byte := repeat x00 n.

(** The bytes after the checksum of a container super block with 4096-byte
    blocks: [block_count] blocks, the object map in block [omap]. *)
Definition nx_payload (block_count omap : Z) (fs_oids : list Z) : list byte :=
  let fields :=
    (le_encode 8 1 ++ le_encode 8 1 ++ le_encode 4 1 ++ le_encode 4 0)
    ++ (le_encode 4 APFS_NX_MAGIC ++ le_encode 4 4096 ++ le_encode 8 block_count)
    ++ zeros 112 ++ le_encode 8 omap ++ zeros 16
    ++ flat_map (le_encode 8) fs_oids in
  fields ++ zeros (4088 - length fields).

(** A block with the checksum of its payload in front. *)
Definition sealed (payload : list byte) : list byte :=
  le_encode 8 (Ref.fletcher64 payload) ++ payload.

Definition good_container : list byte := sealed (nx_payload 10000 50 [0x402; 0x403]).

(** The same block with the lowest bit of the first checksum byte
    flipped. *)
Definition flip_first (block : list byte) : list byte :=
  match block with
  | [] => []
  | b :: rest => byte_of (Z.lxor (byte_val b) 1) :: rest
  end.

Definition bad_container : list byte := flip_first good_container.

Definition blank_sb : super_block := mk_sb 0 0 0 0 0 None None.

(** The other files of the module are not reached on the sample mounts. *)
Definition no_lib : apfs_lib :=
  mk_lib (fun _ _ => ErrPtr 5) (fun _ _ => (0, 0))
         (fun _ _ _ => (- EIO, 0)) (fun _ _ => ErrPtr 5)
         (fun _ _ => ErrPtr 5).

(** A volume super block that reports [alloc] blocks in use and the given
    object counts. *)
Definition volume_block (alloc files dirs symlinks others : Z)
    (uuid : list byte) : list byte :=
  let fields :=
    zeros 32 ++ le_encode 4 APFS_MAGIC ++ zeros 52 ++ le_encode 8 alloc
    ++ zeros 88
    ++ le_encode 8 files ++ le_encode 8 dirs ++ le_encode 8 symlinks
    ++ le_encode 8 others ++ zeros 24 ++ uuid in
  fields ++ zeros (4096 - length fields).

Definition omap_block (tree : Z) : list byte :=
  zeros 48 ++ le_encode 8 tree ++ zeros 4040.

(** The node of the container object map: two values of 16 bytes, at
    offsets 64 and 80, for the volumes in blocks 100 and 101. *)
Definition omap_node_data : list byte :=
  zeros 64 ++ (le_encode 4 0 ++ le_encode 4 4096 ++ le_encode 8 100)
  ++ (le_encode 4 0 ++ le_encode 4 4096 ++ le_encode 8 101) ++ zeros 4000.

Definition sample_uuid : list byte :=
  le_encode 8 0x1122334455667788 ++ le_encode 8 0x0102030405060708.

Definition sample_disk : disk :=
  [ (0, good_container);
    (50, omap_block 51);
    (51, omap_node_data);
    (100, volume_block 1000 10 3 2 1 sample_uuid);
    (101, volume_block 2500 7 7 7 7 sample_uuid) ].

Definition sample_vtable : apfs_table :=
  mk_table (mk_node 51 51 (mk_bh omap_node_data 4096 51 true)) 2.

Definition sample_lib : apfs_lib :=
  mk_lib (fun _ bno => if bno =? 51 then Ptr sample_vtable else ErrPtr 5)
         (fun _ index => (16, 64 + 16 * index))
         (fun _ _ _ => (- EIO, 0)) (fun _ _ => ErrPtr 5)
         (fun _ _ => ErrPtr 5).

(** The same node read with a table of contents whose second value is 8
    bytes long. *)
Definition short_value_lib : apfs_lib :=
  mk_lib (fun _ bno => if bno =? 51 then Ptr sample_vtable else ErrPtr 5)
         (fun _ index => if index =? 1 then (8, 80) else (16, 64 + 16 * index))
         (fun _ _ _ => (- EIO, 0)) (fun _ _ => ErrPtr 5)
         (fun _ _ => ErrPtr 5).

Definition mounted_sb : super_block :=
  mk_sb 4096 12 APFS_NX_MAGIC SB_RDONLY MAX_LFS_FILESIZE (Some 2)
        (Some (mk_sbi good_container null_node
                      (volume_block 1000 10 3 2 1 sample_uuid) null_node
                      null_table sample_cat_root 0 0 0 0 4096 12)).

Definition blank_statfs : kstatfs := mk_kstatfs 0 0 0 0 0 0 0 (0, 0) 0.


(** The substring that [match_token] leaves in [args[0]] for segment [p]. *)
Definition args0 (K : kernel) (p : string) : string :=
  nth 0 (snd (match_token K p tokens)) EmptyString.

(** The segments that the loop of [parse_options] does not skip. *)
Definition nonempty (p : string) : bool := negb (p =? "")%string.

(** ** The volumes that the container object map refers to *)

(** The volume super block that record [i] of the node refers to: the
    value of the record is 16 bytes long and its second half is the number
    of a block that can be read. *)
Definition referenced_volume (K : kernel) (L : apfs_lib) (sb : super_block)
    (vtable : apfs_table) (i : Z) : option (list byte) :=
  let '(len, off) := apfs_table_locate_data L vtable i in
  if len =? 16 then
    match sb_bread K sb (le64_at (b_data (bh (t_node vtable))) (off + 8)) with
    | Some bh => Some (b_data bh)
    | None => None
    end
  else None.

(** The sum of [fs_alloc_count] over a list of volume super blocks. *)
Definition sum_alloc (vsbs : list (list byte)) : Z :=
  fold_right Z.add 0 (map apfs_fs_alloc_count vsbs).

(** ** Parts of the mount state

    What [apfs_map_main_super] establishes, and what
    [apfs_map_volume_super] establishes. *)
Definition container_part (sb : super_block)
    : Z * Z * Z * Z * list byte * apfs_node * Z * Z :=
  (s_blocksize sb, s_blocksize_bits sb, s_magic sb, sb_flags sb,
   s_msb_raw (APFS_SB sb), s_mnode (APFS_SB sb),
   s_nodesize (APFS_SB sb), s_nodesize_bits (APFS_SB sb)).

Definition volume_part (sb : super_block) : list byte * apfs_node :=
  (s_vsb_raw (APFS_SB sb), s_vnode (APFS_SB sb)).

(** [sb_set_blocksize] changes the block size of a super block and nothing
    else. *)
Definition set_blocksize_keeps_flags (K : kernel) : Prop :=
  forall sb size, sb_flags (snd (sb_set_blocksize K sb size)) = sb_flags sb.

(** The rest of the module for a mount of the sample device: the container
    object map leads to the volume in block 100, and the catalog of the
    volume is the sample catalog. *)
Definition mount_lib : apfs_lib :=
  mk_lib (fun _ _ => Ptr sample_vtable)
         (fun _ index => (16, 64 + 16 * index))
         (fun _ _ oid => if oid =? 0x402 then (0, 100) else (- ENODATA, 0))
         (fun _ _ => Ptr sample_cat_root)
         (fun sb ino => Ptr (mk_inode sb ino 12 ino (mk_extent 0 0 0))).

(** Some segment that is not empty has the token [tok]. *)
Definition has_token (K : kernel) (tok : opt) (segs : list string) : Prop :=
  exists p, In p segs /\ p <> EmptyString /\ fst (match_token K p tokens) = tok.

(** * super.c: showing the options *)

Section ShowOptions.

(** [print_u] is the conversion [%u] of [seq_printf]; [from_kuid] and
    [from_kgid] are [from_kuid(&init_user_ns, .)] and
    [from_kgid(&init_user_ns, .)]. *)
Variable print_u : Z -> string.
Variable from_kuid : Z -> Z.
Variable from_kgid : Z -> Z.

(** [seq] is the text of the [seq_file] before the call; the result is the
    return code and the text after it. *)
Definition apfs_show_options (seq : string) (sb : super_block) : Z * string :=
  let sbi := APFS_SB sb in
  let seq :=
    if negb (s_vol_nr sbi =? 0)
    then (seq ++ ",vol=" ++ print_u (s_vol_nr sbi))%string else seq in
  let seq :=
    if negb (Z.land (s_flags sbi) APFS_UID_OVERRIDE =? 0)
    then (seq ++ ",uid=" ++ print_u (from_kuid (s_uid sbi)))%string else seq in
  let seq :=
    if negb (Z.land (s_flags sbi) APFS_GID_OVERRIDE =? 0)
    then (seq ++ ",gid=" ++ print_u (from_kgid (s_gid sbi)))%string else seq in
  (0, seq).

End ShowOptions.

(** The conversion [%u] of the kernel: the decimal digits of a 32-bit
    number, most significant first, without leading zeros. *)
Definition digit_char (d : Z) : ascii := ascii_of_N (Z.to_N (48 + d)).

Fixpoint print_digits (fuel : nat) (n : Z) (acc : string) : string :=
  match fuel with
  | O => acc
  | S fuel' =>
      let acc' := String (digit_char (n mod 10)) acc in
      if n / 10 =? 0 then acc' else print_digits fuel' (n / 10) acc'
  end.

Definition kernel_print_u (n : Z) : string :=
  print_digits 10 (u32 n) EmptyString.

(** The text has no comma. *)
Fixpoint no_comma (s : string) : bool :=
  match s with
  | EmptyString => true
  | String c s' => negb (c =? ",")%char && no_comma s'
  end.

(** The option text for a list of options: a comma in front of each. *)
Fixpoint join_options (opts : list string) : string :=
  match opts with
  | [] => EmptyString
  | p :: opts' => ("," ++ p ++ join_options opts')%string
  end.

(** The options that [apfs_show_options] prints for a mount state. *)
Definition shown_options (sbi : apfs_sb_info) : list string :=
  (if negb (s_vol_nr sbi =? 0)
   then [("vol=" ++ kernel_print_u (s_vol_nr sbi))%string] else [])
  ++ (if negb (Z.land (s_flags sbi) APFS_UID_OVERRIDE =? 0)
      then [("uid=" ++ kernel_print_u (s_uid sbi))%string] else [])
  ++ (if negb (Z.land (s_flags sbi) APFS_GID_OVERRIDE =? 0)
      then [("gid=" ++ kernel_print_u (s_gid sbi))%string] else []).

(** * Proofs *)

(** ** Bytes and machine integers *)

Lemma byte_val_range (b : byte) : 0 <= byte_val b < 256.
Proof.
  unfold byte_val. pose proof (Byte.to_N_bounded b). lia.
Qed.

Lemma le_decode_range (bs : list byte) :
  0 <= le_decode bs < 256 ^ Z.of_nat (length bs).
Proof.
  induction bs as [|b bs IH].
  - simpl. lia.
  - cbn [le_decode length]. rewrite Nat2Z.inj_succ, Z.pow_succ_r by lia.
    pose proof (byte_val_range b). lia.
Qed.

Lemma le64_at_range raw off : 0 <= le64_at raw off < 2 ^ 64.
Proof.
  unfold le64_at.
  set (bs := firstn 8 (skipn (Z.to_nat off) raw)).
  pose proof (le_decode_range bs) as H.
  assert (Hl : (length bs <= 8)%nat) by (subst bs; apply firstn_le_length).
  assert (256 ^ Z.of_nat (length bs) <= 256 ^ 8)
    by (apply Z.pow_le_mono_r; lia).
  change (2 ^ 64) with (256 ^ 8). lia.
Qed.

Lemma le32_at_range raw off : 0 <= le32_at raw off < 2 ^ 32.
Proof.
  unfold le32_at.
  set (bs := firstn 4 (skipn (Z.to_nat off) raw)).
  pose proof (le_decode_range bs) as H.
  assert (Hl : (length bs <= 4)%nat) by (subst bs; apply firstn_le_length).
  assert (256 ^ Z.of_nat (length bs) <= 256 ^ 4)
    by (apply Z.pow_le_mono_r; lia).
  change (2 ^ 32) with (256 ^ 4). lia.
Qed.

Lemma u64_small x : 0 <= x < 2 ^ 64 -> u64 x = x.
Proof. intros; unfold u64; apply Z.mod_small; assumption. Qed.

Lemma u64_range x : 0 <= u64 x < 2 ^ 64.
Proof. unfold u64; apply Z.mod_pos_bound; lia. Qed.

(** ** extents.c *)

Lemma len_mask_ones : APFS_FILE_EXTENT_LEN_MASK = Z.ones 56.
Proof. reflexivity. Qed.

Lemma ext_len_of_range q : 0 <= ext_len_of q < 2 ^ 56.
Proof.
  unfold ext_len_of. rewrite len_mask_ones, Z.land_ones by lia.
  apply Z.mod_pos_bound; lia.
Qed.

Lemma extent_of_u64 q : extent_u64 (extent_of q).
Proof.
  unfold extent_u64, extent_of; cbn [logical_addr phys_block_num len].
  pose proof (le64_at_range (query_raw q) (q_key_off q + 8)).
  pose proof (le64_at_range (query_raw q) (q_off q + 8)).
  pose proof (ext_len_of_range q).
  assert (2 ^ 56 < 2 ^ 64) by reflexivity. lia.
Qed.

(** The wrapped test of the cache implies coverage over the integers. *)
Lemma cache_covers_sound e a :
  extent_u64 e -> cache_covers e a = true ->
  logical_addr e <= a < logical_addr e + len e.
Proof.
  intros (Hla & _ & Hlen) H. unfold cache_covers in H.
  apply andb_true_iff in H as [H1 H2].
  apply Z.leb_le in H1. apply Z.ltb_lt in H2.
  destruct (Z_lt_dec (logical_addr e + len e) (2 ^ 64)) as [Hs|Hb].
  - rewrite u64_small in H2 by lia. lia.
  - assert (Hw : u64 (logical_addr e + len e) = logical_addr e + len e - 2 ^ 64).
    { unfold u64. symmetry. apply Z.mod_unique with (q := 1); lia. }
    rewrite Hw in H2. lia.
Qed.

Lemma iaddr_of_set_cached ino e iblock :
  iaddr_of (set_cached_extent ino e) iblock = iaddr_of ino iblock.
Proof. reflexivity. Qed.

(** The alignment test of line 84 against a power-of-two block size. *)
Lemma aligned_test ino x :
  inode_ok ino ->
  (Z.land x (u64 (s_blocksize (i_sb ino) - 1)) =? 0) = true <->
  x mod s_blocksize (i_sb ino) = 0.
Proof.
  intros (_ & Hb & Hbs). rewrite Hbs.
  assert (Hp : 0 < 2 ^ i_blkbits ino) by (apply Z.pow_pos_nonneg; lia).
  assert (Hq : 2 ^ i_blkbits ino < 2 ^ 64) by (apply Z.pow_lt_mono_r; lia).
  rewrite u64_small by lia.
  replace (2 ^ i_blkbits ino - 1) with (Z.ones (i_blkbits ino))
    by (rewrite Z.ones_equiv; lia).
  rewrite Z.land_ones by lia. apply Z.eqb_eq.
Qed.

(** An exit of [apfs_extent_read] with an error code. *)
Ltac error_exit :=
  intros [= <- <- <-]; right; left; repeat split; auto; discriminate.

Section ExtentsGeneric.

Variable engine : super_block -> apfs_query -> Z * apfs_query.

(** The three ways out of [apfs_extent_read]. *)
Lemma apfs_extent_read_cases km ino iblock ext0 ret E ino' :
  apfs_extent_read engine km ino iblock ext0 = (ret, E, ino') ->
  (cache_covers (i_cached_extent ino) (iaddr_of ino iblock) = true /\
   ret = 0 /\ E = i_cached_extent ino /\ ino' = ino)
  \/ (cache_covers (i_cached_extent ino) (iaddr_of ino iblock) = false /\
      ret <> 0 /\ E = ext0 /\ ino' = ino)
  \/ (cache_covers (i_cached_extent ino) (iaddr_of ino iblock) = false /\
      exists q0 q,
        apfs_alloc_query km (s_cat_root (APFS_SB (i_sb ino))) = Some q0 /\
        engine (i_sb ino) (extent_query ino (iaddr_of ino iblock) q0) = (0, q) /\
        q_len q = sizeof_file_extent_val /\
        q_key_len q = sizeof_file_extent_key /\
        Z.land (ext_len_of q) (u64 (s_blocksize (i_sb ino) - 1)) = 0 /\
        ret = 0 /\ E = extent_of q /\
        ino' = set_cached_extent ino (extent_of q)).
Proof.
  unfold apfs_extent_read.
  destruct (cache_covers _ _) eqn:Hc.
  { intros [= <- <- <-]. left. auto. }
  destruct (kmalloc_ok km); cbn [negb]; [|error_exit].
  destruct (apfs_alloc_query km _) as [q0|] eqn:Hq0; [|error_exit].
  destruct (engine _ _) as [r q] eqn:He.
  destruct (r =? 0) eqn:Hr; cbn [negb].
  2:{ apply Z.eqb_neq in Hr. error_exit. }
  apply Z.eqb_eq in Hr; subst r.
  destruct (q_len q =? _) eqn:Hl; cbn [negb orb]; [|error_exit].
  destruct (q_key_len q =? _) eqn:Hk; cbn [negb]; [|error_exit].
  destruct (Z.land _ _ =? 0) eqn:Ha; cbn [negb]; [|error_exit].
  intros [= <- <- <-]. right. right. split; [reflexivity|].
  exists q0, q. apply Z.eqb_eq in Hl, Hk, Ha. repeat split; auto.
Qed.

End ExtentsGeneric.

(** The converse, for an extent that ends inside the 64-bit address
    space. *)
Lemma cache_covers_complete e a :
  extent_u64 e -> logical_addr e + len e < 2 ^ 64 ->
  logical_addr e <= a < logical_addr e + len e ->
  cache_covers e a = true.
Proof.
  intros (Hla & _ & Hlen) Hend Hc. unfold cache_covers.
  rewrite u64_small by lia.
  apply andb_true_iff. split; [apply Z.leb_le|apply Z.ltb_lt]; lia.
Qed.

Lemma cat_btree_query_covers lk ld : engine_covers (cat_btree_query lk ld).
Proof.
  intros sb q q'. unfold cat_btree_query.
  destruct (t_records (q_table q) <=? 0); [discriminate|].
  destruct (greatest_below lk ld q _ None) as [cand|]; [|discriminate].
  destruct (_ && _) eqn:Hc; [|discriminate].
  intros [= <-]. apply andb_true_iff in Hc as [H1 H2].
  apply Z.leb_le in H1. apply Z.ltb_lt in H2.
  unfold extent_of, cand_logical_addr in *. cbn [logical_addr len]. lia.
Qed.

Section ExtentsInvariants.

Variable engine : super_block -> apfs_query -> Z * apfs_query.

Lemma extent_read_keeps_invariants km ino iblock ext0 ret E ino' :
  inode_ok ino -> cache_valid ino ->
  apfs_extent_read engine km ino iblock ext0 = (ret, E, ino') ->
  inode_ok ino' /\ cache_valid ino'.
Proof.
  intros Hok Hv H. apply apfs_extent_read_cases in H.
  destruct H as [(_ & _ & _ & ->)|[(_ & _ & _ & ->)|(_ & q0 & q & _ & He & _ & _ & Ha & _ & _ & ->)]];
    auto.
  assert (Hok' : inode_ok (set_cached_extent ino (extent_of q))).
  { destruct Hok as (_ & Hb & Hbs). split; [apply extent_of_u64|]. auto. }
  split; [exact Hok'|].
  unfold cache_valid. cbn [set_cached_extent i_cached_extent i_sb extent_of len].
  apply (aligned_test ino); [assumption|]. apply Z.eqb_eq. exact Ha.
Qed.

(** From the cache or from the engine, the extent returned covers the
    64-bit address of the block, over the integers. *)
Lemma extent_read_result_covers km ino iblock ext0 E ino' :
  engine_covers engine ->
  inode_ok ino ->
  apfs_extent_read engine km ino iblock ext0 = (0, E, ino') ->
  extent_u64 E /\
  logical_addr E <= iaddr_of ino iblock < logical_addr E + len E /\
  i_cached_extent ino' = E /\ i_blkbits ino' = i_blkbits ino /\
  i_sb ino' = i_sb ino.
Proof.
  intros engine_ok Hok H. apply apfs_extent_read_cases in H.
  destruct H as [(Hc & _ & -> & ->)|[(_ & Hr & _)|(_ & q0 & q & _ & He & _ & _ & _ & _ & -> & ->)]].
  - destruct Hok as (Hu & _). split; [exact Hu|].
    split; [apply cache_covers_sound; assumption|auto].
  - congruence.
  - split; [apply extent_of_u64|]. split; [|auto].
    apply engine_ok in He. exact He.
Qed.

End ExtentsInvariants.

(** The byte address that the code computes is the address of the block
    modulo 2^64. *)
Lemma iaddr_of_mod ino iblock :
  inode_ok ino ->
  iaddr_of ino iblock = (iblock * s_blocksize (i_sb ino)) mod 2 ^ 64.
Proof.
  intros (_ & Hb & Hbs). unfold iaddr_of, u64.
  rewrite Z.shiftl_mul_pow2 by lia. rewrite Hbs. reflexivity.
Qed.

Lemma init_once_cache_valid ino : cache_valid (init_once ino).
Proof.
  unfold cache_valid, init_once. cbn [set_cached_extent i_cached_extent len].
  apply Zmod_0_l.
Qed.

(** Closed goals on the sample images. *)
Ltac concrete :=
  vm_compute; repeat split; solve [reflexivity | discriminate | congruence].

Example sample_first_read :
  apfs_extent_read sample_engine kmem_ok sample_inode 0 (mk_extent 0 0 0)
  = (0, sample_extent, set_cached_extent sample_inode sample_extent).
Proof. vm_compute. reflexivity. Qed.

Example sample_odd_read :
  apfs_extent_read sample_engine kmem_ok odd_inode 0 (mk_extent 1 2 3)
  = (- EFSCORRUPTED, mk_extent 1 2 3, odd_inode).
Proof. vm_compute. reflexivity. Qed.

Example sample_inode_ok : inode_ok sample_inode.
Proof. concrete. Qed.

(** *** The claims on extents.c *)

(** C1 (as amended).  [apfs_get_block] never reads [create]: a call with
    the create flag set does what the same call without it does.  Its
    return code is the return code of [apfs_extent_read], so a request to
    write is mapped like a request to read, and the only change of state is
    the update of the cached extent made by [apfs_extent_read]. *)
Theorem apfs_get_block_ignores_create
    (engine : super_block -> apfs_query -> Z * apfs_query)
    km ino iblock bh_result create ext :
  apfs_get_block engine km ino iblock bh_result create ext
  = apfs_get_block engine km ino iblock bh_result 0 ext
  /\ fst (fst (apfs_get_block engine km ino iblock bh_result create ext))
     = fst (fst (apfs_extent_read engine km ino iblock ext))
  /\ snd (apfs_get_block engine km ino iblock bh_result create ext)
     = snd (apfs_extent_read engine km ino iblock ext).
Proof.
  split; [reflexivity|].
  unfold apfs_get_block.
  destruct (apfs_extent_read engine km ino iblock ext) as [[ret e] ino'].
  destruct (ret =? 0) eqn:Hr; cbn [negb fst snd]; auto.
  apply Z.eqb_eq in Hr. auto.
Qed.

(** C1, counterexample.  On the sample volume a request to write block 0
    of a fresh inode is not refused with [-EROFS]: it returns 0, maps the
    buffer to disk block 500 and installs the extent in the cache. *)
Lemma apfs_get_block_create_is_mapped :
  let '(ret, bh', ino') :=
    apfs_get_block sample_engine kmem_ok sample_inode 0
                   (mk_bh [] 4096 0 false) 1 (mk_extent 0 0 0) in
  ret <> - EROFS /\ ret = 0 /\
  b_mapped bh' = true /\ b_blocknr bh' = 500 /\
  i_cached_extent ino' <> i_cached_extent sample_inode.
Proof. concrete. Qed.

(** C2 (as amended).  Whatever the B-tree engine is, an extent returned by
    [apfs_extent_read], from the cache or from the catalog, has a length
    that is a multiple of the block size, and a looked-up record whose
    length is not a multiple of the block size makes the call fail with
    [-EFSCORRUPTED] and leaves the inode as it was.  The length is not
    tested for being positive: a record of length 0 that the engine hands
    over with the two expected sizes is returned with code 0 and cached.  The
    length returned is positive when the engine accepts covering records
    only, as section 4.4 of the specification says it does.  The cache stays
    empty or aligned. *)
Theorem apfs_extent_read_len_aligned
    (engine : super_block -> apfs_query -> Z * apfs_query)
    km ino iblock ext0 ret E ino' :
  inode_ok ino -> cache_valid ino ->
  apfs_extent_read engine km ino iblock ext0 = (ret, E, ino') ->
  (ret = 0 -> len E mod s_blocksize (i_sb ino) = 0)
  /\ (ret = 0 -> engine_covers engine -> 0 < len E)
  /\ (forall q0 q,
        cache_covers (i_cached_extent ino) (iaddr_of ino iblock) = false ->
        kmalloc_ok km = true ->
        apfs_alloc_query km (s_cat_root (APFS_SB (i_sb ino))) = Some q0 ->
        engine (i_sb ino) (extent_query ino (iaddr_of ino iblock) q0) = (0, q) ->
        (ext_len_of q mod s_blocksize (i_sb ino) <> 0 ->
         ret = - EFSCORRUPTED /\ ino' = ino)
        /\ (q_len q = sizeof_file_extent_val ->
            q_key_len q = sizeof_file_extent_key ->
            ext_len_of q = 0 ->
            ret = 0 /\ len E = 0 /\ i_cached_extent ino' = E))
  /\ (inode_ok ino' /\ cache_valid ino').
Proof.
  intros Hok Hv H.
  pose proof (extent_read_keeps_invariants _ _ _ _ _ _ _ _ Hok Hv H) as Hinv.
  split; [|split; [|split; [|exact Hinv]]].
  - intros ->. destruct Hinv as (_ & Hv').
    pose proof H as H'. apply apfs_extent_read_cases in H'.
    destruct H' as [(_ & _ & -> & ->)|[(_ & Hr & _)|(_ & q0 & q & _ & _ & _ & _ & _ & _ & -> & ->)]].
    + exact Hv.
    + congruence.
    + exact Hv'.
  - intros -> Hcov.
    destruct (extent_read_result_covers _ _ _ _ _ _ _ Hcov Hok H) as (_ & Hc & _).
    lia.
  - intros q0 q Hmiss Hkm Hq0 He.
    unfold apfs_extent_read in H.
    rewrite Hmiss, Hkm, Hq0, He in H. cbn [negb Z.eqb] in H. cbv zeta in H.
    split.
    + intros Hbad.
      destruct (negb (q_len q =? _) || negb (q_key_len q =? _)).
      { inversion H; auto. }
      destruct (Z.land _ _ =? 0) eqn:Ha; cbn [negb] in H.
      2:{ inversion H; auto. }
      exfalso. apply Hbad. apply (aligned_test ino); assumption.
    + intros Hl Hk Hz. rewrite Hl, Hk, !Z.eqb_refl in H. cbn [negb orb] in H.
      rewrite Hz, Z.land_0_l in H. cbn [Z.eqb negb] in H.
      inversion H. subst.
      cbn [extent_of len set_cached_extent i_cached_extent]. auto.
Qed.

Lemma apfs_extent_read_len_aligned_witness :
  inode_ok sample_inode /\ cache_valid sample_inode /\
  apfs_extent_read sample_engine kmem_ok sample_inode 2 (mk_extent 0 0 0)
  = (0, sample_extent, set_cached_extent sample_inode sample_extent) /\
  len sample_extent mod 4096 = 0 /\ 0 < len sample_extent.
Proof.
  assert (Hok : inode_ok sample_inode) by concrete.
  assert (Hv : cache_valid sample_inode) by concrete.
  assert (Hr : apfs_extent_read sample_engine kmem_ok sample_inode 2
                 (mk_extent 0 0 0)
               = (0, sample_extent, set_cached_extent sample_inode sample_extent))
    by (vm_compute; reflexivity).
  split; [exact Hok|]. split; [exact Hv|]. split; [exact Hr|].
  destruct (apfs_extent_read_len_aligned _ _ _ _ _ _ _ _ Hok Hv Hr)
    as (Ha & Hp & _).
  split; [apply Ha; reflexivity|].
  apply Hp; [reflexivity|]. apply cat_btree_query_covers.
Defined.

(** C2, counterexample.  The only record of the catalog has length 0, which
    is a multiple of the block size and not positive.  When the B-tree query
    hands the record over, [apfs_extent_read] returns 0 with an extent of
    length 0, and caches it; with the catalog engine of the specification
    the record is refused by the engine and the call returns [-ENODATA].
    Neither is [-EFSCORRUPTED]. *)
Lemma apfs_extent_read_zero_length :
  ext_len_of (snd (first_record_query (i_sb empty_inode)
                     (extent_query empty_inode 0
                        (mk_query (s_cat_root (APFS_SB (i_sb empty_inode)))
                                  (mk_key 0 0 0 None) 0 0 0 0 0 0)))) = 0
  /\ apfs_extent_read first_record_query kmem_ok empty_inode 0 (mk_extent 1 2 3)
     = (0, mk_extent 0 500 0, set_cached_extent empty_inode (mk_extent 0 500 0))
  /\ apfs_extent_read sample_engine kmem_ok empty_inode 0 (mk_extent 1 2 3)
     = (- ENODATA, mk_extent 1 2 3, empty_inode)
  /\ - ENODATA <> - EFSCORRUPTED.
Proof. concrete. Qed.

(** C5 (as amended).  With the catalog engine of the specification, an
    extent [E] returned by [apfs_extent_read] for block [iblock] covers the
    byte address that the code computes, [iblock << i_blkbits], which is
    [iblock * block_size] modulo 2^64:
    [E.logical_addr <= (iblock * block_size) mod 2^64 < E.logical_addr + E.len],
    from the cache and from the catalog alike.  It covers
    [iblock * block_size] itself whenever that address fits in 64 bits. *)
Theorem apfs_extent_read_covers lk ld km ino iblock ext0 E ino' :
  inode_ok ino ->
  apfs_extent_read (cat_btree_query lk ld) km ino iblock ext0 = (0, E, ino') ->
  iaddr_of ino iblock = (iblock * s_blocksize (i_sb ino)) mod 2 ^ 64
  /\ logical_addr E <= (iblock * s_blocksize (i_sb ino)) mod 2 ^ 64
     < logical_addr E + len E
  /\ (0 <= iblock * s_blocksize (i_sb ino) < 2 ^ 64 ->
      logical_addr E <= iblock * s_blocksize (i_sb ino) < logical_addr E + len E).
Proof.
  intros Hok H.
  destruct (extent_read_result_covers _ _ _ _ _ _ _
              (cat_btree_query_covers lk ld) Hok H) as (_ & Hc & _).
  pose proof (iaddr_of_mod ino iblock Hok) as Hm.
  split; [exact Hm|]. rewrite Hm in Hc. split; [exact Hc|].
  intros Hfit. rewrite Z.mod_small in Hc by exact Hfit. exact Hc.
Qed.

Lemma apfs_extent_read_covers_witness :
  logical_addr sample_extent <= 2 * 4096
  < logical_addr sample_extent + len sample_extent.
Proof.
  apply (apfs_extent_read_covers sample_locate_key sample_locate_data kmem_ok
           sample_inode 2 (mk_extent 0 0 0) sample_extent
           (set_cached_extent sample_inode sample_extent)).
  - concrete.
  - vm_compute; reflexivity.
  - vm_compute. split; [discriminate|reflexivity].
Defined.

(** C5, counterexample.  Block 2^52 of a file with 4096-byte blocks has the
    byte address 2^64, which the shift of line 41 wraps to 0: the call
    returns the extent [{0, 500, 12288}], from the catalog and then from the
    cache, and that extent does not cover [iblock * block_size]. *)
Lemma apfs_extent_read_wrapped_block :
  iaddr_of sample_inode (2 ^ 52) = 0
  /\ apfs_extent_read sample_engine kmem_ok sample_inode (2 ^ 52) (mk_extent 0 0 0)
     = (0, sample_extent, set_cached_extent sample_inode sample_extent)
  /\ apfs_extent_read sample_engine kmem_exhausted
       (set_cached_extent sample_inode sample_extent) (2 ^ 52) (mk_extent 0 0 0)
     = (0, sample_extent, set_cached_extent sample_inode sample_extent)
  /\ ~ (logical_addr sample_extent <= 2 ^ 52 * s_blocksize (i_sb sample_inode)
        < logical_addr sample_extent + len sample_extent).
Proof.
  split; [vm_compute; reflexivity|].
  split; [vm_compute; reflexivity|].
  split; [vm_compute; reflexivity|].
  intros [_ H]. vm_compute in H. discriminate.
Qed.

(** C8 (as amended).  With the catalog engine of the specification, after a
    successful [apfs_extent_read] for block [iblock] that returned an extent
    ending inside the 64-bit address space,
    [E.logical_addr + E.len < 2^64], the cache covers the block, so a second
    call for the same block takes the cache path, whatever the allocator
    does, and returns the same extent without touching the inode. *)
Theorem apfs_extent_read_twice lk ld km km2 ino iblock ext0 ext2 E ino' :
  apfs_extent_read (cat_btree_query lk ld) km ino iblock ext0 = (0, E, ino') ->
  logical_addr E + len E < 2 ^ 64 ->
  cache_covers (i_cached_extent ino') (iaddr_of ino' iblock) = true
  /\ apfs_extent_read (cat_btree_query lk ld) km2 ino' iblock ext2 = (0, E, ino').
Proof.
  intros H Hend.
  assert (Hhit : cache_covers (i_cached_extent ino') (iaddr_of ino' iblock) = true
                 /\ i_cached_extent ino' = E).
  { apply apfs_extent_read_cases in H.
    destruct H as [(Hc & _ & -> & ->)|[(_ & Hr & _)|(_ & q0 & q & _ & He & _ & _ & _ & _ & -> & ->)]].
    - auto.
    - congruence.
    - split; [|reflexivity]. rewrite iaddr_of_set_cached.
      cbn [set_cached_extent i_cached_extent].
      apply (cat_btree_query_covers lk ld) in He.
      apply cache_covers_complete; [apply extent_of_u64|exact Hend|exact He]. }
  destruct Hhit as (Hhit & Hcache). split; [exact Hhit|].
  unfold apfs_extent_read. rewrite Hhit, Hcache. reflexivity.
Qed.

Lemma apfs_extent_read_twice_witness :
  apfs_extent_read sample_engine kmem_ok sample_inode 2 (mk_extent 0 0 0)
  = (0, sample_extent, set_cached_extent sample_inode sample_extent) /\
  cache_covers
    (i_cached_extent (set_cached_extent sample_inode sample_extent))
    (iaddr_of (set_cached_extent sample_inode sample_extent) 2) = true /\
  apfs_extent_read sample_engine kmem_exhausted
    (set_cached_extent sample_inode sample_extent) 2 (mk_extent 0 0 0)
  = (0, sample_extent, set_cached_extent sample_inode sample_extent).
Proof.
  assert (Hr : apfs_extent_read sample_engine kmem_ok sample_inode 2
                 (mk_extent 0 0 0)
               = (0, sample_extent, set_cached_extent sample_inode sample_extent))
    by (vm_compute; reflexivity).
  split; [exact Hr|].
  apply (apfs_extent_read_twice sample_locate_key sample_locate_data kmem_ok
           kmem_exhausted sample_inode 2 (mk_extent 0 0 0) (mk_extent 0 0 0)
           sample_extent (set_cached_extent sample_inode sample_extent) Hr).
  vm_compute. reflexivity.
Defined.

(** C8, counterexample.  The only extent of the file starts at the last
    block of the 64-bit address space and is two blocks long.  The first
    call for block 2^52 - 1 finds it in the catalog and caches it; the sum
    in the cache test of line 46 wraps to 4096, so the cache does not cover
    the block, and a second call for the same block starts a new lookup: it
    fails with [-ENOMEM] when the key cannot be allocated. *)
Lemma apfs_extent_read_edge_extent :
  apfs_extent_read sample_engine kmem_ok edge_inode (2 ^ 52 - 1) (mk_extent 0 0 0)
  = (0, edge_extent, set_cached_extent edge_inode edge_extent)
  /\ cache_covers edge_extent
       (iaddr_of (set_cached_extent edge_inode edge_extent) (2 ^ 52 - 1)) = false
  /\ apfs_extent_read sample_engine kmem_exhausted
       (set_cached_extent edge_inode edge_extent) (2 ^ 52 - 1) (mk_extent 0 0 0)
     = (- ENOMEM, mk_extent 0 0 0, set_cached_extent edge_inode edge_extent)
  /\ 2 ^ 64 <= logical_addr edge_extent + len edge_extent.
Proof.
  split; [vm_compute; reflexivity|].
  split; [vm_compute; reflexivity|].
  split; [vm_compute; reflexivity|].
  vm_compute. discriminate.
Qed.

(** C10.  Whatever the B-tree engine does, a call of [apfs_extent_read]
    that returns an error leaves the inode, with its cached extent, and the
    caller's structure as they were; and the cached extent changes only when
    the engine found a record whose two sizes are the expected ones and whose
    length passed the alignment test. *)
Theorem apfs_extent_read_error_keeps_cache
    (engine : super_block -> apfs_query -> Z * apfs_query)
    km ino iblock ext0 ret E ino' :
  apfs_extent_read engine km ino iblock ext0 = (ret, E, ino') ->
  (ret <> 0 -> ino' = ino /\ E = ext0)
  /\ (i_cached_extent ino' <> i_cached_extent ino ->
      ret = 0 /\
      exists q0 q,
        engine (i_sb ino) (extent_query ino (iaddr_of ino iblock) q0) = (0, q) /\
        q_len q = sizeof_file_extent_val /\
        q_key_len q = sizeof_file_extent_key /\
        Z.land (ext_len_of q) (u64 (s_blocksize (i_sb ino) - 1)) = 0 /\
        i_cached_extent ino' = extent_of q).
Proof.
  intros H. apply apfs_extent_read_cases in H.
  destruct H as [(_ & -> & _ & ->)|[(_ & Hr & -> & ->)|(_ & q0 & q & _ & He & Hl & Hk & Ha & -> & -> & ->)]].
  - split; [congruence|]. intros Hne. congruence.
  - split; [auto|]. intros Hne. congruence.
  - split; [congruence|]. intros _. split; [reflexivity|].
    exists q0, q. auto.
Qed.

Lemma apfs_extent_read_error_keeps_cache_witness :
  apfs_extent_read sample_engine kmem_ok odd_inode 0 (mk_extent 1 2 3)
  = (- EFSCORRUPTED, mk_extent 1 2 3, odd_inode)
  /\ (odd_inode = odd_inode /\ mk_extent 1 2 3 = mk_extent 1 2 3).
Proof.
  assert (Hr : apfs_extent_read sample_engine kmem_ok odd_inode 0 (mk_extent 1 2 3)
               = (- EFSCORRUPTED, mk_extent 1 2 3, odd_inode))
    by (vm_compute; reflexivity).
  split; [exact Hr|].
  apply (apfs_extent_read_error_keeps_cache _ _ _ _ _ _ _ _ Hr).
  discriminate.
Defined.

(** ** super.c: the checksum *)

Lemma le32_array_length_bound : forall (n : nat) (buf : list byte),
  (length buf <= n)%nat -> (4 * length (le32_array buf) <= length buf)%nat.
Proof.
  induction n as [|n IH]; intros buf Hn.
  - destruct buf; simpl in *; lia.
  - destruct buf as [|b0 [|b1 [|b2 [|b3 rest]]]]; try (simpl; lia).
    cbn [le32_array length] in *.
    specialize (IH rest). lia.
Qed.

Lemma le32_array_words : forall (n : nat) (buf : list byte),
  (length buf <= n)%nat -> Forall (fun w => 0 <= w < 2 ^ 32) (le32_array buf).
Proof.
  induction n as [|n IH]; intros buf Hn.
  - destruct buf; simpl in *; [constructor|lia].
  - destruct buf as [|b0 [|b1 [|b2 [|b3 rest]]]]; try constructor.
    + pose proof (le_decode_range [b0; b1; b2; b3]) as H.
      change (256 ^ Z.of_nat (length [b0; b1; b2; b3])) with (2 ^ 32) in H.
      exact H.
    + apply IH. cbn [length] in Hn. lia.
Qed.

Lemma firstn_le32_array buf :
  firstn (Z.to_nat (Z.of_nat (length buf) / 4)) (le32_array buf) = le32_array buf.
Proof.
  apply firstn_all2.
  pose proof (le32_array_length_bound (length buf) buf (Nat.le_refl _)) as H.
  apply Nat2Z.inj_le. rewrite Z2Nat.id by (apply Z.div_pos; lia).
  apply Z.div_le_lower_bound; lia.
Qed.

Lemma Forall_firstn_of {A} (P : A -> Prop) : forall (n : nat) (l : list A),
  Forall P l -> Forall P (firstn n l).
Proof.
  induction n as [|n IH]; intros l Hl; [constructor|].
  destruct Hl as [|x l Hx Hl]; [constructor|].
  cbn [firstn]. constructor; auto.
Qed.

(** The 64-bit loop computes the integer sums modulo [2^64]. *)
Lemma fletcher_loop_wraps : forall words a b,
  fletcher_loop words (u64 a) (u64 b)
  = (u64 (fst (fold_left Ref.accumulate words (a, b))),
     u64 (snd (fold_left Ref.accumulate words (a, b)))).
Proof.
  induction words as [|w words IH]; intros a b.
  - reflexivity.
  - cbn [fletcher_loop fold_left].
    change (Ref.accumulate (a, b) w) with (a + w, b + (a + w)).
    replace (u64 (u64 a + w)) with (u64 (a + w))
      by (unfold u64; rewrite Zplus_mod_idemp_l; reflexivity).
    replace (u64 (u64 b + u64 (a + w))) with (u64 (b + (a + w)))
      by (unfold u64; rewrite Zplus_mod_idemp_l, Zplus_mod_idemp_r; reflexivity).
    apply IH.
Qed.

(** Bounds on the integer sums of [n] words. *)
Lemma sums_bound : forall words a b,
  Forall (fun w => 0 <= w < 2 ^ 32) words -> 0 <= a -> 0 <= b ->
  let n := Z.of_nat (length words) in
  let r := fold_left Ref.accumulate words (a, b) in
  0 <= fst r <= a + n * (2 ^ 32 - 1) /\
  0 <= 2 * snd r <= 2 * b + 2 * n * a + (2 ^ 32 - 1) * (n * (n + 1)).
Proof.
  induction words as [|w words IH]; intros a b Hw Ha Hb.
  - cbn [fold_left length fst snd]. change (Z.of_nat 0) with 0. lia.
  - inversion Hw as [|? ? Hw0 Hws]; subst.
    cbn [fold_left length].
    change (Ref.accumulate (a, b) w) with (a + w, b + (a + w)).
    specialize (IH (a + w) (b + (a + w)) Hws ltac:(lia) ltac:(lia)).
    cbv zeta in IH |- *.
    rewrite Nat2Z.inj_succ.
    set (n := Z.of_nat (length words)) in *.
    assert (0 <= n) by (subst n; lia).
    set (r := fold_left Ref.accumulate words (a + w, b + (a + w))) in *.
    assert (Hm : 2 ^ 32 - 1 = 4294967295) by reflexivity.
    rewrite Hm in *. change (2 ^ 32) with 4294967296 in Hw0.
    destruct IH as [IH1 IH2].
    assert (Hp : w * (n + 1) <= 4294967295 * (n + 1))
      by (apply Z.mul_le_mono_nonneg_r; lia).
    unfold Z.succ. split; [lia|].
    split; [lia|].
    replace (4294967295 * ((n + 1) * (n + 1 + 1)))
      with (4294967295 * (n * (n + 1)) + 2 * (4294967295 * (n + 1))) by ring.
    replace (2 * (n + 1) * a) with (2 * n * a + 2 * a) by ring.
    replace (2 * n * (a + w)) with (2 * n * a + 2 * (w * (n + 1)) - 2 * w) in IH2 by ring.
    lia.
Qed.

Lemma lor_shiftl_bound c2 c1 :
  0 <= c1 < 2 ^ 32 -> 0 <= c2 < 2 ^ 32 ->
  0 <= Z.lor (Z.shiftl c2 32) c1 < 2 ^ 64.
Proof.
  intros H1 H2.
  assert (Hs : 0 <= Z.shiftl c2 32 < 2 ^ 64).
  { rewrite Z.shiftl_mul_pow2 by lia. change (2 ^ 64) with (2 ^ 32 * 2 ^ 32). nia. }
  split; [apply Z.lor_nonneg; lia|].
  destruct (Z.eq_dec (Z.lor (Z.shiftl c2 32) c1) 0) as [->|Hne]; [reflexivity|].
  apply Z.log2_lt_pow2; [assert (0 <= Z.lor (Z.shiftl c2 32) c1) by (apply Z.lor_nonneg; lia); lia|].
  rewrite Z.log2_lor by lia.
  apply Z.max_lub_lt.
  - destruct (Z.eq_dec (Z.shiftl c2 32) 0) as [->|?]; [reflexivity|].
    apply Z.log2_lt_pow2; lia.
  - destruct (Z.eq_dec c1 0) as [->|?]; [reflexivity|].
    apply Z.log2_lt_pow2; [lia|]. assert (2 ^ 32 < 2 ^ 64) by reflexivity. lia.
Qed.

(** Without overflow the code computes the reference checksum. *)
Lemma apfs_fletcher64_no_overflow addr len :
  let words := firstn (Z.to_nat (len / 4)) (le32_array addr) in
  let n := Z.of_nat (length words) in
  n * (n + 3) <= 2 ^ 33 ->
  apfs_fletcher64 addr len
  = (let '(sum1, sum2) := Ref.sums words in
     let c1 := 0xFFFFFFFF - ((sum1 + sum2) mod 0xFFFFFFFF) in
     let c2 := 0xFFFFFFFF - ((sum1 + c1) mod 0xFFFFFFFF) in
     Z.lor (Z.shiftl c2 32) c1).
Proof.
  intros words n Hn. unfold apfs_fletcher64. fold words.
  change (fletcher_loop words 0 0) with (fletcher_loop words (u64 0) (u64 0)).
  rewrite fletcher_loop_wraps. unfold Ref.sums.
  assert (Hw : Forall (fun w => 0 <= w < 2 ^ 32) words).
  { subst words. apply Forall_firstn_of.
    apply (le32_array_words (length addr) addr (Nat.le_refl _)). }
  pose proof (sums_bound words 0 0 Hw ltac:(lia) ltac:(lia)) as Hb.
  cbv zeta in Hb. fold n in Hb.
  destruct (fold_left Ref.accumulate words (0, 0)) as [x y].
  cbn [fst snd] in *. unfold do_div. cbn [snd].
  assert (Hn0 : 0 <= n) by (subst n; lia).
  change (2 ^ 33) with 8589934592 in Hn.
  change (2 ^ 32 - 1) with 4294967295 in Hb.
  assert (Hx : 0 <= x <= n * 4294967295) by lia.
  assert (Hxy : 0 <= x + y <= 4294967295 * 4294967296) by nia.
  assert (Hnn : n <= 4294967296) by nia.
  assert (H64 : 2 ^ 64 = 18446744073709551616) by reflexivity.
  rewrite (u64_small x) by lia.
  rewrite (u64_small y) by nia.
  rewrite (u64_small (x + y)) by lia.
  pose proof (Z.mod_pos_bound (x + y) 4294967295 ltac:(lia)) as Hm1.
  set (c1 := 4294967295 - (x + y) mod 4294967295) in *.
  rewrite (u64_small c1) by lia.
  rewrite (u64_small (x + c1)) by nia.
  pose proof (Z.mod_pos_bound (x + c1) 4294967295 ltac:(lia)) as Hm2.
  set (c2 := 4294967295 - (x + c1) mod 4294967295) in *.
  rewrite (u64_small c2) by lia.
  apply u64_small. apply lor_shiftl_bound; change (2 ^ 32) with 4294967296; lia.
Qed.

(** C4 (as amended).  On a buffer whose length is a multiple of 4 and
    whose number [n] of words satisfies [n * (n + 3) <= 2^33], which holds
    for every block of at most [2^16] bytes, [apfs_fletcher64] is the
    reference checksum: the sums of the little-endian 32-bit words taken
    over the integers, [c1 = 0xFFFFFFFF - ((sum1 + sum2) mod 0xFFFFFFFF)],
    [c2 = 0xFFFFFFFF - ((sum1 + c1) mod 0xFFFFFFFF)] and the result
    [(c2 << 32) | c1].  [apfs_obj_verify_csum] compares that value, taken
    over the bytes of the block after the first 8, with the 64-bit number
    stored in the first 8. *)
Theorem apfs_fletcher64_refines_reference (buf : list byte) :
  Z.of_nat (length buf) mod 4 = 0 ->
  (Z.of_nat (length buf) / 4) * (Z.of_nat (length buf) / 4 + 3) <= 2 ^ 33 ->
  apfs_fletcher64 buf (Z.of_nat (length buf)) = Ref.fletcher64 buf
  /\ forall sb cksum,
       length cksum = 8%nat ->
       s_blocksize sb = 8 + Z.of_nat (length buf) ->
       apfs_obj_verify_csum sb (cksum ++ buf)
       = (le_decode cksum =? Ref.fletcher64 buf).
Proof.
  intros Hmod Hn.
  assert (Hcode : apfs_fletcher64 buf (Z.of_nat (length buf)) = Ref.fletcher64 buf).
  { rewrite apfs_fletcher64_no_overflow.
    - rewrite firstn_le32_array. reflexivity.
    - rewrite firstn_le32_array.
      pose proof (le32_array_length_bound (length buf) buf (Nat.le_refl _)) as Hl.
      set (m := Z.of_nat (length (le32_array buf))).
      set (n := Z.of_nat (length buf) / 4) in *.
      assert (0 <= m) by (subst m; lia).
      assert (m <= n) by (subst m n; apply Z.div_le_lower_bound; lia).
      nia. }
  split; [exact Hcode|].
  intros sb cksum Hck Hbs. unfold apfs_obj_verify_csum, o_cksum, le64_at.
  change (Z.to_nat 0) with 0%nat. cbn [skipn].
  change (Z.to_nat APFS_MAX_CKSUM_SIZE) with 8%nat.
  rewrite <- Hck at 1 2.
  rewrite firstn_app, Nat.sub_diag, firstn_all, firstn_O, app_nil_r.
  rewrite skipn_app, Nat.sub_diag, skipn_all. cbn [skipn app].
  rewrite Hbs. unfold APFS_MAX_CKSUM_SIZE.
  replace (8 + Z.of_nat (length buf) - 8) with (Z.of_nat (length buf)) by lia.
  rewrite Hcode. reflexivity.
Qed.

Lemma apfs_fletcher64_refines_reference_witness :
  apfs_fletcher64 sample_leaf_data (Z.of_nat (length sample_leaf_data))
  = Ref.fletcher64 sample_leaf_data.
Proof.
  apply (apfs_fletcher64_refines_reference sample_leaf_data).
  - reflexivity.
  - vm_compute. discriminate.
Defined.

Lemma le32_array_repeat (b : byte) : forall k : nat,
  le32_array (repeat b (4 * k)) = repeat (le_decode [b; b; b; b]) k.
Proof.
  induction k as [|k IH]; [reflexivity|].
  replace (4 * S k)%nat with (S (S (S (S (4 * k))))) by lia.
  cbn [repeat le32_array]. rewrite IH. reflexivity.
Qed.

Lemma sums_repeat (w : Z) : forall (k : nat) (a b : Z),
  fold_left Ref.accumulate (repeat w k) (a, b)
  = (a + Z.of_nat k * w,
     b + Z.of_nat k * a + w * (Z.of_nat k * (Z.of_nat k + 1) / 2)).
Proof.
  induction k as [|k IH]; intros a b.
  - cbn [repeat fold_left]. change (Z.of_nat 0) with 0. f_equal; cbn; lia.
  - cbn [repeat fold_left].
    change (Ref.accumulate (a, b) w) with (a + w, b + (a + w)).
    rewrite IH, Nat2Z.inj_succ. unfold Z.succ.
    set (n := Z.of_nat k).
    replace ((n + 1) * (n + 1 + 1)) with (n * (n + 1) + (n + 1) * 2) by ring.
    rewrite Z.div_add by lia. f_equal; ring.
Qed.

(** C4, counterexample.  On 92681 words [0xFFFFFFFF] (370724 bytes, a
    multiple of 4) [sum1 + sum2] passes [2^64] and the code returns a value
    that is not the reference checksum. *)
Lemma apfs_fletcher64_long_buffer :
  Z.of_nat (length long_buffer) mod 4 = 0 /\
  apfs_fletcher64 long_buffer (Z.of_nat (length long_buffer))
  <> Ref.fletcher64 long_buffer.
Proof.
  assert (Hlen : Z.of_nat (length long_buffer) = 370724).
  { unfold long_buffer. rewrite repeat_length, Nat2Z.inj_mul, Z2Nat.id by lia.
    reflexivity. }
  rewrite Hlen. split; [reflexivity|].
  unfold apfs_fletcher64, Ref.fletcher64, Ref.sums, long_buffer.
  rewrite le32_array_repeat.
  change (370724 / 4) with 92681.
  rewrite firstn_all2 by (rewrite repeat_length; lia).
  change (fletcher_loop (repeat (le_decode [xff; xff; xff; xff]) (Z.to_nat 92681)) 0 0)
    with (fletcher_loop (repeat (le_decode [xff; xff; xff; xff]) (Z.to_nat 92681))
            (u64 0) (u64 0)).
  rewrite fletcher_loop_wraps, sums_repeat, Z2Nat.id by lia.
  vm_compute. discriminate.
Qed.

(** ** super.c: the container super block *)

Lemma check_main_super_codes sb bh :
  (fst (check_main_super sb bh) = - EINVAL) \/
  (fst (check_main_super sb bh) = 0 /\
   nx_magic (b_data bh) = APFS_NX_MAGIC /\
   apfs_obj_verify_csum sb (b_data bh) = true).
Proof.
  unfold check_main_super. cbn [s_magic set_s_magic].
  destruct (nx_magic (b_data bh) =? APFS_NX_MAGIC) eqn:Hm; cbn [negb]; [|auto].
  change (apfs_obj_verify_csum (set_s_magic sb (nx_magic (b_data bh))) (b_data bh))
    with (apfs_obj_verify_csum sb (b_data bh)).
  destruct (apfs_obj_verify_csum sb (b_data bh)) eqn:Hv; cbn [negb fst]; [|auto].
  right. apply Z.eqb_eq in Hm. auto.
Qed.

(** [apfs_map_main_super] returns 0 or [-EINVAL], and 0 only for a block 0
    with the magic and a checksum that verifies, read at a block size that
    the device accepted. *)
Lemma apfs_map_main_super_codes K sb :
  (fst (apfs_map_main_super K sb) = - EINVAL) \/
  (fst (apfs_map_main_super K sb) = 0 /\
   exists sb0 size r sb' bh,
     sb_set_blocksize K sb0 size = (r, sb') /\ r <> 0 /\
     sb_bread K sb' APFS_NX_BLOCK_NUM = Some bh /\
     nx_magic (b_data bh) = APFS_NX_MAGIC /\
     apfs_obj_verify_csum sb' (b_data bh) = true).
Proof.
  unfold apfs_map_main_super.
  destruct (sb_set_blocksize K sb APFS_NX_DEFAULT_BLOCK_SIZE) as [size sb1] eqn:Hs1.
  destruct (size =? 0) eqn:Hz1; [left; reflexivity|].
  apply Z.eqb_neq in Hz1.
  destruct (sb_bread K sb1 APFS_NX_BLOCK_NUM) as [bh1|] eqn:Hb1; [|left; reflexivity].
  destruct (negb (s_blocksize sb1 =? _)).
  - destruct (sb_set_blocksize K sb1 _) as [size2 sb2] eqn:Hs2.
    destruct (size2 =? 0) eqn:Hz2; [left; reflexivity|].
    apply Z.eqb_neq in Hz2.
    destruct (sb_bread K sb2 APFS_NX_BLOCK_NUM) as [bh2|] eqn:Hb2; [|left; reflexivity].
    destruct (check_main_super_codes sb2 bh2) as [H|(H & Hm & Hv)]; [auto|].
    right. split; [exact H|]. eexists _, _, _, sb2, bh2. eauto.
  - destruct (check_main_super_codes sb1 bh1) as [H|(H & Hm & Hv)]; [auto|].
    right. split; [exact H|]. eexists _, _, _, sb1, bh1. eauto.
Qed.





(** ** super.c: statfs *)

Lemma sum_alloc_nonneg vsbs : 0 <= sum_alloc vsbs.
Proof.
  unfold sum_alloc. induction vsbs as [|v vsbs IH]; cbn [map fold_right]; [lia|].
  pose proof (le64_at_range v 88) as H. fold (apfs_fs_alloc_count v) in H. lia.
Qed.

Section Statfs.

Variable K : kernel.
Variable L : apfs_lib.

(** A loop that finishes has read one volume super block per record. *)
Lemma count_loop_sum sb vtable : forall (n : nat) (i count c' : Z),
  0 <= count < 2 ^ 64 ->
  count_loop K L sb vtable n i count = (0, c') ->
  exists vsbs,
    length vsbs = n /\
    (forall j : nat, (j < n)%nat ->
       referenced_volume K L sb vtable (i + Z.of_nat j) = Some (nth j vsbs [])) /\
    c' = u64 (count + sum_alloc vsbs).
Proof.
  induction n as [|n IH]; intros i count c' Hc H.
  - cbn [count_loop] in H. injection H as <-.
    exists []. split; [reflexivity|]. split; [intros j Hj; lia|].
    unfold sum_alloc. cbn. rewrite Z.add_0_r, u64_small; auto.
  - cbn [count_loop] in H. unfold referenced_volume.
    destruct (apfs_table_locate_data L vtable i) as [len off] eqn:Hloc.
    destruct (len =? 16) eqn:Hlen; cbn [negb] in H; [|discriminate].
    destruct (sb_bread K sb _) as [b|] eqn:Hb; [|discriminate].
    apply IH in H; [|apply u64_range].
    destruct H as (vsbs & Hl & Hv & ->).
    exists (b_data b :: vsbs). split; [cbn; lia|]. split.
    + intros [|j] Hj.
      * rewrite Z.add_0_r, Hloc, Hlen, Hb. reflexivity.
      * replace (i + Z.of_nat (S j)) with (i + 1 + Z.of_nat j) by lia.
        cbn [nth]. apply Hv. lia.
    + unfold sum_alloc. cbn [map fold_right]. fold (sum_alloc vsbs).
      unfold u64. rewrite Zplus_mod_idemp_l. f_equal. lia.
Qed.

(** Every failure inside the loop is [-EIO]. *)
Lemma count_loop_codes sb vtable : forall (n : nat) (i count : Z),
  fst (count_loop K L sb vtable n i count) = 0 \/
  fst (count_loop K L sb vtable n i count) = - EIO.
Proof.
  induction n as [|n IH]; intros i count; [left; reflexivity|].
  cbn [count_loop].
  destruct (apfs_table_locate_data L vtable i) as [len off].
  destruct (len =? 16); cbn [negb]; [|right; reflexivity].
  destruct (sb_bread K sb _); [apply IH|right; reflexivity].
Qed.

(** A record whose value is not 16 bytes long stops the loop. *)
Lemma count_loop_bad_value sb vtable : forall (n : nat) (i count : Z) (j : nat),
  (j < n)%nat ->
  fst (apfs_table_locate_data L vtable (i + Z.of_nat j)) <> 16 ->
  fst (count_loop K L sb vtable n i count) = - EIO.
Proof.
  induction n as [|n IH]; intros i count j Hj Hbad; [lia|].
  cbn [count_loop].
  destruct (apfs_table_locate_data L vtable i) as [len off] eqn:Hloc.
  destruct (len =? 16) eqn:Hlen; cbn [negb]; [|reflexivity].
  destruct (sb_bread K sb _); [|reflexivity].
  destruct j as [|j].
  - rewrite Z.add_0_r, Hloc in Hbad. apply Z.eqb_eq in Hlen. cbn in Hbad. congruence.
  - apply (IH _ _ j); [lia|].
    replace (i + 1 + Z.of_nat j) with (i + Z.of_nat (S j)) by lia. exact Hbad.
Qed.

End Statfs.

(** C6.  A call of [apfs_statfs] that returns 0 has read the container
    object map, its node and one volume super block for each record of the
    node; it reports the block count of the container, the free blocks as
    that count minus the sum of [fs_alloc_count] over those volume super
    blocks, in 64-bit arithmetic and exact when the sum does not exceed the
    count, the same number as available blocks, the four object counts of
    the mounted volume added up as files, 255 as the longest name, and as
    [fsid] the low and the high 32 bits of the XOR of the two halves of the
    volume UUID. *)
Theorem apfs_statfs_fields K L sb buf buf' :
  apfs_statfs K L sb buf = (0, buf') ->
  let msb_raw := s_msb_raw (APFS_SB sb) in
  let vol := s_vsb_raw (APFS_SB sb) in
  let fsid := Z.lxor (le_decode (firstn 8 (apfs_vol_uuid vol)))
                     (le_decode (firstn 8 (skipn 8 (apfs_vol_uuid vol)))) in
  exists omap vtable vsbs,
    sb_bread K sb (nx_omap_oid msb_raw) = Some omap /\
    apfs_read_table L sb (om_tree_oid (b_data omap)) = Ptr vtable /\
    length vsbs = Z.to_nat (t_records vtable) /\
    (forall j : nat, (j < length vsbs)%nat ->
       referenced_volume K L sb vtable (Z.of_nat j) = Some (nth j vsbs [])) /\
    f_blocks buf' = nx_block_count msb_raw /\
    f_bfree buf' = u64 (nx_block_count msb_raw - u64 (sum_alloc vsbs)) /\
    (sum_alloc vsbs <= nx_block_count msb_raw ->
     f_bfree buf' = nx_block_count msb_raw - sum_alloc vsbs) /\
    f_bavail buf' = f_bfree buf' /\
    f_files buf'
    = u64 (apfs_num_files vol + apfs_num_directories vol
           + apfs_num_symlinks vol + apfs_num_other_fsobjects vol) /\
    f_namelen buf' = 255 /\
    f_fsid buf' = (Z.land fsid 0xFFFFFFFF, Z.land (Z.shiftr fsid 32) 0xFFFFFFFF).
Proof.
  intros H msb_raw vol fsid. unfold apfs_statfs in H.
  fold msb_raw vol in H.
  destruct (apfs_count_used_blocks K L sb 0) as [err used] eqn:Hc.
  destruct (err =? 0) eqn:He; cbn [negb] in H;
    [|injection H as -> _; discriminate He].
  apply Z.eqb_eq in He. subst err.
  apply (f_equal snd) in H. cbn [snd] in H. subst buf'.
  unfold apfs_count_used_blocks in Hc. fold msb_raw in Hc.
  destruct (sb_bread K sb (nx_omap_oid msb_raw)) as [omap|] eqn:Hb; [|discriminate].
  destruct (apfs_read_table L sb _) as [vtable|e] eqn:Ht; [|discriminate].
  apply count_loop_sum in Hc; [|lia].
  destruct Hc as (vsbs & Hl & Hv & ->).
  exists omap, vtable, vsbs.
  cbn [f_blocks f_bfree f_bavail f_files f_namelen f_fsid set_f_type set_f_bsize
       set_f_blocks set_f_bfree set_f_bavail set_f_files set_f_namelen set_f_fsid].
  rewrite Z.add_0_l in *.
  split; [reflexivity|]. split; [exact Ht|]. split; [exact Hl|].
  split. { intros j Hj. rewrite <- (Z.add_0_l (Z.of_nat j)). apply Hv. lia. }
  split; [reflexivity|]. split; [reflexivity|].
  split.
  { intros Hle. pose proof (sum_alloc_nonneg vsbs) as Hs.
    pose proof (le64_at_range msb_raw 40) as Hn. fold (nx_block_count msb_raw) in Hn.
    rewrite (u64_small (sum_alloc vsbs)) by lia. apply u64_small. lia. }
  split; [reflexivity|].
  split.
  { unfold u64. rewrite Zplus_mod_idemp_l.
    rewrite <- (Z.add_assoc (_ mod _)), Zplus_mod_idemp_l, Z.add_assoc.
    reflexivity. }
  split; reflexivity.
Qed.

Lemma apfs_statfs_fields_witness :
  let buf' := mk_kstatfs APFS_SUPER_MAGIC 4096 10000 6500 6500 16 0
                         (0x50607080, 0x10203040) 255 in
  apfs_statfs (kernel_on sample_disk) sample_lib mounted_sb blank_statfs
  = (0, buf')
  /\ f_bavail buf' = f_bfree buf' /\ f_namelen buf' = 255.
Proof.
  intros buf'.
  assert (Hr : apfs_statfs (kernel_on sample_disk) sample_lib mounted_sb blank_statfs
               = (0, buf'))
    by (vm_compute; reflexivity).
  split; [exact Hr|].
  destruct (apfs_statfs_fields _ _ _ _ _ Hr)
    as (omap & vtable & vsbs & _ & _ & _ & _ & _ & _ & _ & Hav & _ & Hn & _).
  split; [exact Hav|exact Hn].
Defined.

(** C7 (as amended).  A record of the container object map whose value is
    not 16 bytes long makes [apfs_count_used_blocks], and with it
    [apfs_statfs], fail with [-EIO].  The call has then written the type,
    the block size and the block count only: the free and the available
    blocks, the files, the name length and the fsid of the caller's structure
    are as they were. *)
Theorem apfs_statfs_bad_omap_value K L sb buf omap vtable i :
  sb_bread K sb (nx_omap_oid (s_msb_raw (APFS_SB sb))) = Some omap ->
  apfs_read_table L sb (om_tree_oid (b_data omap)) = Ptr vtable ->
  0 <= i < t_records vtable ->
  fst (apfs_table_locate_data L vtable i) <> 16 ->
  apfs_statfs K L sb buf
  = (- EIO,
     set_f_blocks (set_f_bsize (set_f_type buf APFS_SUPER_MAGIC) (s_blocksize sb))
                  (nx_block_count (s_msb_raw (APFS_SB sb)))).
Proof.
  intros Hb Ht Hi Hbad. unfold apfs_statfs, apfs_count_used_blocks.
  rewrite Hb, Ht.
  pose proof (count_loop_bad_value K L sb vtable (Z.to_nat (t_records vtable))
                0 0 (Z.to_nat i)) as H.
  rewrite Z.add_0_l, Z2Nat.id in H by lia.
  specialize (H ltac:(lia) Hbad).
  destruct (count_loop K L sb vtable _ 0 0) as [err used].
  cbn [fst] in H. subst err. reflexivity.
Qed.

Lemma apfs_statfs_bad_omap_value_witness :
  apfs_statfs (kernel_on sample_disk) short_value_lib mounted_sb blank_statfs
  = (- EIO, mk_kstatfs APFS_SUPER_MAGIC 4096 10000 0 0 0 0 (0, 0) 0).
Proof.
  apply (apfs_statfs_bad_omap_value (kernel_on sample_disk) short_value_lib
           mounted_sb blank_statfs (mk_bh (omap_block 51) 4096 50 true)
           sample_vtable 1).
  - vm_compute; reflexivity.
  - vm_compute; reflexivity.
  - vm_compute. split; [discriminate|reflexivity].
  - vm_compute. discriminate.
Defined.

(** C7, counterexample.  The second record of the container object map has
    a value of 8 bytes: [apfs_statfs] returns [-EIO], not [-EFSCORRUPTED]. *)
Lemma apfs_statfs_short_value_eio :
  fst (apfs_table_locate_data short_value_lib sample_vtable 1) <> 16 /\
  fst (apfs_statfs (kernel_on sample_disk) short_value_lib mounted_sb blank_statfs)
  = - EIO /\
  fst (apfs_statfs (kernel_on sample_disk) short_value_lib mounted_sb blank_statfs)
  <> - EFSCORRUPTED.
Proof. concrete. Qed.

(** ** super.c: the mount options *)

Section Options.

Variable K : kernel.

Lemma parse_segments_skip_empty : forall segs sbi,
  parse_segments K sbi segs
  = parse_segments K sbi (filter nonempty segs).
Proof.
  induction segs as [|p segs IH]; intros sbi; [reflexivity|].
  cbn [parse_segments filter]. unfold nonempty at 1.
  destruct (p =? "")%string eqn:Hp; cbn [negb]; [apply IH|].
  cbn [parse_segments]. rewrite Hp.
  destruct (match_token K p tokens) as [[] args];
    try destruct (match_int K _) as [err v];
    try destruct (negb (err =? 0)); try reflexivity;
    try destruct (negb (uid_valid _)); try destruct (negb (gid_valid _));
    try reflexivity; apply IH.
Qed.

Lemma parse_segments_app : forall pre rest sbi sbi1,
  parse_segments K sbi pre = (0, sbi1) ->
  parse_segments K sbi (pre ++ rest) = parse_segments K sbi1 rest.
Proof.
  induction pre as [|p pre IH]; intros rest sbi sbi1 H.
  - cbn in H. injection H as <-. reflexivity.
  - cbn [app parse_segments] in *.
    destruct (p =? "")%string; [apply IH; exact H|].
    destruct (match_token K p tokens) as [[] args].
    + destruct (match_int K _) as [err v].
      destruct (negb (err =? 0)) eqn:He.
      { injection H as -> _. discriminate He. }
      destruct (negb (uid_valid _)); [discriminate H|]. apply IH; exact H.
    + destruct (match_int K _) as [err v].
      destruct (negb (err =? 0)) eqn:He.
      { injection H as -> _. discriminate He. }
      destruct (negb (gid_valid _)); [discriminate H|]. apply IH; exact H.
    + destruct (match_int K _) as [err v].
      destruct (negb (err =? 0)) eqn:He.
      { injection H as -> _. discriminate He. }
      apply IH; exact H.
    + discriminate H.
Qed.

(** The first segment that is not empty and not a well-formed option
    decides the return code. *)
Lemma parse_segments_offender p post sbi :
  p <> EmptyString ->
  (fst (match_token K p tokens) = Opt_err ->
   fst (parse_segments K sbi (p :: post)) = - EINVAL)
  /\ (fst (match_token K p tokens) <> Opt_err ->
      fst (match_int K (args0 K p)) <> 0 ->
      fst (parse_segments K sbi (p :: post)) = fst (match_int K (args0 K p))).
Proof.
  intros Hp. cbn [parse_segments]. unfold args0.
  destruct (p =? "")%string eqn:He; [apply String.eqb_eq in He; contradiction|].
  destruct (match_token K p tokens) as [tok args]. cbn [fst snd].
  split.
  - intros ->. reflexivity.
  - intros Htok Herr.
    destruct tok; try contradiction;
      destruct (match_int K _) as [err v]; cbn [fst] in *;
      apply Z.eqb_neq in Herr; rewrite Herr; reflexivity.
Qed.

(** A [uid=] or [gid=] segment whose number is accepted and whose id is
    not valid ends the loop with [-EINVAL]. *)
Lemma parse_segments_invalid p post sbi v :
  p <> EmptyString ->
  match_int K (args0 K p) = (0, v) ->
  (fst (match_token K p tokens) = Opt_uid /\ uid_valid (make_kuid K v) = false) \/
  (fst (match_token K p tokens) = Opt_gid /\ gid_valid (make_kgid K v) = false) ->
  fst (parse_segments K sbi (p :: post)) = - EINVAL.
Proof.
  intros Hp Hint Hbad. cbn [parse_segments]. unfold args0 in Hint.
  destruct (p =? "")%string eqn:He; [apply String.eqb_eq in He; contradiction|].
  destruct (match_token K p tokens) as [tok args]. cbn [fst snd] in *.
  destruct Hbad as [[-> Hv]|[-> Hv]]; rewrite Hint; cbn [Z.eqb negb];
    cbn [s_uid set_s_uid s_gid set_s_gid]; rewrite Hv; reflexivity.
Qed.

(** A successful parse leaves the volume number alone or sets it from a
    [vol=] segment. *)
Lemma parse_segments_vol : forall segs sbi sbi',
  parse_segments K sbi segs = (0, sbi') ->
  s_vol_nr sbi' = s_vol_nr sbi \/
  exists p, In p segs /\ fst (match_token K p tokens) = Opt_vol /\
            match_int K (args0 K p) = (0, s_vol_nr sbi').
Proof.
  unfold args0.
  induction segs as [|p segs IH]; intros sbi sbi' H.
  - cbn in H. injection H as <-. left; reflexivity.
  - cbn [parse_segments] in H.
    assert (Hlater : forall sbi1,
              s_vol_nr sbi1 = s_vol_nr sbi ->
              parse_segments K sbi1 segs = (0, sbi') ->
              s_vol_nr sbi' = s_vol_nr sbi \/
              exists q, In q (p :: segs) /\ fst (match_token K q tokens) = Opt_vol /\
                match_int K (nth 0 (snd (match_token K q tokens)) EmptyString)
                = (0, s_vol_nr sbi')).
    { intros sbi1 Hv H1. apply IH in H1. destruct H1 as [H1|(q & Hq & H1)].
      - left. congruence.
      - right. exists q. split; [right; exact Hq|exact H1]. }
    destruct (p =? "")%string; [apply (Hlater sbi); auto|].
    destruct (match_token K p tokens) as [tok args] eqn:Htok.
    destruct tok.
    + destruct (match_int K _) as [err v].
      destruct (negb (err =? 0)) eqn:He; [injection H as -> _; discriminate He|].
      destruct (negb (uid_valid _)); [discriminate H|].
      eapply Hlater; [|exact H]. reflexivity.
    + destruct (match_int K _) as [err v].
      destruct (negb (err =? 0)) eqn:He; [injection H as -> _; discriminate He|].
      destruct (negb (gid_valid _)); [discriminate H|].
      eapply Hlater; [|exact H]. reflexivity.
    + destruct (match_int K (nth 0 args EmptyString)) as [err v] eqn:Hint.
      destruct (negb (err =? 0)) eqn:He; [injection H as -> _; discriminate He|].
      apply negb_false_iff, Z.eqb_eq in He. subst err.
      apply IH in H. destruct H as [H|(q & Hq & H)].
      * right. exists p. split; [left; reflexivity|]. rewrite Htok. cbn [fst snd].
        split; [reflexivity|]. rewrite Hint, H. reflexivity.
      * right. exists q. split; [right; exact Hq|exact H].
    + discriminate H.
Qed.

End Options.

(** C9 (as amended).  For every option string and whatever the parser of
    the kernel answers: the empty segments between commas are skipped; the
    first segment that is not empty and that [match_token] does not
    recognise, an unknown key or a value that is not a number, makes
    [parse_options] return [-EINVAL]; a recognised segment whose number
    [match_int] refuses makes it return the error code of [match_int],
    whatever that code is; a [uid=] or [gid=] segment whose number is
    accepted and whose id [make_kuid] or [make_kgid] cannot map makes it
    return [-EINVAL]; and after a successful call the volume number is 0
    unless a [vol=] segment set it.  Without an option string the call
    succeeds with volume 0. *)
Theorem parse_options_segments K sb s :
  let sbi0 := set_s_flags (set_vol_nr (APFS_SB sb) 0) 0 in
  parse_options K sb (Some s)
  = (let '(err, sbi) :=
       parse_segments K sbi0 (filter nonempty (segments s)) in
     (err, set_s_fs_info sb (Some sbi)))
  /\ (forall pre p post sbi1,
        segments s = pre ++ p :: post ->
        parse_segments K sbi0 pre = (0, sbi1) ->
        p <> EmptyString ->
        (fst (match_token K p tokens) = Opt_err ->
         fst (parse_options K sb (Some s)) = - EINVAL)
        /\ (fst (match_token K p tokens) <> Opt_err ->
            fst (match_int K (args0 K p)) <> 0 ->
            fst (parse_options K sb (Some s)) = fst (match_int K (args0 K p)))
        /\ (forall v,
              match_int K (args0 K p) = (0, v) ->
              (fst (match_token K p tokens) = Opt_uid /\
               uid_valid (make_kuid K v) = false) \/
              (fst (match_token K p tokens) = Opt_gid /\
               gid_valid (make_kgid K v) = false) ->
              fst (parse_options K sb (Some s)) = - EINVAL))
  /\ (forall sb',
        parse_options K sb (Some s) = (0, sb') ->
        s_vol_nr (APFS_SB sb') = 0 \/
        exists p, In p (segments s) /\ fst (match_token K p tokens) = Opt_vol /\
                  match_int K (args0 K p) = (0, s_vol_nr (APFS_SB sb')))
  /\ (fst (parse_options K sb None) = 0 /\
      s_vol_nr (APFS_SB (snd (parse_options K sb None))) = 0).
Proof.
  intros sbi0. unfold parse_options. fold sbi0.
  split; [rewrite <- parse_segments_skip_empty; reflexivity|].
  split; [|split; [|split; reflexivity]].
  - intros pre p post sbi1 Hseg Hpre Hp. rewrite Hseg.
    rewrite (parse_segments_app K pre (p :: post) sbi0 sbi1 Hpre).
    destruct (parse_segments_offender K p post sbi1 Hp) as [H1 H2].
    pose proof (parse_segments_invalid K p post sbi1) as H3.
    destruct (parse_segments K sbi1 (p :: post)) as [err sbi2]. cbn [fst] in *.
    split; [assumption|]. split; [assumption|].
    intros v Hint Hbad. exact (H3 v Hp Hint Hbad).
  - intros sb' H.
    destruct (parse_segments K sbi0 (segments s)) as [err sbi'] eqn:Hps.
    injection H as -> <-. cbn [APFS_SB s_fs_info set_s_fs_info].
    apply parse_segments_vol in Hps. exact Hps.
Qed.

Lemma parse_options_segments_witness :
  segments "uid=1000,,bogus=1,vol=2"%string
  = ["uid=1000"%string; ""%string] ++ "bogus=1"%string :: ["vol=2"%string]
  /\ fst (parse_options (kernel_on []) mounted_sb
            (Some "uid=1000,,bogus=1,vol=2"%string))
     = - EINVAL.
Proof.
  split; [reflexivity|].
  destruct (parse_options_segments (kernel_on []) mounted_sb
              "uid=1000,,bogus=1,vol=2"%string) as (_ & H & _).
  refine (proj1 (H ["uid=1000"%string; ""%string] "bogus=1"%string
                   ["vol=2"%string] _ _ _ _) _).
  - reflexivity.
  - vm_compute. reflexivity.
  - discriminate.
  - vm_compute. reflexivity.
Defined.

(** C9, counterexample.  With the option parser of the kernel the segment
    [vol=99999999999], whose number is not a 32-bit integer, makes
    [parse_options] return [-ERANGE], not [-EINVAL]; so does the same
    segment in front of a segment with an unknown key.  Not every number
    beyond the 32-bit integers is refused: [vol=18446744073709551615] wraps
    to -1 in [simple_strtoul] and [match_int] accepts it, so the call
    returns 0. *)
Lemma parse_options_out_of_range :
  fst (parse_options (kernel_on []) mounted_sb (Some "vol=99999999999"%string))
  = - ERANGE /\
  fst (parse_options (kernel_on []) mounted_sb
         (Some "vol=99999999999,bogus=1"%string))
  = - ERANGE /\
  - ERANGE <> - EINVAL /\
  fst (parse_options (kernel_on []) mounted_sb
         (Some "vol=18446744073709551615"%string)) = 0 /\
  s_vol_nr (APFS_SB (snd (parse_options (kernel_on []) mounted_sb
                            (Some "vol=18446744073709551615"%string)))) = -1.
Proof. concrete. Qed.

(** * Further properties *)

(** ** extents.c *)

(** After a successful call the inode caches the extent it returned. *)
Lemma extent_read_installs engine km ino iblock ext0 E ino' :
  apfs_extent_read engine km ino iblock ext0 = (0, E, ino') ->
  i_cached_extent ino' = E /\ i_blkbits ino' = i_blkbits ino /\
  i_sb ino' = i_sb ino /\ (inode_ok ino -> extent_u64 E).
Proof.
  intros H. apply apfs_extent_read_cases in H.
  destruct H as [(_ & _ & -> & ->)|[(_ & Hr & _)|(_ & q0 & q & _ & _ & _ & _ & _ & _ & -> & ->)]].
  - split; [reflexivity|]. split; [reflexivity|]. split; [reflexivity|].
    intros (Hu & _). exact Hu.
  - congruence.
  - split; [reflexivity|]. split; [reflexivity|]. split; [reflexivity|].
    intros _. apply extent_of_u64.
Qed.

(** X1.  Once [apfs_extent_read] has returned an extent, a read of any
    block whose address passes the cache test against that extent returns
    the same extent and leaves the inode alone, whatever the B-tree and the
    allocator would do: neither is consulted. *)
Theorem apfs_extent_read_served_from_cache
    (engine engine2 : super_block -> apfs_query -> Z * apfs_query)
    km km2 ino iblock iblock2 ext0 ext2 E ino' :
  apfs_extent_read engine km ino iblock ext0 = (0, E, ino') ->
  cache_covers E (iaddr_of ino iblock2) = true ->
  apfs_extent_read engine2 km2 ino' iblock2 ext2 = (0, E, ino').
Proof.
  intros H Hc. apply extent_read_installs in H.
  destruct H as (Hcache & Hbits & _).
  unfold apfs_extent_read. unfold iaddr_of in *.
  rewrite Hcache, Hbits, Hc. reflexivity.
Qed.

Lemma apfs_extent_read_served_from_cache_witness :
  apfs_extent_read (fun sb q => (- EIO, q)) kmem_exhausted
    (set_cached_extent sample_inode sample_extent) 2 (mk_extent 0 0 0)
  = (0, sample_extent, set_cached_extent sample_inode sample_extent).
Proof.
  apply (apfs_extent_read_served_from_cache sample_engine (fun sb q => (- EIO, q))
           kmem_ok kmem_exhausted sample_inode 0 2 (mk_extent 0 0 0)
           (mk_extent 0 0 0) sample_extent
           (set_cached_extent sample_inode sample_extent)).
  - vm_compute; reflexivity.
  - vm_compute; reflexivity.
Defined.

(** X2.  The cache that [init_once] leaves is empty: no address passes the
    cache test, so the first read of a new inode goes to the allocator and
    the catalog; when the key cannot be allocated it fails with [-ENOMEM]
    and changes nothing. *)
Theorem init_once_cache_is_empty
    (engine : super_block -> apfs_query -> Z * apfs_query)
    km ino iblock ext0 :
  0 <= logical_addr (i_cached_extent ino) < 2 ^ 64 ->
  (forall iaddr, cache_covers (i_cached_extent (init_once ino)) iaddr = false)
  /\ (kmalloc_ok km = false ->
      apfs_extent_read engine km (init_once ino) iblock ext0
      = (- ENOMEM, ext0, init_once ino)).
Proof.
  intros Hla.
  assert (Hmiss : forall iaddr,
            cache_covers (i_cached_extent (init_once ino)) iaddr = false).
  { intros iaddr. unfold cache_covers, init_once.
    cbn [set_cached_extent i_cached_extent logical_addr len].
    rewrite Z.add_0_r, u64_small by assumption.
    destruct (logical_addr (i_cached_extent ino) <=? iaddr) eqn:H1; [|reflexivity].
    apply Z.leb_le in H1. cbn [andb]. apply Z.ltb_ge. exact H1. }
  split; [exact Hmiss|].
  intros Hk. unfold apfs_extent_read. rewrite Hmiss, Hk. reflexivity.
Qed.

Lemma init_once_cache_is_empty_witness :
  apfs_extent_read sample_engine kmem_exhausted
    (init_once (set_cached_extent sample_inode sample_extent)) 0 (mk_extent 1 2 3)
  = (- ENOMEM, mk_extent 1 2 3,
     init_once (set_cached_extent sample_inode sample_extent)).
Proof.
  apply (init_once_cache_is_empty sample_engine kmem_exhausted
           (set_cached_extent sample_inode sample_extent) 0 (mk_extent 1 2 3)).
  - vm_compute. split; [discriminate|reflexivity].
  - reflexivity.
Defined.

(** X3.  [apfs_get_block] never maps more than it was asked for and never
    touches the data of the buffer head; when it fails, the buffer head and
    the inode are as they were. *)
Theorem apfs_get_block_never_grows
    (engine : super_block -> apfs_query -> Z * apfs_query)
    km ino iblock bh_result create ext ret bh' ino' :
  apfs_get_block engine km ino iblock bh_result create ext = (ret, bh', ino') ->
  b_size bh' <= b_size bh_result /\ b_data bh' = b_data bh_result
  /\ (ret <> 0 -> bh' = bh_result /\ ino' = ino).
Proof.
  unfold apfs_get_block.
  destruct (apfs_extent_read engine km ino iblock ext) as [[r e] i1] eqn:Hr.
  destruct (r =? 0) eqn:Hz; cbn [negb].
  - intros [= <- <- <-]. split; [|split; [|congruence]].
    + destruct (b_size bh_result >? _) eqn:Hgt;
        destruct (negb (phys_block_num e =? 0)); cbn [set_b_size map_bh b_size];
        try lia; apply Z.gtb_lt in Hgt; lia.
    + destruct (b_size bh_result >? _);
        destruct (negb (phys_block_num e =? 0)); reflexivity.
  - intros [= <- <- <-]. apply Z.eqb_neq in Hz.
    apply apfs_extent_read_cases in Hr.
    destruct Hr as [(_ & -> & _)|[(_ & _ & _ & ->)|(_ & q0 & q & _ & _ & _ & _ & _ & -> & _)]];
      try congruence.
    split; [lia|]. split; [reflexivity|]. auto.
Qed.

Lemma apfs_get_block_never_grows_witness :
  apfs_get_block sample_engine kmem_ok sample_inode 2 (mk_bh [] 65536 0 false) 0
                 (mk_extent 0 0 0)
  = (0, mk_bh [] 4096 502 true, set_cached_extent sample_inode sample_extent)
  /\ 4096 <= 65536.
Proof.
  assert (Hr : apfs_get_block sample_engine kmem_ok sample_inode 2
                 (mk_bh [] 65536 0 false) 0 (mk_extent 0 0 0)
               = (0, mk_bh [] 4096 502 true,
                  set_cached_extent sample_inode sample_extent))
    by (vm_compute; reflexivity).
  split; [exact Hr|].
  exact (proj1 (apfs_get_block_never_grows _ _ _ _ _ _ _ _ _ _ Hr)).
Defined.

(** X4.  When the extent [E] that [apfs_extent_read] returns covers the
    byte address of block [iblock] and starts on a block boundary,
    [apfs_get_block] succeeds; the mapped size is the requested size cut at
    the end of the extent, and is positive when the requested size is; a
    hole ([phys_block_num = 0]) leaves the buffer head unmapped, and any
    other extent maps block [phys_block_num + (iblock - logical_addr /
    block_size)]. *)
Theorem apfs_get_block_maps_within_extent
    (engine : super_block -> apfs_query -> Z * apfs_query)
    km ino iblock bh_result create ext E ino' :
  inode_ok ino -> 0 <= iblock ->
  apfs_extent_read engine km ino iblock ext = (0, E, ino') ->
  logical_addr E <= iblock * s_blocksize (i_sb ino) < logical_addr E + len E ->
  logical_addr E mod s_blocksize (i_sb ino) = 0 ->
  exists bh',
    apfs_get_block engine km ino iblock bh_result create ext = (0, bh', ino') /\
    b_size bh'
    = Z.min (b_size bh_result)
            (logical_addr E + len E - iblock * s_blocksize (i_sb ino)) /\
    (0 < b_size bh_result -> 0 < b_size bh') /\
    (phys_block_num E = 0 ->
     b_mapped bh' = b_mapped bh_result /\ b_blocknr bh' = b_blocknr bh_result) /\
    (phys_block_num E <> 0 ->
     b_mapped bh' = true /\
     b_blocknr bh'
     = u64 (phys_block_num E
            + (iblock - logical_addr E / s_blocksize (i_sb ino)))).
Proof.
  intros Hok Hi Hr Hcov Hal.
  destruct (extent_read_installs _ _ _ _ _ _ _ Hr) as (_ & _ & _ & Hu).
  specialize (Hu Hok). destruct Hu as (Hla & _ & Hlen).
  destruct Hok as (_ & Hb & Hbs).
  unfold apfs_get_block. rewrite Hr. cbn [Z.eqb negb].
  set (bs := s_blocksize (i_sb ino)) in *.
  assert (Hbs0 : 0 < bs) by (rewrite Hbs; apply Z.pow_pos_nonneg; lia).
  rewrite Z.shiftr_div_pow2 by lia. rewrite <- Hbs.
  set (d := logical_addr E / bs).
  assert (Hd : logical_addr E = bs * d).
  { subst d. apply Z_div_exact_full_2; [lia|exact Hal]. }
  assert (Hd0 : 0 <= d) by (subst d; apply Z.div_pos; lia).
  assert (Hdi : d <= iblock) by nia.
  assert (Hoff : (iblock - d) * bs = iblock * bs - logical_addr E) by lia.
  assert (Hsmall : 0 <= iblock - d < 2 ^ 64) by nia.
  rewrite (u64_small (iblock - d)) by exact Hsmall.
  rewrite Z.shiftl_mul_pow2 by lia. rewrite <- Hbs, Hoff.
  rewrite (u64_small (iblock * bs - logical_addr E)) by lia.
  replace (len E - (iblock * bs - logical_addr E))
    with (logical_addr E + len E - iblock * bs) by lia.
  rewrite (u64_small (logical_addr E + len E - iblock * bs)) by lia.
  set (map_len := logical_addr E + len E - iblock * bs) in *.
  eexists. split; [reflexivity|].
  destruct (b_size bh_result >? map_len) eqn:Hgt;
    [apply Z.gtb_lt in Hgt|rewrite Z.gtb_ltb in Hgt; apply Z.ltb_ge in Hgt];
    (split; [cbn [set_b_size b_size]; lia|]);
    (split; [cbn [set_b_size b_size]; lia|]);
    (split; [intros Hp; rewrite Hp; cbn [Z.eqb negb]; split; reflexivity|]);
    (intros Hp; apply Z.eqb_neq in Hp; rewrite Hp; cbn [negb];
     split; reflexivity).
Qed.

Lemma apfs_get_block_maps_within_extent_witness :
  exists bh',
    apfs_get_block sample_engine kmem_ok sample_inode 1 (mk_bh [] 65536 0 false) 0
                   (mk_extent 0 0 0)
    = (0, bh', set_cached_extent sample_inode sample_extent)
    /\ b_size bh' = 8192 /\ b_blocknr bh' = 501.
Proof.
  destruct (apfs_get_block_maps_within_extent sample_engine kmem_ok sample_inode 1
              (mk_bh [] 65536 0 false) 0 (mk_extent 0 0 0) sample_extent
              (set_cached_extent sample_inode sample_extent))
    as (bh' & Hg & Hs & _ & _ & Hm).
  - concrete.
  - lia.
  - vm_compute; reflexivity.
  - vm_compute. split; [discriminate|reflexivity].
  - reflexivity.
  - exists bh'. split; [exact Hg|]. split; [exact Hs|].
    apply Hm. discriminate.
Defined.

(** ** super.c: more on the checksum *)

Lemma lor_shiftl_add c2 c1 :
  0 <= c1 < 2 ^ 32 -> Z.lor (Z.shiftl c2 32) c1 = c2 * 2 ^ 32 + c1.
Proof.
  intros H1.
  assert (Hl : Z.land (Z.shiftl c2 32) c1 = 0).
  { apply Z.bits_inj'. intros n Hn. rewrite Z.land_spec, Z.bits_0.
    destruct (Z_lt_dec n 32) as [Hlt|Hge].
    - rewrite Z.shiftl_spec_low by assumption. reflexivity.
    - rewrite <- (Z.mod_small c1 (2 ^ 32)) by assumption.
      rewrite Z.mod_pow2_bits_high by lia. apply andb_false_r. }
  pose proof (Z.add_lor_land (Z.shiftl c2 32) c1) as H.
  rewrite Hl, Z.add_0_r in H. rewrite H. rewrite Z.shiftl_mul_pow2 by lia.
  reflexivity.
Qed.

(** The two halves of the checksum, whatever the buffer. *)
Lemma apfs_fletcher64_shape addr len :
  exists c1 c2,
    1 <= c1 <= 0xFFFFFFFF /\ 1 <= c2 <= 0xFFFFFFFF /\
    apfs_fletcher64 addr len = c2 * 2 ^ 32 + c1.
Proof.
  unfold apfs_fletcher64.
  destruct (fletcher_loop _ 0 0) as [sum1 sum2].
  unfold do_div. cbn [snd].
  assert (Hhalf : forall x, 1 <= u64 (4294967295 - u64 x mod 4294967295) <= 4294967295).
  { intros x. pose proof (Z.mod_pos_bound (u64 x) 4294967295 ltac:(lia)).
    rewrite u64_small; [lia|].
    assert (2 ^ 64 = 18446744073709551616) by reflexivity. lia. }
  pose proof (Hhalf (sum1 + sum2)) as H1.
  set (c1 := u64 (4294967295 - u64 (sum1 + sum2) mod 4294967295)) in *.
  pose proof (Hhalf (sum1 + c1)) as H2.
  set (c2 := u64 (4294967295 - u64 (sum1 + c1) mod 4294967295)) in *.
  exists c1, c2. split; [exact H1|]. split; [exact H2|].
  assert (H32 : 2 ^ 32 = 4294967296) by reflexivity.
  rewrite lor_shiftl_add by lia.
  apply u64_small.
  assert (2 ^ 64 = 4294967296 * 4294967296) by reflexivity. nia.
Qed.

(** X5.  Both 32-bit halves of a checksum computed by [apfs_fletcher64] lie
    between 1 and [0xFFFFFFFF], for every buffer and length; so a block whose
    stored checksum has a zero half, an all-zero header in particular, never
    passes [apfs_obj_verify_csum]. *)
Theorem apfs_fletcher64_halves_nonzero addr len :
  1 <= apfs_fletcher64 addr len mod 2 ^ 32 <= 0xFFFFFFFF
  /\ 1 <= apfs_fletcher64 addr len / 2 ^ 32 <= 0xFFFFFFFF
  /\ (forall sb obj,
        o_cksum obj mod 2 ^ 32 = 0 \/ o_cksum obj / 2 ^ 32 = 0 ->
        apfs_obj_verify_csum sb obj = false).
Proof.
  assert (Hsplit : forall a l,
            1 <= apfs_fletcher64 a l mod 2 ^ 32 <= 0xFFFFFFFF
            /\ 1 <= apfs_fletcher64 a l / 2 ^ 32 <= 0xFFFFFFFF).
  { intros a l. destruct (apfs_fletcher64_shape a l) as (c1 & c2 & H1 & H2 & ->).
    assert (H32 : 2 ^ 32 = 4294967296) by reflexivity.
    rewrite Z.add_comm, Z.mod_add, Z.div_add by lia.
    rewrite Z.mod_small, Z.div_small by lia. lia. }
  split; [apply Hsplit|]. split; [apply Hsplit|].
  intros sb obj Hz. unfold apfs_obj_verify_csum. apply Z.eqb_neq. intros He.
  destruct (Hsplit (skipn (Z.to_nat APFS_MAX_CKSUM_SIZE) obj)
                   (s_blocksize sb - APFS_MAX_CKSUM_SIZE)) as [H1 H2].
  rewrite <- He in H1, H2. destruct Hz as [Hz|Hz]; rewrite Hz in *; lia.
Qed.

Lemma apfs_fletcher64_halves_nonzero_witness :
  apfs_obj_verify_csum sample_sb (repeat x00 4096) = false.
Proof.
  apply (apfs_fletcher64_halves_nonzero [] 0). left. reflexivity.
Defined.

Lemma firstn_le32_array_prefix : forall (n : nat) (addr : list byte),
  firstn n (le32_array addr) = le32_array (firstn (4 * n) addr).
Proof.
  induction n as [|n IH]; intros addr; [reflexivity|].
  replace (4 * S n)%nat with (S (S (S (S (4 * n))))) by lia.
  destruct addr as [|b0 [|b1 [|b2 [|b3 rest]]]]; try reflexivity.
  cbn [le32_array firstn]. rewrite IH. reflexivity.
Qed.

(** X6.  [apfs_fletcher64] reads the first [len / 4] words of the buffer
    and nothing else: two buffers that agree on their first [4 * (len / 4)]
    bytes have the same checksum for the length [len]. *)
Theorem apfs_fletcher64_reads_len_only (a b : list byte) (len : Z) :
  firstn (4 * Z.to_nat (len / 4)) a = firstn (4 * Z.to_nat (len / 4)) b ->
  apfs_fletcher64 a len = apfs_fletcher64 b len.
Proof.
  intros H. unfold apfs_fletcher64.
  rewrite !firstn_le32_array_prefix, H. reflexivity.
Qed.

Lemma apfs_fletcher64_reads_len_only_witness :
  apfs_fletcher64 (sample_leaf_data ++ [x01; x02; x03]) 40
  = apfs_fletcher64 (sample_leaf_data ++ [xff; xff; xff; xff; xff]) 40.
Proof.
  apply apfs_fletcher64_reads_len_only. reflexivity.
Defined.

Lemma le32_array_app : forall (n : nat) (a b : list byte),
  length a = (4 * n)%nat -> le32_array (a ++ b) = le32_array a ++ le32_array b.
Proof.
  induction n as [|n IH]; intros a b Hl.
  - destruct a; [reflexivity|discriminate Hl].
  - destruct a as [|b0 [|b1 [|b2 [|b3 rest]]]]; cbn [length] in Hl; try lia.
    cbn [app le32_array]. rewrite (IH rest b) by lia. reflexivity.
Qed.

(** The sums of the words after a change of the starting values. *)
Lemma sums_shift : forall words a b da db,
  fold_left Ref.accumulate words (a + da, b + db)
  = (fst (fold_left Ref.accumulate words (a, b)) + da,
     snd (fold_left Ref.accumulate words (a, b)) + db
     + Z.of_nat (length words) * da).
Proof.
  induction words as [|w words IH]; intros a b da db.
  - cbn. f_equal; lia.
  - cbn [fold_left length].
    change (Ref.accumulate (a + da, b + db) w)
      with (a + da + w, b + db + (a + da + w)).
    change (Ref.accumulate (a, b) w) with (a + w, b + (a + w)).
    replace (a + da + w) with ((a + w) + da) by lia.
    replace (b + db + (a + w + da)) with ((b + (a + w)) + (db + da)) by lia.
    rewrite IH. rewrite Nat2Z.inj_succ. f_equal; lia.
Qed.

(** Within the bound the checksum is made of the two sums modulo
    [0xFFFFFFFF]. *)
Lemma apfs_fletcher64_of_sums (buf : list byte) :
  (Z.of_nat (length buf) / 4) * (Z.of_nat (length buf) / 4 + 3) <= 2 ^ 33 ->
  let x := fst (Ref.sums (le32_array buf)) in
  let y := snd (Ref.sums (le32_array buf)) in
  let c1 := 0xFFFFFFFF - (x + y) mod 0xFFFFFFFF in
  let c2 := 0xFFFFFFFF - (x + c1) mod 0xFFFFFFFF in
  apfs_fletcher64 buf (Z.of_nat (length buf)) = c2 * 2 ^ 32 + c1.
Proof.
  intros Hn x y c1 c2.
  rewrite apfs_fletcher64_no_overflow.
  - rewrite firstn_le32_array.
    destruct (Ref.sums (le32_array buf)) as [x0 y0] eqn:Hs.
    subst x y. cbn [fst snd] in *.
    pose proof (Z.mod_pos_bound (x0 + y0) 4294967295 ltac:(lia)).
    rewrite lor_shiftl_add; [reflexivity|].
    fold c1. subst c1. change (2 ^ 32) with 4294967296. lia.
  - rewrite firstn_le32_array.
    pose proof (le32_array_length_bound (length buf) buf (Nat.le_refl _)) as Hl.
    set (m := Z.of_nat (length (le32_array buf))).
    set (n := Z.of_nat (length buf) / 4) in *.
    assert (0 <= m) by (subst m; lia).
    assert (m <= n) by (subst m n; apply Z.div_le_lower_bound; lia).
    nia.
Qed.

(** X7.  Within the bound of the checksum (at most 92680 words), two
    buffers have the same checksum exactly when their two sums agree modulo
    [0xFFFFFFFF]. *)
Theorem apfs_fletcher64_equal_iff (a b : list byte) :
  (Z.of_nat (length a) / 4) * (Z.of_nat (length a) / 4 + 3) <= 2 ^ 33 ->
  (Z.of_nat (length b) / 4) * (Z.of_nat (length b) / 4 + 3) <= 2 ^ 33 ->
  apfs_fletcher64 a (Z.of_nat (length a)) = apfs_fletcher64 b (Z.of_nat (length b))
  <-> (fst (Ref.sums (le32_array a)) mod 0xFFFFFFFF
       = fst (Ref.sums (le32_array b)) mod 0xFFFFFFFF
       /\ snd (Ref.sums (le32_array a)) mod 0xFFFFFFFF
          = snd (Ref.sums (le32_array b)) mod 0xFFFFFFFF).
Proof.
  intros Ha Hb.
  rewrite (apfs_fletcher64_of_sums a Ha), (apfs_fletcher64_of_sums b Hb).
  cbv zeta.
  set (x := fst (Ref.sums (le32_array a))). set (y := snd (Ref.sums (le32_array a))).
  set (x' := fst (Ref.sums (le32_array b))). set (y' := snd (Ref.sums (le32_array b))).
  assert (HM : 0 < 4294967295) by lia.
  pose proof (Z.mod_pos_bound (x + y) 4294967295 HM) as B1.
  pose proof (Z.mod_pos_bound (x' + y') 4294967295 HM) as B1'.
  set (c1 := 4294967295 - (x + y) mod 4294967295) in *.
  set (c1' := 4294967295 - (x' + y') mod 4294967295) in *.
  pose proof (Z.mod_pos_bound (x + c1) 4294967295 HM) as B2.
  pose proof (Z.mod_pos_bound (x' + c1') 4294967295 HM) as B2'.
  change (2 ^ 32) with 4294967296.
  split.
  - intros He.
    assert (Hc1 : c1 = c1') by lia.
    assert (Hc2 : (x + c1) mod 4294967295 = (x' + c1') mod 4294967295) by lia.
    rewrite <- Hc1 in Hc2.
    assert (Hx : x mod 4294967295 = x' mod 4294967295).
    { apply Z.cong_iff_0. apply Z.cong_iff_0 in Hc2.
      replace (x - x') with (x + c1 - (x' + c1)) by lia. exact Hc2. }
    split; [exact Hx|].
    assert (Hxy : (x + y) mod 4294967295 = (x' + y') mod 4294967295)
      by (subst c1 c1'; lia).
    apply Z.cong_iff_0. apply Z.cong_iff_0 in Hxy, Hx.
    replace (y - y') with ((x + y - (x' + y')) - (x - x')) by lia.
    rewrite Zminus_mod, Hxy, Hx. reflexivity.
  - intros [Hx Hy].
    assert (Hxy : (x + y) mod 4294967295 = (x' + y') mod 4294967295).
    { rewrite (Zplus_mod x), (Zplus_mod x'), Hx, Hy. reflexivity. }
    assert (Hc1 : c1 = c1') by (subst c1 c1'; lia).
    assert (Hc2 : (x + c1) mod 4294967295 = (x' + c1') mod 4294967295).
    { rewrite <- Hc1. rewrite (Zplus_mod x), (Zplus_mod x'), Hx. reflexivity. }
    lia.
Qed.

Lemma apfs_fletcher64_equal_iff_witness :
  apfs_fletcher64 (le_encode 4 0) 4 = apfs_fletcher64 (le_encode 4 0xFFFFFFFF) 4.
Proof.
  apply (apfs_fletcher64_equal_iff (le_encode 4 0) (le_encode 4 0xFFFFFFFF)).
  - vm_compute. discriminate.
  - vm_compute. discriminate.
  - vm_compute. split; reflexivity.
Defined.

Lemma le32_array_word (w post : list byte) :
  length w = 4%nat -> le32_array (w ++ post) = le_decode w :: le32_array post.
Proof.
  intros Hl. destruct w as [|b0 [|b1 [|b2 [|b3 [|b4 rest]]]]]; try discriminate Hl.
  reflexivity.
Qed.

(** The sums after the change of one word. *)
Lemma sums_word_change (pre w w' post : list byte) (k : nat) :
  length pre = (4 * k)%nat -> length w = 4%nat -> length w' = 4%nat ->
  let d := le_decode w' - le_decode w in
  fst (Ref.sums (le32_array (pre ++ w' ++ post)))
  = fst (Ref.sums (le32_array (pre ++ w ++ post))) + d
  /\ snd (Ref.sums (le32_array (pre ++ w' ++ post)))
     = snd (Ref.sums (le32_array (pre ++ w ++ post)))
       + (Z.of_nat (length (le32_array post)) + 1) * d.
Proof.
  intros Hpre Hw Hw' d. unfold Ref.sums.
  rewrite (le32_array_app k pre (w ++ post) Hpre).
  rewrite (le32_array_app k pre (w' ++ post) Hpre).
  rewrite (le32_array_word w post Hw), (le32_array_word w' post Hw').
  rewrite !fold_left_app. cbn [fold_left].
  destruct (fold_left Ref.accumulate (le32_array pre) (0, 0)) as [a1 b1].
  change (Ref.accumulate (a1, b1) (le_decode w))
    with (a1 + le_decode w, b1 + (a1 + le_decode w)).
  change (Ref.accumulate (a1, b1) (le_decode w'))
    with (a1 + le_decode w', b1 + (a1 + le_decode w')).
  pose proof (sums_shift (le32_array post) (a1 + le_decode w)
                (b1 + (a1 + le_decode w)) d d) as Hs.
  replace (a1 + le_decode w + d) with (a1 + le_decode w') in Hs by (subst d; lia).
  replace (b1 + (a1 + le_decode w) + d) with (b1 + (a1 + le_decode w')) in Hs
    by (subst d; lia).
  rewrite Hs. cbn [fst snd]. split; lia.
Qed.

(** X8.  Within the bound of the checksum, changing one aligned 32-bit
    word of a buffer changes the checksum, unless the word goes from 0 to
    [0xFFFFFFFF] or back, the two values that are equal modulo
    [0xFFFFFFFF]. *)
Theorem apfs_fletcher64_detects_word (pre w w' post : list byte) (k : nat) :
  length pre = (4 * k)%nat -> length w = 4%nat -> length w' = 4%nat ->
  (Z.of_nat (length (pre ++ w ++ post)) / 4)
  * (Z.of_nat (length (pre ++ w ++ post)) / 4 + 3) <= 2 ^ 33 ->
  le_decode w <> le_decode w' ->
  ~ (le_decode w = 0 /\ le_decode w' = 0xFFFFFFFF) ->
  ~ (le_decode w = 0xFFFFFFFF /\ le_decode w' = 0) ->
  apfs_fletcher64 (pre ++ w ++ post) (Z.of_nat (length (pre ++ w ++ post)))
  <> apfs_fletcher64 (pre ++ w' ++ post) (Z.of_nat (length (pre ++ w' ++ post))).
Proof.
  intros Hpre Hw Hw' Hn Hne H0 H1 He.
  assert (Hlen : length (pre ++ w' ++ post) = length (pre ++ w ++ post))
    by (rewrite !length_app; lia).
  assert (Hn' := Hn). rewrite <- Hlen in Hn'.
  rewrite (apfs_fletcher64_of_sums _ Hn), (apfs_fletcher64_of_sums _ Hn') in He.
  cbv zeta in He.
  destruct (sums_word_change pre w w' post k Hpre Hw Hw') as [Hx Hy].
  rewrite Hx, Hy in He.
  set (x := fst (Ref.sums (le32_array (pre ++ w ++ post)))) in *.
  set (y := snd (Ref.sums (le32_array (pre ++ w ++ post)))) in *.
  set (n := Z.of_nat (length (le32_array post))) in *.
  set (v := le_decode w) in *. set (v' := le_decode w') in *.
  set (d := v' - v) in *.
  assert (HM : 0 < 4294967295) by lia.
  pose proof (Z.mod_pos_bound (x + y) 4294967295 HM) as B1.
  pose proof (Z.mod_pos_bound (x + d + (y + (n + 1) * d)) 4294967295 HM) as B1'.
  set (c1 := 4294967295 - (x + y) mod 4294967295) in *.
  set (c1' := 4294967295 - (x + d + (y + (n + 1) * d)) mod 4294967295) in *.
  pose proof (Z.mod_pos_bound (x + c1) 4294967295 HM) as B2.
  pose proof (Z.mod_pos_bound (x + d + c1') 4294967295 HM) as B2'.
  change (2 ^ 32) with 4294967296 in He.
  assert (Hc1 : c1 = c1') by lia.
  assert (Hc2 : (x + c1) mod 4294967295 = (x + d + c1') mod 4294967295) by lia.
  rewrite <- Hc1 in Hc2. symmetry in Hc2.
  apply Z.cong_iff_ex in Hc2. destruct Hc2 as [m Hm].
  assert (Hd : d = m * 4294967295) by lia.
  pose proof (le_decode_range w) as Rv. pose proof (le_decode_range w') as Rv'.
  rewrite Hw in Rv. rewrite Hw' in Rv'.
  change (256 ^ Z.of_nat 4) with 4294967296 in Rv, Rv'.
  fold v in Rv. fold v' in Rv'.
  assert (Hm1 : m = 1 \/ m = -1 \/ m = 0) by (subst d; nia).
  destruct Hm1 as [->|[->| ->]].
  - apply H0. subst d. lia.
  - apply H1. subst d. lia.
  - apply Hne. subst d. lia.
Qed.

Lemma apfs_fletcher64_detects_word_witness :
  apfs_fletcher64 (le_encode 8 1 ++ le_encode 4 10000 ++ le_encode 4 7) 16
  <> apfs_fletcher64 (le_encode 8 1 ++ le_encode 4 10001 ++ le_encode 4 7) 16.
Proof.
  apply (apfs_fletcher64_detects_word (le_encode 8 1) (le_encode 4 10000)
           (le_encode 4 10001) (le_encode 4 7) 2).
  - reflexivity.
  - reflexivity.
  - reflexivity.
  - vm_compute. discriminate.
  - vm_compute. discriminate.
  - vm_compute. intros [H _]. discriminate H.
  - vm_compute. intros [H _]. discriminate H.
Defined.

(** ** super.c: more on mounting *)

Lemma check_main_super_success sb bh sb' :
  check_main_super sb bh = (0, sb') ->
  nx_magic (b_data bh) = APFS_NX_MAGIC /\
  apfs_obj_verify_csum sb (b_data bh) = true /\
  sb' = set_s_fs_info (set_s_magic sb APFS_NX_MAGIC)
          (Some (set_main_super (APFS_SB sb) (b_data bh)
                   (mk_node APFS_NX_BLOCK_NUM (o_oid (b_data bh)) bh))).
Proof.
  unfold check_main_super. cbn [s_magic set_s_magic].
  destruct (nx_magic (b_data bh) =? APFS_NX_MAGIC) eqn:Hm; cbn [negb];
    [|discriminate].
  apply Z.eqb_eq in Hm.
  change (apfs_obj_verify_csum (set_s_magic sb (nx_magic (b_data bh))) (b_data bh))
    with (apfs_obj_verify_csum sb (b_data bh)).
  destruct (apfs_obj_verify_csum sb (b_data bh)) eqn:Hv; cbn [negb];
    [|discriminate].
  intros [= <-]. rewrite Hm. auto.
Qed.

(** The state after a successful [apfs_map_main_super]. *)
Lemma map_main_super_ok K sb sb' :
  apfs_map_main_super K sb = (0, sb') ->
  exists sb1 bh,
    sb_bread K sb1 APFS_NX_BLOCK_NUM = Some bh /\
    s_blocksize sb' = s_blocksize sb1 /\
    nx_magic (b_data bh) = APFS_NX_MAGIC /\
    s_magic sb' = APFS_NX_MAGIC /\
    apfs_obj_verify_csum sb' (b_data bh) = true /\
    s_msb_raw (APFS_SB sb') = b_data bh /\
    s_mnode (APFS_SB sb')
    = mk_node APFS_NX_BLOCK_NUM (o_oid (b_data bh)) bh.
Proof.
  unfold apfs_map_main_super.
  destruct (sb_set_blocksize K sb APFS_NX_DEFAULT_BLOCK_SIZE) as [size sb1].
  destruct (size =? 0); [discriminate|].
  destruct (sb_bread K sb1 APFS_NX_BLOCK_NUM) as [bh1|] eqn:Hb1; [|discriminate].
  assert (Hfin : forall sbx bhx,
            sb_bread K sbx APFS_NX_BLOCK_NUM = Some bhx ->
            check_main_super sbx bhx = (0, sb') ->
            exists sb1 bh,
              sb_bread K sb1 APFS_NX_BLOCK_NUM = Some bh /\
              s_blocksize sb' = s_blocksize sb1 /\
              nx_magic (b_data bh) = APFS_NX_MAGIC /\
              s_magic sb' = APFS_NX_MAGIC /\
              apfs_obj_verify_csum sb' (b_data bh) = true /\
              s_msb_raw (APFS_SB sb') = b_data bh /\
              s_mnode (APFS_SB sb')
              = mk_node APFS_NX_BLOCK_NUM (o_oid (b_data bh)) bh).
  { intros sbx bhx Hb Hc. apply check_main_super_success in Hc.
    destruct Hc as (Hm & Hv & ->). exists sbx, bhx.
    repeat (split; [first [assumption|reflexivity]|]). reflexivity. }
  destruct (negb (s_blocksize sb1 =? _)).
  - destruct (sb_set_blocksize K sb1 _) as [size2 sb2].
    destruct (size2 =? 0); [discriminate|].
    destruct (sb_bread K sb2 APFS_NX_BLOCK_NUM) as [bh2|] eqn:Hb2; [|discriminate].
    apply Hfin. exact Hb2.
  - apply Hfin. exact Hb1.
Qed.

(** X9.  [apfs_map_main_super] returns 0 or [-EINVAL].  When it returns 0,
    the mount state holds a block 0 that the device returned, whose magic is
    [NXSB] and whose checksum verifies at the block size of the super block;
    [s_magic] is that magic and the node of the container super block is
    block 0 with the object id of the block. *)
Theorem apfs_map_main_super_success K sb :
  (fst (apfs_map_main_super K sb) = 0 \/ fst (apfs_map_main_super K sb) = - EINVAL)
  /\ (forall sb',
        apfs_map_main_super K sb = (0, sb') ->
        exists sb1 bh,
          sb_bread K sb1 APFS_NX_BLOCK_NUM = Some bh /\
          s_blocksize sb' = s_blocksize sb1 /\
          nx_magic (b_data bh) = APFS_NX_MAGIC /\
          s_magic sb' = APFS_NX_MAGIC /\
          apfs_obj_verify_csum sb' (b_data bh) = true /\
          s_msb_raw (APFS_SB sb') = b_data bh /\
          s_mnode (APFS_SB sb')
          = mk_node APFS_NX_BLOCK_NUM (o_oid (b_data bh)) bh).
Proof.
  split.
  - destruct (apfs_map_main_super_codes K sb) as [H|[H _]]; auto.
  - intros sb'. apply map_main_super_ok.
Qed.

Lemma apfs_map_main_super_success_witness :
  exists sb',
    apfs_map_main_super (kernel_on sample_disk) blank_sb = (0, sb') /\
    s_magic sb' = APFS_NX_MAGIC /\
    s_msb_raw (APFS_SB sb') = good_container.
Proof.
  destruct (apfs_map_main_super (kernel_on sample_disk) blank_sb) as [err sb'] eqn:Hm.
  assert (He : err = 0) by (apply (f_equal fst) in Hm; vm_compute in Hm; congruence).
  subst err. exists sb'. split; [reflexivity|].
  destruct (proj2 (apfs_map_main_super_success (kernel_on sample_disk) blank_sb)
              sb' Hm) as (sb1 & bh & Hb & _ & _ & Hmag & _ & Hraw & _).
  split; [exact Hmag|]. rewrite Hraw.
  cbn [kernel_on sb_bread] in Hb. unfold disk_bread in Hb.
  cbn [sample_disk disk_block] in Hb. change (0 =? APFS_NX_BLOCK_NUM) with true in Hb.
  cbv iota in Hb. injection Hb as <-. reflexivity.
Defined.

(** Frames: what the steps after the container leave alone. *)
Lemma parse_segments_frame K : forall segs sbi,
  let sbi' := snd (parse_segments K sbi segs) in
  s_msb_raw sbi' = s_msb_raw sbi /\ s_mnode sbi' = s_mnode sbi /\
  s_vsb_raw sbi' = s_vsb_raw sbi /\ s_vnode sbi' = s_vnode sbi /\
  s_omap_root sbi' = s_omap_root sbi /\ s_cat_root sbi' = s_cat_root sbi /\
  s_nodesize sbi' = s_nodesize sbi /\ s_nodesize_bits sbi' = s_nodesize_bits sbi.
Proof.
  induction segs as [|p segs IH]; intros sbi; cbv zeta.
  - cbn. repeat split.
  - cbn [parse_segments].
    destruct (p =? "")%string; [apply IH|].
    destruct (match_token K p tokens) as [[] args].
    + destruct (match_int K _) as [err v].
      destruct (negb (err =? 0)); [cbn; repeat split|].
      destruct (negb (uid_valid _)); [cbn; repeat split|].
      specialize (IH (set_s_flags (set_s_uid sbi (make_kuid K v))
                        (Z.lor (s_flags (set_s_uid sbi (make_kuid K v)))
                               APFS_UID_OVERRIDE))).
      exact IH.
    + destruct (match_int K _) as [err v].
      destruct (negb (err =? 0)); [cbn; repeat split|].
      destruct (negb (gid_valid _)); [cbn; repeat split|].
      specialize (IH (set_s_flags (set_s_gid sbi (make_kgid K v))
                        (Z.lor (s_flags (set_s_gid sbi (make_kgid K v)))
                               APFS_GID_OVERRIDE))).
      exact IH.
    + destruct (match_int K _) as [err v].
      destruct (negb (err =? 0)); [cbn; repeat split|].
      specialize (IH (set_vol_nr sbi v)). exact IH.
    + cbn. repeat split.
Qed.

Lemma parse_options_frame K sb data :
  container_part (snd (parse_options K sb data)) = container_part sb
  /\ volume_part (snd (parse_options K sb data)) = volume_part sb
  /\ s_fs_info (snd (parse_options K sb data)) <> None.
Proof.
  unfold parse_options.
  destruct data as [s|].
  - pose proof (parse_segments_frame K (segments s)
                  (set_s_flags (set_vol_nr (APFS_SB sb) 0) 0)) as H.
    cbv zeta in H.
    destruct (parse_segments K _ (segments s)) as [err sbi'].
    cbn [snd] in *. destruct H as (H1 & H2 & H3 & H4 & _ & _ & H7 & H8).
    unfold container_part, volume_part.
    cbn [APFS_SB s_fs_info set_s_fs_info s_blocksize s_blocksize_bits s_magic sb_flags].
    cbn [set_s_flags set_vol_nr s_msb_raw s_mnode s_vsb_raw s_vnode s_nodesize
         s_nodesize_bits] in *.
    rewrite H1, H2, H3, H4, H7, H8. split; [reflexivity|]. split; [reflexivity|].
    discriminate.
  - cbn [snd]. split; [reflexivity|]. split; [reflexivity|]. discriminate.
Qed.

Section MountSteps.

Variable K : kernel.
Variable L : apfs_lib.

Lemma apfs_map_volume_super_frame sb r :
  apfs_map_volume_super K L sb = Some r ->
  container_part (snd r) = container_part sb.
Proof.
  unfold apfs_map_volume_super.
  destruct (vol_nr_out_of_range sb); [intros [= <-]; reflexivity|].
  destruct (negb (vol_slot_in_block sb)); [discriminate|].
  destruct (nx_fs_oid _ _ =? 0); [intros [= <-]; reflexivity|].
  destruct (sb_bread K sb (nx_omap_oid _)); [|intros [= <-]; reflexivity].
  destruct (apfs_read_table L sb _); [|intros [= <-]; reflexivity].
  destruct (apfs_omap_lookup_block L sb _ _) as [err vsb].
  destruct (negb (err =? 0)); [intros [= <-]; reflexivity|].
  destruct (sb_bread K sb vsb); [|intros [= <-]; reflexivity].
  destruct (negb (apfs_magic _ =? APFS_MAGIC)); intros [= <-]; reflexivity.
Qed.

Lemma apfs_map_volume_super_ok sb sb' :
  apfs_map_volume_super K L sb = Some (0, sb') ->
  vol_nr_out_of_range sb = false /\
  vol_slot_in_block sb = true /\
  apfs_magic (s_vsb_raw (APFS_SB sb')) = APFS_MAGIC /\
  nx_fs_oid (s_msb_raw (APFS_SB sb)) (vol_nr_of (APFS_SB sb)) <> 0 /\
  s_fs_info sb' <> None.
Proof.
  unfold apfs_map_volume_super.
  destruct (vol_nr_out_of_range sb); [discriminate|].
  destruct (vol_slot_in_block sb); cbn [negb]; [|discriminate].
  destruct (nx_fs_oid _ _ =? 0) eqn:Hv; [discriminate|].
  apply Z.eqb_neq in Hv.
  destruct (sb_bread K sb (nx_omap_oid _)); [|discriminate].
  destruct (apfs_read_table L sb _); [|discriminate].
  destruct (apfs_omap_lookup_block L sb _ _) as [err vsb].
  destruct (negb (err =? 0)) eqn:He; [intros [= -> _]; discriminate He|].
  destruct (sb_bread K sb vsb) as [vbh|]; [|discriminate].
  destruct (apfs_magic (b_data vbh) =? APFS_MAGIC) eqn:Hm; cbn [negb]; [|discriminate].
  apply Z.eqb_eq in Hm. intros [= <-].
  split; [reflexivity|]. split; [reflexivity|].
  split; [exact Hm|]. split; [exact Hv|]. discriminate.
Qed.

(** The call has no defined result exactly when the range test passes and
    the slot lies outside the block. *)
Lemma apfs_map_volume_super_undefined sb :
  apfs_map_volume_super K L sb = None <->
  vol_nr_out_of_range sb = false /\ vol_slot_in_block sb = false.
Proof.
  unfold apfs_map_volume_super.
  destruct (vol_nr_out_of_range sb).
  { split; [discriminate|]. intros [H _]. discriminate H. }
  destruct (vol_slot_in_block sb); cbn [negb].
  2:{ split; auto. }
  split; [|intros [_ H]; discriminate H].
  destruct (nx_fs_oid _ _ =? 0); [discriminate|].
  destruct (sb_bread K sb (nx_omap_oid _)); [|discriminate].
  destruct (apfs_read_table L sb _); [|discriminate].
  destruct (apfs_omap_lookup_block L sb _ _) as [err vsb].
  destruct (negb (err =? 0)); [discriminate|].
  destruct (sb_bread K sb vsb); [|discriminate].
  destruct (negb (apfs_magic _ =? APFS_MAGIC)); discriminate.
Qed.

Lemma apfs_read_omap_frame sb :
  container_part (snd (apfs_read_omap K L sb)) = container_part sb
  /\ volume_part (snd (apfs_read_omap K L sb)) = volume_part sb.
Proof.
  unfold apfs_read_omap.
  destruct (sb_bread K sb _); [|split; reflexivity].
  destruct (apfs_read_table L sb _); split; reflexivity.
Qed.

Lemma apfs_read_catalog_frame sb :
  container_part (snd (apfs_read_catalog L sb)) = container_part sb
  /\ volume_part (snd (apfs_read_catalog L sb)) = volume_part sb
  /\ (fst (apfs_read_catalog L sb) = 0 ->
      s_fs_info (snd (apfs_read_catalog L sb)) <> None).
Proof.
  unfold apfs_read_catalog.
  destruct (apfs_omap_read_table L sb _).
  - split; [reflexivity|]. split; [reflexivity|]. intros _. discriminate.
  - split; [reflexivity|]. split; [reflexivity|]. discriminate.
Qed.

Lemma apfs_map_main_super_flags sb :
  set_blocksize_keeps_flags K ->
  sb_flags (snd (apfs_map_main_super K sb)) = sb_flags sb.
Proof.
  intros Hk. unfold apfs_map_main_super.
  pose proof (Hk sb APFS_NX_DEFAULT_BLOCK_SIZE) as H1.
  destruct (sb_set_blocksize K sb APFS_NX_DEFAULT_BLOCK_SIZE) as [size sb1].
  cbn [snd] in H1.
  assert (Hc : forall sbx bhx, sb_flags (snd (check_main_super sbx bhx)) = sb_flags sbx).
  { intros sbx bhx. unfold check_main_super.
    destruct (negb (s_magic _ =? APFS_NX_MAGIC)); [reflexivity|].
    destruct (negb (apfs_obj_verify_csum _ _)); reflexivity. }
  destruct (size =? 0); [exact H1|].
  destruct (sb_bread K sb1 APFS_NX_BLOCK_NUM) as [bh1|]; [|exact H1].
  destruct (negb (s_blocksize sb1 =? _)).
  - pose proof (Hk sb1 (int_of_u32 (nx_block_size (b_data bh1)))) as H2.
    destruct (sb_set_blocksize K sb1 _) as [size2 sb2]. cbn [snd] in H2.
    destruct (size2 =? 0); [cbn [snd]; congruence|].
    destruct (sb_bread K sb2 APFS_NX_BLOCK_NUM) as [bh2|]; [|cbn [snd]; congruence].
    rewrite Hc. congruence.
  - rewrite Hc. exact H1.
Qed.

End MountSteps.

(** Below 2^29 - 1 the product of the range test does not wrap: the test is
    the one over the integers, and a slot that passes it lies inside the
    block. *)
Lemma vol_range_exact sb :
  0 <= s_vol_nr (APFS_SB sb) < 2 ^ 29 - 1 ->
  vol_nr_of (APFS_SB sb) = s_vol_nr (APFS_SB sb) /\
  vol_nr_out_of_range sb
  = (s_blocksize sb <=? sizeof_nx_superblock + 8 * (s_vol_nr (APFS_SB sb) + 1)) /\
  (vol_nr_out_of_range sb = false -> vol_slot_in_block sb = true).
Proof.
  intros Hb.
  assert (H29 : 2 ^ 29 - 1 = 536870911) by reflexivity.
  assert (H32 : 2 ^ 32 = 4294967296) by reflexivity.
  assert (H64 : 2 ^ 64 = 18446744073709551616) by reflexivity.
  assert (Hv : vol_nr_of (APFS_SB sb) = s_vol_nr (APFS_SB sb)).
  { unfold vol_nr_of, u32. apply Z.mod_small. lia. }
  assert (Ht : vol_nr_out_of_range sb
               = (s_blocksize sb
                  <=? sizeof_nx_superblock + 8 * (s_vol_nr (APFS_SB sb) + 1))).
  { unfold vol_nr_out_of_range. rewrite Hv. unfold u32, u64, sizeof_nx_superblock.
    rewrite (Z.mod_small (s_vol_nr (APFS_SB sb) + 1)) by lia.
    rewrite (Z.mod_small (8 * (s_vol_nr (APFS_SB sb) + 1))) by lia.
    rewrite Z.mod_small by lia. reflexivity. }
  split; [exact Hv|]. split; [exact Ht|].
  rewrite Ht. unfold vol_slot_in_block. rewrite Hv.
  intros Hr. apply Z.leb_gt in Hr. apply Z.leb_le.
  unfold sizeof_nx_superblock in *. lia.
Qed.

(** Without an option string the volume number is 0, which is below the
    bound. *)
Lemma parse_options_none_vol K sb :
  parse_options K sb None
  = (0, set_s_fs_info sb (Some (set_s_flags (set_vol_nr (APFS_SB sb) 0) 0))).
Proof. reflexivity. Qed.

Lemma verify_csum_blocksize sb1 sb2 obj :
  s_blocksize sb1 = s_blocksize sb2 ->
  apfs_obj_verify_csum sb1 obj = apfs_obj_verify_csum sb2 obj.
Proof. intros H. unfold apfs_obj_verify_csum. rewrite H. reflexivity. Qed.

(** An exit of [apfs_fill_super] through [failed_main_super]. *)
Ltac failed_exit :=
  intros [= <- <-]; split; [intros _; reflexivity|intros ?; exfalso; congruence].

(** X10.  When the mount state could be allocated and the call has a
    defined result, a failed [apfs_fill_super] leaves [s_fs_info] cleared,
    and a successful one leaves a mount state and a root,
    [s_maxbytes = MAX_LFS_FILESIZE], a container super block with the magic
    [NXSB] whose checksum verifies, a volume super block with the magic
    [APSB], and a node size equal to the block size.  The call has a
    defined result unless the volume number passes the range test of
    [apfs_map_volume_super] with a slot outside block 0; it has one for every
    mount without an option string. *)
Theorem apfs_fill_super_outcome K L sb data silent :
  (forall err sb',
     apfs_fill_super K L true sb data silent = Some (err, sb') ->
     (err <> 0 -> s_fs_info sb' = None)
     /\ (err = 0 ->
         s_fs_info sb' <> None /\ s_root sb' <> None /\
         s_maxbytes sb' = MAX_LFS_FILESIZE /\
         s_magic sb' = APFS_NX_MAGIC /\
         nx_magic (s_msb_raw (APFS_SB sb')) = APFS_NX_MAGIC /\
         apfs_obj_verify_csum sb' (s_msb_raw (APFS_SB sb')) = true /\
         apfs_magic (s_vsb_raw (APFS_SB sb')) = APFS_MAGIC /\
         s_nodesize (APFS_SB sb') = s_blocksize sb'))
  /\ (apfs_fill_super K L true sb data silent = None ->
      exists s sb1,
        data = Some s /\ fst (parse_options K sb1 data) = 0 /\
        vol_nr_out_of_range (snd (parse_options K sb1 data)) = false /\
        vol_slot_in_block (snd (parse_options K sb1 data)) = false /\
        2 ^ 29 - 1 <= vol_nr_of (APFS_SB (snd (parse_options K sb1 data)))).
Proof.
  split.
  { intros err sb'.
  unfold apfs_fill_super. cbn [negb]. cbv zeta.
  set (sb1 := set_s_fs_info _ (Some sbi_zero)).
  destruct (apfs_map_main_super K sb1) as [e1 sb2] eqn:H1.
  destruct (e1 =? 0) eqn:E1; cbn [negb];
    [apply Z.eqb_eq in E1; subst e1|apply Z.eqb_neq in E1; failed_exit].
  set (sb3 := set_s_fs_info sb2 _).
  pose proof (parse_options_frame K sb3 data) as (F2 & V2 & _).
  destruct (parse_options K sb3 data) as [e2 sb4] eqn:H2. cbn [snd] in F2, V2.
  destruct (e2 =? 0) eqn:E2; cbn [negb];
    [apply Z.eqb_eq in E2; subst e2|apply Z.eqb_neq in E2; failed_exit].
  destruct (apfs_map_volume_super K L sb4) as [[e3 sb5]|] eqn:H3; [|discriminate].
  pose proof (apfs_map_volume_super_frame K L sb4 _ H3) as F3. cbn [snd] in F3.
  destruct (e3 =? 0) eqn:E3; cbn [negb];
    [apply Z.eqb_eq in E3; subst e3|apply Z.eqb_neq in E3; failed_exit].
  pose proof (apfs_read_omap_frame K L sb5) as (F4 & V4).
  destruct (apfs_read_omap K L sb5) as [e4 sb6] eqn:H4. cbn [snd] in F4, V4.
  destruct (e4 =? 0) eqn:E4; cbn [negb];
    [apply Z.eqb_eq in E4; subst e4|apply Z.eqb_neq in E4; failed_exit].
  pose proof (apfs_read_catalog_frame L sb6) as (F5 & V5 & I5).
  destruct (apfs_read_catalog L sb6) as [e5 sb7] eqn:H5. cbn [fst snd] in F5, V5, I5.
  destruct (e5 =? 0) eqn:E5; cbn [negb];
    [apply Z.eqb_eq in E5; subst e5|apply Z.eqb_neq in E5; failed_exit].
  destruct (apfs_iget L _ APFS_ROOT_DIR_INO_NUM) as [root|errno].
  2:{ intros [= <- <-]. split; [intros _; reflexivity|].
      unfold PTR_ERR. intros He0. exfalso. lia. }
  cbn [s_root set_s_root].
  destruct (d_make_root K root) as [dentry|].
  2:{ intros [= <- <-]. split; [intros _; reflexivity|]. discriminate. }
  intros [= <- <-]. split; [congruence|]. intros _.
  apply map_main_super_ok in H1.
  destruct H1 as (sbx & bhx & _ & _ & Hm & Hsm & Hv & Hraw & _).
  apply apfs_map_volume_super_ok in H3. destruct H3 as (_ & _ & Hvm & _ & _).
  assert (Fall : container_part sb7 = container_part sb3) by congruence.
  assert (Vall : volume_part sb7 = volume_part sb5) by congruence.
  unfold container_part in Fall. unfold volume_part in Vall.
  injection Fall as Fbs _ Fmag _ Fraw _ Fns _.
  injection Vall as Vraw _.
  subst sb3. cbn [s_magic s_blocksize set_s_fs_info APFS_SB s_fs_info s_msb_raw
                  set_nodesize s_nodesize] in Fbs, Fmag, Fraw, Fns.
  change (match s_fs_info sb2 with Some sbi => sbi | None => sbi_zero end)
    with (APFS_SB sb2) in Fraw.
  set (sb9 := set_s_root (set_s_maxbytes sb7 MAX_LFS_FILESIZE) (Some dentry)).
  change (APFS_SB sb9) with (APFS_SB sb7).
  change (s_blocksize sb9) with (s_blocksize sb7).
  split; [apply I5; reflexivity|]. split; [discriminate|].
  split; [reflexivity|].
  split; [change (s_magic sb9) with (s_magic sb7); congruence|].
  split; [congruence|].
  split.
  { rewrite Fraw, Hraw. rewrite <- Hv. apply verify_csum_blocksize. exact Fbs. }
  split; [congruence|congruence]. }
  unfold apfs_fill_super. cbn [negb]. cbv zeta.
  set (sb1 := set_s_fs_info _ (Some sbi_zero)).
  destruct (apfs_map_main_super K sb1) as [e1 sb2].
  destruct (negb (e1 =? 0)); [discriminate|].
  set (sb3 := set_s_fs_info sb2 _).
  destruct (parse_options K sb3 data) as [e2 sb4] eqn:H2.
  destruct (e2 =? 0) eqn:E2; cbn [negb]; [|discriminate].
  apply Z.eqb_eq in E2. subst e2.
  destruct (apfs_map_volume_super K L sb4) as [[e3 sb5]|] eqn:H3.
  { destruct (negb (e3 =? 0)); [discriminate|].
    destruct (apfs_read_omap K L sb5) as [e4 sb6].
    destruct (negb (e4 =? 0)); [discriminate|].
    destruct (apfs_read_catalog L sb6) as [e5 sb7].
    destruct (negb (e5 =? 0)); [discriminate|].
    destruct (apfs_iget L _ APFS_ROOT_DIR_INO_NUM) as [root|errno]; [|discriminate].
    cbn [s_root set_s_root]. destruct (d_make_root K root); discriminate. }
  intros _. apply apfs_map_volume_super_undefined in H3. destruct H3 as (Hr & Hs).
  assert (Hbig : 2 ^ 29 - 1 <= vol_nr_of (APFS_SB sb4)).
  { destruct (Z_lt_dec (vol_nr_of (APFS_SB sb4)) (2 ^ 29 - 1)) as [Hlt|]; [|lia].
    exfalso.
    assert (Hu : 0 <= vol_nr_of (APFS_SB sb4) < 2 ^ 32)
      by (unfold vol_nr_of, u32; apply Z.mod_pos_bound; reflexivity).
    clear - Hr Hs Hlt Hu.
    unfold vol_nr_out_of_range, vol_slot_in_block in *.
    assert (H29 : 2 ^ 29 - 1 = 536870911) by reflexivity.
    assert (H32 : 2 ^ 32 = 4294967296) by reflexivity.
    assert (H64 : 2 ^ 64 = 18446744073709551616) by reflexivity.
    unfold u32, u64, sizeof_nx_superblock in Hr.
    rewrite (Z.mod_small (vol_nr_of (APFS_SB sb4) + 1)) in Hr by lia.
    rewrite (Z.mod_small (8 * (vol_nr_of (APFS_SB sb4) + 1))) in Hr by lia.
    rewrite Z.mod_small in Hr by lia.
    apply Z.leb_gt in Hr, Hs. unfold sizeof_nx_superblock in Hs. lia. }
  destruct data as [s|].
  - exists s, sb3. rewrite H2. cbn [fst snd]. auto.
  - exfalso. rewrite parse_options_none_vol in H2. injection H2 as <-.
    cbn [APFS_SB s_fs_info set_s_fs_info vol_nr_of s_vol_nr set_s_flags set_vol_nr]
      in Hbig.
    vm_compute in Hbig. apply Hbig. reflexivity.
Qed.

Lemma apfs_fill_super_outcome_witness :
  exists sb',
    apfs_fill_super (kernel_on sample_disk) mount_lib true blank_sb
                    (Some "vol=0,uid=501"%string) 0 = Some (0, sb')
    /\ s_magic sb' = APFS_NX_MAGIC
    /\ apfs_magic (s_vsb_raw (APFS_SB sb')) = APFS_MAGIC.
Proof.
  destruct (apfs_fill_super (kernel_on sample_disk) mount_lib true blank_sb
              (Some "vol=0,uid=501"%string) 0) as [[err sb']|] eqn:Hm.
  2:{ exfalso. vm_compute in Hm. discriminate Hm. }
  assert (He : err = 0).
  { apply (f_equal (option_map fst)) in Hm. vm_compute in Hm. congruence. }
  subst err. exists sb'. split; [reflexivity|].
  destruct (proj2 (proj1 (apfs_fill_super_outcome _ _ _ _ _) _ _ Hm) eq_refl)
    as (_ & _ & _ & Hmag & _ & _ & Hvol & _).
  split; assumption.
Defined.

(** On the sample device the option [vol=536870911] passes the range test,
    whose product wraps to 0, and the mount reads its slot 4 GiB beyond
    block 0. *)
Example sample_mount_wrapped_volume :
  vol_nr_out_of_range
    (set_s_fs_info mounted_sb (Some (set_vol_nr (APFS_SB mounted_sb) 536870911)))
  = false
  /\ apfs_fill_super (kernel_on sample_disk) mount_lib true blank_sb
       (Some "vol=536870911"%string) 0 = None.
Proof. split; vm_compute; reflexivity. Qed.

Lemma container_part_flags a b :
  container_part a = container_part b -> sb_flags a = sb_flags b.
Proof. unfold container_part. intros H. injection H. auto. Qed.

(** X11.  [apfs_fill_super] forces the mount read-only: as long as
    [sb_set_blocksize] leaves the flags of the super block alone, the flags
    after the call, whether it succeeds or fails, are the flags before it
    with [SB_RDONLY] set.  The call returns unless the volume number of the
    option string takes [apfs_map_volume_super] outside block 0. *)
Theorem apfs_fill_super_read_only K L kzalloc_ok sb data silent :
  set_blocksize_keeps_flags K ->
  match apfs_fill_super K L kzalloc_ok sb data silent with
  | Some (_, sb') =>
      sb_flags sb' = Z.lor (sb_flags sb) SB_RDONLY
      /\ Z.land (sb_flags sb') SB_RDONLY = SB_RDONLY
  | None => kzalloc_ok = true /\ data <> None
  end.
Proof.
  intros Hk.
  assert (Hbit : Z.land (Z.lor (sb_flags sb) SB_RDONLY) SB_RDONLY = SB_RDONLY).
  { apply Z.bits_inj'. intros n Hn.
    rewrite Z.land_spec, Z.lor_spec.
    destruct (Z.testbit SB_RDONLY n);
      [rewrite orb_true_r; reflexivity|apply andb_false_r]. }
  assert (Hflags :
            match apfs_fill_super K L kzalloc_ok sb data silent with
            | Some (_, sb') => sb_flags sb' = Z.lor (sb_flags sb) SB_RDONLY
            | None => kzalloc_ok = true /\ data <> None
            end).
  { unfold apfs_fill_super. cbv zeta.
    destruct kzalloc_ok; cbn [negb]; [|reflexivity].
    set (sb1 := set_s_fs_info _ (Some sbi_zero)).
    pose proof (apfs_map_main_super_flags K sb1 Hk) as F1.
    destruct (apfs_map_main_super K sb1) as [e1 sb2]. cbn [snd] in F1.
    change (sb_flags sb1) with (Z.lor (sb_flags sb) SB_RDONLY) in F1.
    destruct (negb (e1 =? 0)); [exact F1|].
    set (sb3 := set_s_fs_info sb2 _).
    pose proof (parse_options_frame K sb3 data) as (F2 & _ & _).
    apply container_part_flags in F2.
    change (sb_flags sb3) with (sb_flags sb2) in F2.
    destruct (parse_options K sb3 data) as [e2 sb4] eqn:H2. cbn [snd] in F2.
    destruct (negb (e2 =? 0)); [cbn [set_s_fs_info sb_flags]; congruence|].
    destruct (apfs_map_volume_super K L sb4) as [[e3 sb5]|] eqn:H3.
    2:{ split; [reflexivity|]. intros ->.
        rewrite parse_options_none_vol in H2. injection H2 as _ <-.
        apply apfs_map_volume_super_undefined in H3. destruct H3 as (Hr & Hs).
        match type of Hr with
        | vol_nr_out_of_range ?x = _ =>
            destruct (vol_range_exact x) as (_ & _ & Hin)
        end.
        { cbn [APFS_SB s_fs_info set_s_fs_info s_vol_nr set_s_flags set_vol_nr].
          split; [apply Z.le_refl|reflexivity]. }
        rewrite (Hin Hr) in Hs. discriminate Hs. }
    pose proof (apfs_map_volume_super_frame K L sb4 _ H3) as F3.
    apply container_part_flags in F3. cbn [snd] in F3.
    destruct (negb (e3 =? 0)); [cbn [set_s_fs_info sb_flags]; congruence|].
    pose proof (apfs_read_omap_frame K L sb5) as (F4 & _).
    apply container_part_flags in F4.
    destruct (apfs_read_omap K L sb5) as [e4 sb6]. cbn [snd] in F4.
    destruct (negb (e4 =? 0)); [cbn [set_s_fs_info sb_flags]; congruence|].
    pose proof (apfs_read_catalog_frame L sb6) as (F5 & _ & _).
    apply container_part_flags in F5.
    destruct (apfs_read_catalog L sb6) as [e5 sb7]. cbn [snd] in F5.
    destruct (negb (e5 =? 0)); [cbn [set_s_fs_info sb_flags]; congruence|].
    destruct (apfs_iget L _ APFS_ROOT_DIR_INO_NUM) as [root|errno];
      [|cbn [set_s_fs_info set_s_maxbytes sb_flags]; congruence].
    cbn [s_root set_s_root].
    destruct (d_make_root K root);
      cbn [set_s_fs_info set_s_root set_s_maxbytes sb_flags]; congruence. }
  destruct (apfs_fill_super K L kzalloc_ok sb data silent) as [[err sb']|];
    [|exact Hflags].
  split; [exact Hflags|]. rewrite Hflags. exact Hbit.
Qed.

Lemma apfs_fill_super_read_only_witness :
  exists err sb',
    apfs_fill_super (kernel_on [(0, bad_container)]) no_lib true blank_sb None 0
    = Some (err, sb')
    /\ sb_flags sb' = Z.lor 0 SB_RDONLY.
Proof.
  assert (Hk : set_blocksize_keeps_flags (kernel_on [(0, bad_container)])).
  { intros sb size. cbn [kernel_on sb_set_blocksize]. unfold disk_set_blocksize.
    destruct (size =? 4096); reflexivity. }
  pose proof (apfs_fill_super_read_only (kernel_on [(0, bad_container)]) no_lib
                true blank_sb None 0 Hk) as T.
  destruct (apfs_fill_super (kernel_on [(0, bad_container)]) no_lib true
              blank_sb None 0) as [[err sb']|].
  - exists err, sb'. split; [reflexivity|]. exact (proj1 T).
  - exfalso. destruct T as [_ Hd]. apply Hd. reflexivity.
Defined.

(** X12.  [apfs_map_volume_super] has a defined result unless the range
    test of line 160 passes with a slot outside block 0, which takes a
    volume number of 2^29 - 1 or more, where the product of the test wraps.
    Below that bound the test is the one over the integers and a slot that
    holds no volume cannot be mounted: when the entry of [nx_fs_oid] for the
    selected volume number is 0, the call returns [-EINVAL] and leaves the
    super block as it was, without reading a block.  A call that returns 0
    has read its entry inside the block, found it non-zero and found a
    volume super block whose magic is [APSB]. *)
Theorem apfs_map_volume_super_empty_slot K L sb :
  (apfs_map_volume_super K L sb = None <->
   vol_nr_out_of_range sb = false /\ vol_slot_in_block sb = false)
  /\ (0 <= s_vol_nr (APFS_SB sb) < 2 ^ 29 - 1 ->
      (exists r, apfs_map_volume_super K L sb = Some r)
      /\ (s_blocksize sb
          <= sizeof_nx_superblock + 8 * (s_vol_nr (APFS_SB sb) + 1) ->
          apfs_map_volume_super K L sb = Some (- EINVAL, sb))
      /\ (nx_fs_oid (s_msb_raw (APFS_SB sb)) (s_vol_nr (APFS_SB sb)) = 0 ->
          apfs_map_volume_super K L sb = Some (- EINVAL, sb)))
  /\ (forall sb',
        apfs_map_volume_super K L sb = Some (0, sb') ->
        sizeof_nx_superblock + 8 * vol_nr_of (APFS_SB sb) + 8 <= s_blocksize sb /\
        nx_fs_oid (s_msb_raw (APFS_SB sb)) (vol_nr_of (APFS_SB sb)) <> 0 /\
        apfs_magic (s_vsb_raw (APFS_SB sb')) = APFS_MAGIC).
Proof.
  split; [apply apfs_map_volume_super_undefined|]. split.
  - intros Hb. destruct (vol_range_exact sb Hb) as (Hv & Ht & Hin).
    split; [|split].
    + destruct (apfs_map_volume_super K L sb) as [r|] eqn:Hr; [eauto|].
      apply apfs_map_volume_super_undefined in Hr. destruct Hr as (Hr & Hs).
      rewrite (Hin Hr) in Hs. discriminate Hs.
    + intros Hle. unfold apfs_map_volume_super. rewrite Ht.
      apply Z.leb_le in Hle. rewrite Hle. reflexivity.
    + intros Hz. unfold apfs_map_volume_super.
      destruct (vol_nr_out_of_range sb) eqn:Hr; [reflexivity|].
      rewrite (Hin eq_refl). cbn [negb]. rewrite Hv, Hz. reflexivity.
  - intros sb' H. apply apfs_map_volume_super_ok in H.
    destruct H as (_ & Hs & Hm & Hv & _).
    split; [apply Z.leb_le; exact Hs|]. auto.
Qed.

Lemma apfs_map_volume_super_empty_slot_witness :
  option_map fst
    (apfs_fill_super (kernel_on sample_disk) mount_lib true blank_sb
       (Some "vol=2"%string) 0) = Some (- EINVAL)
  /\ apfs_map_volume_super (kernel_on sample_disk) mount_lib
       (set_s_fs_info mounted_sb (Some (set_vol_nr (APFS_SB mounted_sb) 2)))
     = Some (- EINVAL,
             set_s_fs_info mounted_sb (Some (set_vol_nr (APFS_SB mounted_sb) 2)))
  /\ apfs_map_volume_super (kernel_on sample_disk) mount_lib
       (set_s_fs_info mounted_sb
          (Some (set_vol_nr (APFS_SB mounted_sb) (2 ^ 29 - 1))))
     = None.
Proof.
  split; [vm_compute; reflexivity|]. split.
  - apply (apfs_map_volume_super_empty_slot (kernel_on sample_disk) mount_lib).
    + vm_compute. split; [discriminate|reflexivity].
    + vm_compute. reflexivity.
  - apply (apfs_map_volume_super_empty_slot (kernel_on sample_disk) mount_lib).
    vm_compute. split; reflexivity.
Defined.

(** ** super.c: more on statfs *)

Lemma count_loop_ok K L sb vtable : forall (n : nat) (i count : Z),
  (forall j : nat, (j < n)%nat ->
     referenced_volume K L sb vtable (i + Z.of_nat j) <> None) ->
  fst (count_loop K L sb vtable n i count) = 0.
Proof.
  induction n as [|n IH]; intros i count Hall; [reflexivity|].
  cbn [count_loop].
  pose proof (Hall 0%nat ltac:(lia)) as H0.
  rewrite Z.add_0_r in H0. unfold referenced_volume in H0.
  destruct (apfs_table_locate_data L vtable i) as [len off].
  destruct (len =? 16); cbn [negb]; [|congruence].
  destruct (sb_bread K sb _); [|congruence].
  apply IH. intros j Hj.
  replace (i + 1 + Z.of_nat j) with (i + Z.of_nat (S j)) by lia.
  apply Hall. lia.
Qed.

(** X13.  Once the container object map and its node have been read,
    [apfs_statfs] returns 0 exactly when every record of the node leads to a
    volume super block, a value of 16 bytes whose block can be read; in every
    other case it returns [-EIO]. *)
Theorem apfs_statfs_succeeds_iff K L sb buf omap vtable :
  sb_bread K sb (nx_omap_oid (s_msb_raw (APFS_SB sb))) = Some omap ->
  apfs_read_table L sb (om_tree_oid (b_data omap)) = Ptr vtable ->
  (fst (apfs_statfs K L sb buf) = 0 <->
   forall i, 0 <= i < t_records vtable ->
             referenced_volume K L sb vtable i <> None)
  /\ (fst (apfs_statfs K L sb buf) = 0 \/ fst (apfs_statfs K L sb buf) = - EIO).
Proof.
  intros Hb Ht.
  assert (Hst : fst (apfs_statfs K L sb buf)
                = fst (count_loop K L sb vtable (Z.to_nat (t_records vtable)) 0 0)).
  { unfold apfs_statfs, apfs_count_used_blocks. rewrite Hb, Ht.
    destruct (count_loop K L sb vtable _ 0 0) as [err used]. cbn [fst].
    destruct (err =? 0) eqn:He; cbn [negb fst]; [|reflexivity].
    apply Z.eqb_eq in He. congruence. }
  rewrite Hst. split; [|apply count_loop_codes].
  split.
  - intros H0 i Hi.
    destruct (count_loop K L sb vtable (Z.to_nat (t_records vtable)) 0 0)
      as [err used] eqn:Hc.
    cbn [fst] in H0. subst err.
    apply count_loop_sum in Hc; [|lia].
    destruct Hc as (vsbs & _ & Hv & _).
    specialize (Hv (Z.to_nat i) ltac:(lia)).
    rewrite Z.add_0_l, Z2Nat.id in Hv by lia. congruence.
  - intros Hall. apply count_loop_ok. intros j Hj.
    rewrite Z.add_0_l. apply Hall. lia.
Qed.

Lemma apfs_statfs_succeeds_iff_witness :
  fst (apfs_statfs (kernel_on sample_disk) sample_lib mounted_sb blank_statfs) = 0.
Proof.
  apply (apfs_statfs_succeeds_iff (kernel_on sample_disk) sample_lib mounted_sb
           blank_statfs (mk_bh (omap_block 51) 4096 50 true) sample_vtable).
  - vm_compute; reflexivity.
  - vm_compute; reflexivity.
  - intros i Hi. change (t_records sample_vtable) with 2 in Hi.
    assert (Hc : i = 0 \/ i = 1) by lia.
    destruct Hc as [-> | ->]; vm_compute; discriminate.
Defined.

(** X14.  Whatever its outcome, [apfs_statfs] has set the type, the block
    size and the block count, and has not written [f_ffree]; when it fails it
    has written nothing else.  It fails with [-EIO] when the container object
    map cannot be read and with the error of [apfs_read_table] when the node
    cannot. *)
Theorem apfs_statfs_failure_frame K L sb buf err buf' :
  apfs_statfs K L sb buf = (err, buf') ->
  f_type buf' = APFS_SUPER_MAGIC /\ f_bsize buf' = s_blocksize sb /\
  f_blocks buf' = nx_block_count (s_msb_raw (APFS_SB sb)) /\
  f_ffree buf' = f_ffree buf
  /\ (err <> 0 ->
      f_bfree buf' = f_bfree buf /\ f_bavail buf' = f_bavail buf /\
      f_files buf' = f_files buf /\ f_fsid buf' = f_fsid buf /\
      f_namelen buf' = f_namelen buf)
  /\ (sb_bread K sb (nx_omap_oid (s_msb_raw (APFS_SB sb))) = None -> err = - EIO)
  /\ (forall omap errno,
        sb_bread K sb (nx_omap_oid (s_msb_raw (APFS_SB sb))) = Some omap ->
        apfs_read_table L sb (om_tree_oid (b_data omap)) = ErrPtr errno ->
        err = PTR_ERR errno).
Proof.
  unfold apfs_statfs.
  destruct (apfs_count_used_blocks K L sb 0) as [e used] eqn:Hc.
  destruct (e =? 0) eqn:He; cbn [negb].
  - apply Z.eqb_eq in He. subst e. intros H.
    assert (H1 := f_equal fst H). assert (H2 := f_equal snd H).
    cbn [fst snd] in H1, H2. subst err buf'. clear H.
    cbn [f_type f_bsize f_blocks f_ffree set_f_type set_f_bsize set_f_blocks
         set_f_bfree set_f_bavail set_f_files set_f_namelen set_f_fsid].
    repeat (split; [reflexivity|]).
    split; [congruence|].
    unfold apfs_count_used_blocks in Hc.
    split.
    + intros Hn. rewrite Hn in Hc. discriminate Hc.
    + intros omap errno Hb Ht. rewrite Hb, Ht in Hc. discriminate Hc.
  - apply Z.eqb_neq in He. intros [= <- <-].
    cbn [f_type f_bsize f_blocks f_ffree f_bfree f_bavail f_files f_fsid f_namelen
         set_f_type set_f_bsize set_f_blocks].
    repeat (split; [reflexivity|]).
    split; [intros _; repeat split|].
    unfold apfs_count_used_blocks in Hc.
    split.
    + intros Hn. rewrite Hn in Hc. congruence.
    + intros omap errno Hb Ht. rewrite Hb, Ht in Hc. congruence.
Qed.

Lemma apfs_statfs_failure_frame_witness :
  apfs_statfs (kernel_on []) sample_lib mounted_sb blank_statfs
  = (- EIO, mk_kstatfs APFS_SUPER_MAGIC 4096 10000 0 0 0 0 (0, 0) 0)
  /\ - EIO = - EIO.
Proof.
  assert (Hr : apfs_statfs (kernel_on []) sample_lib mounted_sb blank_statfs
               = (- EIO, mk_kstatfs APFS_SUPER_MAGIC 4096 10000 0 0 0 0 (0, 0) 0))
    by (vm_compute; reflexivity).
  split; [exact Hr|].
  destruct (apfs_statfs_failure_frame _ _ _ _ _ _ Hr) as (_ & _ & _ & _ & _ & H & _).
  apply H. reflexivity.
Defined.

(** ** super.c: more on the mount options *)

Lemma land_pow2_test f k :
  0 <= k -> (Z.land f (2 ^ k) <> 0 <-> Z.testbit f k = true).
Proof.
  intros Hk. split.
  - intros Hne. destruct (Z.testbit f k) eqn:Ht; [reflexivity|].
    exfalso. apply Hne. apply Z.bits_inj'. intros n Hn.
    rewrite Z.land_spec, Z.bits_0, Z.pow2_bits_eqb by assumption.
    destruct (Z.eqb_spec k n) as [->|]; [rewrite Ht; reflexivity|apply andb_false_r].
  - intros Ht He.
    assert (Hb : Z.testbit (Z.land f (2 ^ k)) k = true).
    { rewrite Z.land_spec, Ht, Z.pow2_bits_eqb, Z.eqb_refl by assumption. reflexivity. }
    rewrite He, Z.bits_0 in Hb. discriminate.
Qed.

Lemma bits_lor_uid f n :
  Z.testbit (Z.lor f APFS_UID_OVERRIDE) n = (Z.testbit f n || (0 =? n))%bool.
Proof.
  rewrite Z.lor_spec. change APFS_UID_OVERRIDE with (2 ^ 0).
  destruct (Z_le_dec 0 n) as [Hn|Hn].
  - rewrite Z.pow2_bits_eqb by lia. reflexivity.
  - rewrite !Z.testbit_neg_r by lia. destruct (Z.eqb_spec 0 n); [lia|reflexivity].
Qed.

Lemma bits_lor_gid f n :
  Z.testbit (Z.lor f APFS_GID_OVERRIDE) n = (Z.testbit f n || (1 =? n))%bool.
Proof.
  rewrite Z.lor_spec. change APFS_GID_OVERRIDE with (2 ^ 1).
  destruct (Z_le_dec 0 n) as [Hn|Hn].
  - rewrite Z.pow2_bits_eqb by lia. reflexivity.
  - rewrite !Z.testbit_neg_r by lia. destruct (Z.eqb_spec 1 n); [lia|reflexivity].
Qed.

Section OptionFlags.

Variable K : kernel.

Lemma has_token_skip tok p segs :
  p = EmptyString \/ fst (match_token K p tokens) <> tok ->
  (has_token K tok (p :: segs) <-> has_token K tok segs).
Proof.
  intros Hno. split.
  - intros (q & [<-|Hq] & Hne & Ht).
    + destruct Hno; contradiction.
    + exists q. auto.
  - intros (q & Hq & Hne & Ht). exists q. split; [right; exact Hq|auto].
Qed.

Lemma has_token_here tok p segs :
  p <> EmptyString -> fst (match_token K p tokens) = tok ->
  has_token K tok (p :: segs).
Proof. intros Hne Ht. exists p. split; [left; reflexivity|auto]. Qed.

(** The two override bits after the segments: what was set before, or what
    a [uid=], respectively [gid=], segment set. *)
Lemma parse_segments_flags : forall segs sbi sbi',
  parse_segments K sbi segs = (0, sbi') ->
  (Z.testbit (s_flags sbi') 0 = true <->
   Z.testbit (s_flags sbi) 0 = true \/ has_token K Opt_uid segs)
  /\ (Z.testbit (s_flags sbi') 1 = true <->
      Z.testbit (s_flags sbi) 1 = true \/ has_token K Opt_gid segs)
  /\ (forall n, 2 <= n -> Z.testbit (s_flags sbi') n = Z.testbit (s_flags sbi) n).
Proof.
  induction segs as [|p segs IH]; intros sbi sbi' H.
  - cbn in H. injection H as <-.
    split; [|split; [|reflexivity]]; (split; [auto|]);
      intros [Hf|(p & [] & _)]; exact Hf.
  - cbn [parse_segments] in H.
    destruct (p =? "")%string eqn:Hp.
    { apply String.eqb_eq in Hp. apply IH in H. destruct H as (I0 & I1 & I2).
      rewrite (has_token_skip Opt_uid p segs) by (left; exact Hp).
      rewrite (has_token_skip Opt_gid p segs) by (left; exact Hp).
      auto. }
    apply String.eqb_neq in Hp.
    destruct (match_token K p tokens) as [tok args] eqn:Htok.
    assert (Ht : fst (match_token K p tokens) = tok) by (rewrite Htok; reflexivity).
    destruct tok.
    + destruct (match_int K _) as [err v].
      destruct (negb (err =? 0)) eqn:He; [injection H as -> _; discriminate He|].
      destruct (negb (uid_valid _)); [discriminate H|].
      apply IH in H. cbn [s_flags set_s_flags set_s_uid] in H.
      destruct H as (I0 & I1 & I2).
      rewrite bits_lor_uid in I0, I1.
      pose proof (has_token_here Opt_uid p segs Hp Ht) as Hhere.
      rewrite (has_token_skip Opt_gid p segs) by (right; congruence).
      split; [|split].
      * split; [intros _; right; exact Hhere|]. intros _. apply I0. left.
        apply orb_true_r.
      * rewrite I1. change (0 =? 1) with false. rewrite orb_false_r. reflexivity.
      * intros n Hn. rewrite (I2 n Hn), bits_lor_uid.
        destruct (Z.eqb_spec 0 n); [lia|apply orb_false_r].
    + destruct (match_int K _) as [err v].
      destruct (negb (err =? 0)) eqn:He; [injection H as -> _; discriminate He|].
      destruct (negb (gid_valid _)); [discriminate H|].
      apply IH in H. cbn [s_flags set_s_flags set_s_gid] in H.
      destruct H as (I0 & I1 & I2).
      rewrite bits_lor_gid in I0, I1.
      pose proof (has_token_here Opt_gid p segs Hp Ht) as Hhere.
      rewrite (has_token_skip Opt_uid p segs) by (right; congruence).
      split; [|split].
      * rewrite I0. change (1 =? 0) with false. rewrite orb_false_r. reflexivity.
      * split; [intros _; right; exact Hhere|]. intros _. apply I1. left.
        apply orb_true_r.
      * intros n Hn. rewrite (I2 n Hn), bits_lor_gid.
        destruct (Z.eqb_spec 1 n); [lia|apply orb_false_r].
    + destruct (match_int K _) as [err v].
      destruct (negb (err =? 0)) eqn:He; [injection H as -> _; discriminate He|].
      apply IH in H. cbn [s_flags set_vol_nr] in H.
      rewrite (has_token_skip Opt_uid p segs) by (right; congruence).
      rewrite (has_token_skip Opt_gid p segs) by (right; congruence).
      exact H.
    + discriminate H.
Qed.

End OptionFlags.

(** A successful parse of [pre ++ rest] has parsed [pre]. *)
Lemma parse_segments_app_ok K : forall pre rest sbi sbi',
  parse_segments K sbi (pre ++ rest) = (0, sbi') ->
  exists sbi1,
    parse_segments K sbi pre = (0, sbi1) /\
    parse_segments K sbi1 rest = (0, sbi').
Proof.
  induction pre as [|p pre IH]; intros rest sbi sbi' H.
  - exists sbi. split; [reflexivity|exact H].
  - cbn [app parse_segments] in *.
    destruct (p =? "")%string; [apply IH; exact H|].
    destruct (match_token K p tokens) as [[] args].
    + destruct (match_int K _) as [err v].
      destruct (negb (err =? 0)) eqn:He; [injection H as -> _; discriminate He|].
      destruct (negb (uid_valid _)); [discriminate H|]. apply IH; exact H.
    + destruct (match_int K _) as [err v].
      destruct (negb (err =? 0)) eqn:He; [injection H as -> _; discriminate He|].
      destruct (negb (gid_valid _)); [discriminate H|]. apply IH; exact H.
    + destruct (match_int K _) as [err v].
      destruct (negb (err =? 0)) eqn:He; [injection H as -> _; discriminate He|].
      apply IH; exact H.
    + discriminate H.
Qed.

(** X15.  After a successful [parse_options] the uid override flag is set
    exactly when some segment that is not empty was a [uid=] option, the gid
    override flag exactly when some segment was a [gid=] option, and no other
    flag is set. *)
Theorem parse_options_override_flags K sb s sb' :
  parse_options K sb (Some s) = (0, sb') ->
  (Z.land (s_flags (APFS_SB sb')) APFS_UID_OVERRIDE <> 0
   <-> has_token K Opt_uid (segments s))
  /\ (Z.land (s_flags (APFS_SB sb')) APFS_GID_OVERRIDE <> 0
      <-> has_token K Opt_gid (segments s))
  /\ Z.land (s_flags (APFS_SB sb'))
            (Z.lor APFS_UID_OVERRIDE APFS_GID_OVERRIDE)
     = s_flags (APFS_SB sb').
Proof.
  unfold parse_options.
  destruct (parse_segments K _ (segments s)) as [err sbi'] eqn:Hps.
  intros [= -> <-]. cbn [APFS_SB s_fs_info set_s_fs_info].
  apply parse_segments_flags in Hps.
  cbn [s_flags set_s_flags] in Hps. destruct Hps as (I0 & I1 & I2).
  rewrite Z.bits_0 in I0, I1.
  split; [|split].
  - change APFS_UID_OVERRIDE with (2 ^ 0). rewrite land_pow2_test by lia.
    rewrite I0. split; [intros [Hf|Hh]; [discriminate Hf|exact Hh]|auto].
  - change APFS_GID_OVERRIDE with (2 ^ 1). rewrite land_pow2_test by lia.
    rewrite I1. split; [intros [Hf|Hh]; [discriminate Hf|exact Hh]|auto].
  - apply Z.bits_inj'. intros n Hn. rewrite Z.land_spec.
    destruct (Z_le_dec 2 n) as [H2|H2].
    + rewrite (I2 n H2), Z.bits_0. reflexivity.
    + assert (Hc : n = 0 \/ n = 1) by lia.
      destruct Hc as [-> | ->]; cbn; apply andb_true_r.
Qed.

Lemma parse_options_override_flags_witness :
  has_token (kernel_on []) Opt_uid (segments "vol=1,uid=501"%string).
Proof.
  destruct (parse_options (kernel_on []) mounted_sb (Some "vol=1,uid=501"%string))
    as [err sb'] eqn:Hp.
  assert (He : err = 0)
    by (apply (f_equal fst) in Hp; vm_compute in Hp; congruence).
  subst err.
  apply (proj1 (parse_options_override_flags _ _ _ _ Hp)).
  apply (f_equal (fun r => s_flags (APFS_SB (snd r)))) in Hp.
  cbv beta in Hp. cbn [snd] in Hp. rewrite <- Hp. vm_compute. discriminate.
Defined.

(** X16.  The last [vol=] option wins: after a successful [parse_options]
    of a string whose segment [p] is a [vol=] option that no later segment
    repeats, the volume number is the number that [match_int] read from
    [p]. *)
Theorem parse_options_last_vol K sb s pre p post sb' :
  segments s = pre ++ p :: post ->
  p <> EmptyString ->
  fst (match_token K p tokens) = Opt_vol ->
  (forall q, In q post -> fst (match_token K q tokens) <> Opt_vol) ->
  parse_options K sb (Some s) = (0, sb') ->
  s_vol_nr (APFS_SB sb') = snd (match_int K (args0 K p)).
Proof.
  intros Hseg Hp Htok Hpost. unfold parse_options. rewrite Hseg.
  destruct (parse_segments K _ (pre ++ p :: post)) as [err sbi'] eqn:Hps.
  intros [= -> <-]. cbn [APFS_SB s_fs_info set_s_fs_info].
  apply parse_segments_app_ok in Hps. destruct Hps as (sbi1 & _ & Hps).
  cbn [parse_segments] in Hps.
  destruct (p =? "")%string eqn:He; [apply String.eqb_eq in He; contradiction|].
  unfold args0.
  destruct (match_token K p tokens) as [tok args]. cbn [fst snd] in *. subst tok.
  destruct (match_int K (nth 0 args EmptyString)) as [err v].
  destruct (negb (err =? 0)) eqn:Herr; [injection Hps as -> _; discriminate Herr|].
  apply parse_segments_vol in Hps. cbn [snd].
  destruct Hps as [Hv|(q & Hq & Ht & _)].
  - exact Hv.
  - exfalso. apply (Hpost q Hq Ht).
Qed.

Lemma parse_options_last_vol_witness :
  exists sb',
    parse_options (kernel_on []) mounted_sb (Some "vol=1,uid=501,vol=3"%string)
    = (0, sb') /\ s_vol_nr (APFS_SB sb') = 3.
Proof.
  destruct (parse_options (kernel_on []) mounted_sb
              (Some "vol=1,uid=501,vol=3"%string)) as [err sb'] eqn:Hp.
  assert (He : err = 0)
    by (apply (f_equal fst) in Hp; vm_compute in Hp; congruence).
  subst err. exists sb'. split; [reflexivity|].
  apply (parse_options_last_vol (kernel_on []) mounted_sb
           "vol=1,uid=501,vol=3"%string ["vol=1"%string; "uid=501"%string]
           "vol=3"%string [] sb').
  - reflexivity.
  - discriminate.
  - vm_compute. reflexivity.
  - intros q [].
  - exact Hp.
Defined.

(** X17.  An id that the user namespace cannot map is refused: when the
    segments before [p] parse, [p] is a [uid=] option whose number
    [match_int] accepts and [make_kuid] gives the invalid id for it,
    [parse_options] returns [-EINVAL]; the same holds for [gid=] and
    [make_kgid]. *)
Theorem parse_options_invalid_id K sb s pre p post sbi1 v :
  segments s = pre ++ p :: post ->
  parse_segments K (set_s_flags (set_vol_nr (APFS_SB sb) 0) 0) pre = (0, sbi1) ->
  p <> EmptyString ->
  match_int K (args0 K p) = (0, v) ->
  (fst (match_token K p tokens) = Opt_uid /\ uid_valid (make_kuid K v) = false) \/
  (fst (match_token K p tokens) = Opt_gid /\ gid_valid (make_kgid K v) = false) ->
  fst (parse_options K sb (Some s)) = - EINVAL.
Proof.
  intros Hseg Hpre Hp Hint Hbad. unfold parse_options. rewrite Hseg.
  rewrite (parse_segments_app K pre (p :: post) _ sbi1 Hpre).
  cbn [parse_segments].
  destruct (p =? "")%string eqn:He; [apply String.eqb_eq in He; contradiction|].
  unfold args0 in Hint.
  destruct (match_token K p tokens) as [tok args]. cbn [fst snd] in *.
  destruct Hbad as [[-> Hv]|[-> Hv]]; rewrite Hint; cbn [Z.eqb negb];
    cbn [s_uid set_s_uid s_gid set_s_gid]; rewrite Hv; reflexivity.
Qed.

Lemma parse_options_invalid_id_witness :
  fst (parse_options
         (mk_kernel disk_set_blocksize (disk_bread []) kernel_match_token
                    kernel_match_int (fun _ => 0xFFFFFFFF) (fun gid => u32 gid)
                    (fun root => Some (i_ino root)))
         mounted_sb (Some "vol=1,uid=70000"%string)) = - EINVAL.
Proof.
  eapply (parse_options_invalid_id _ mounted_sb "vol=1,uid=70000"%string
            ["vol=1"%string] "uid=70000"%string [] _ 70000).
  - reflexivity.
  - vm_compute. reflexivity.
  - discriminate.
  - vm_compute. reflexivity.
  - left. split; vm_compute; reflexivity.
Defined.

(** ** super.c: the options shown can be parsed back *)

Lemma digit_cases d :
  0 <= d <= 9 ->
  d = 0 \/ d = 1 \/ d = 2 \/ d = 3 \/ d = 4 \/ d = 5 \/ d = 6 \/ d = 7 \/ d = 8
  \/ d = 9.
Proof. lia. Qed.

Lemma digit_val_char d : 0 <= d <= 9 -> digit_val (digit_char d) = Some d.
Proof.
  intros H. apply digit_cases in H.
  repeat (destruct H as [->|H]; [reflexivity|]). subst d. reflexivity.
Qed.

Lemma digit_char_no_comma d : 0 <= d <= 9 -> (digit_char d =? ",")%char = false.
Proof.
  intros H. apply digit_cases in H.
  repeat (destruct H as [->|H]; [reflexivity|]). subst d. reflexivity.
Qed.

(** Parsing the printed digits gives the number back. *)
Lemma parse_print_digits : forall (fuel : nat) (n : Z) (acc : string),
  0 <= n < 10 ^ Z.of_nat fuel -> n < 2 ^ 63 ->
  parse_integer (print_digits fuel n acc) 10 0 = parse_integer acc 10 n.
Proof.
  induction fuel as [|fuel IH]; intros n acc Hn H63.
  - change (10 ^ Z.of_nat 0) with 1 in Hn. assert (n = 0) by lia. subst n.
    reflexivity.
  - rewrite Nat2Z.inj_succ, Z.pow_succ_r in Hn by lia.
    cbn [print_digits].
    pose proof (Z.mod_pos_bound n 10 ltac:(lia)) as Hd.
    pose proof (Z.div_mod n 10 ltac:(lia)) as Hdm.
    assert (Hstep : forall r, 0 <= r -> r * 10 + n mod 10 < 2 ^ 64 ->
              parse_integer (String (digit_char (n mod 10)) acc) 10 r
              = parse_integer acc 10 (r * 10 + n mod 10)).
    { intros r Hr Hlt. cbn [parse_integer]. rewrite digit_val_char by lia.
      replace (n mod 10 <? 10) with true by (symmetry; apply Z.ltb_lt; lia).
      rewrite u64_small by lia. reflexivity. }
    assert (H64 : 2 ^ 63 < 2 ^ 64) by reflexivity.
    destruct (n / 10 =? 0) eqn:Hq.
    + apply Z.eqb_eq in Hq. rewrite Hstep by lia.
      f_equal. lia.
    + apply Z.eqb_neq in Hq.
      assert (Hq0 : 0 <= n / 10) by (apply Z.div_pos; lia).
      rewrite IH by lia.
      rewrite Hstep by lia. f_equal. lia.
Qed.

(** The printed text of a positive number starts with a digit from 1 to 9. *)
Lemma print_digits_head : forall (fuel : nat) (n : Z) (acc : string),
  0 < n < 10 ^ Z.of_nat fuel ->
  exists d rest,
    1 <= d <= 9 /\ print_digits fuel n acc = String (digit_char d) rest.
Proof.
  induction fuel as [|fuel IH]; intros n acc Hn.
  - change (10 ^ Z.of_nat 0) with 1 in Hn. lia.
  - rewrite Nat2Z.inj_succ, Z.pow_succ_r in Hn by lia.
    cbn [print_digits].
    pose proof (Z.mod_pos_bound n 10 ltac:(lia)) as Hd.
    pose proof (Z.div_mod n 10 ltac:(lia)) as Hdm.
    destruct (n / 10 =? 0) eqn:Hq.
    + apply Z.eqb_eq in Hq. exists (n mod 10), acc. split; [lia|reflexivity].
    + apply Z.eqb_neq in Hq.
      assert (Hq0 : 0 <= n / 10) by (apply Z.div_pos; lia).
      apply IH. lia.
Qed.

Lemma print_digits_no_comma : forall (fuel : nat) (n : Z) (acc : string),
  0 <= n -> no_comma (print_digits fuel n acc) = no_comma acc.
Proof.
  induction fuel as [|fuel IH]; intros n acc Hn; [reflexivity|].
  cbn [print_digits].
  pose proof (Z.mod_pos_bound n 10 ltac:(lia)) as Hd.
  assert (Hc : no_comma (String (digit_char (n mod 10)) acc) = no_comma acc).
  { cbn [no_comma]. rewrite digit_char_no_comma by lia. reflexivity. }
  destruct (n / 10 =? 0); [exact Hc|].
  rewrite IH by (apply Z.div_pos; lia). exact Hc.
Qed.

(** A text that starts with a digit from 1 to 9 is read in base 10. *)
Lemma strtoul_decimal d rest :
  1 <= d <= 9 ->
  simple_strtoul (String (digit_char d) rest)
  = parse_integer (String (digit_char d) rest) 10 0
  /\ simple_strtol (String (digit_char d) rest)
     = (long_of_u64 (fst (simple_strtoul (String (digit_char d) rest))),
        snd (simple_strtoul (String (digit_char d) rest))).
Proof.
  intros Hd.
  assert (Hc : d = 1 \/ d = 2 \/ d = 3 \/ d = 4 \/ d = 5 \/ d = 6 \/ d = 7
               \/ d = 8 \/ d = 9) by lia.
  assert (Hpair : forall (r : Z * string),
            (let '(v, endp) := r in (long_of_u64 v, endp))
            = (long_of_u64 (fst r), snd r)) by (intros [v e]; reflexivity).
  repeat (destruct Hc as [->|Hc]; [split; [reflexivity|apply Hpair]|]).
  subst d. split; [reflexivity|apply Hpair].
Qed.

(** What the printed text of a 32-bit number looks like to the parser. *)
Lemma kernel_print_u_parses n :
  0 <= n < 2 ^ 32 ->
  kernel_print_u n <> EmptyString /\
  no_comma (kernel_print_u n) = true /\
  simple_strtoul (kernel_print_u n) = (n, EmptyString) /\
  simple_strtol (kernel_print_u n) = (n, EmptyString).
Proof.
  intros Hn. unfold kernel_print_u, u32. rewrite (Z.mod_small n) by lia.
  assert (H10 : 2 ^ 32 < 10 ^ Z.of_nat 10) by reflexivity.
  assert (H63 : 2 ^ 32 < 2 ^ 63) by reflexivity.
  pose proof (parse_print_digits 10 n EmptyString ltac:(lia) ltac:(lia)) as Hp.
  cbn [parse_integer] in Hp.
  split; [|split; [apply print_digits_no_comma; lia|]].
  - destruct (Z.eq_dec n 0) as [->|Hne]; [discriminate|].
    destruct (print_digits_head 10 n EmptyString ltac:(lia)) as (d & rest & _ & ->).
    discriminate.
  - destruct (Z.eq_dec n 0) as [->|Hne]; [split; reflexivity|].
    destruct (print_digits_head 10 n EmptyString ltac:(lia))
      as (d & rest & Hd & Heq).
    rewrite Heq in *.
    destruct (strtoul_decimal d rest Hd) as [Hu Hl].
    rewrite Hl, Hu, Hp. cbn [fst snd].
    split; [reflexivity|].
    unfold long_of_u64. replace (n <? 2 ^ 63) with true; [reflexivity|].
    symmetry. apply Z.ltb_lt. lia.
Qed.

Lemma substring_all : forall s : string, substring 0 (String.length s) s = s.
Proof.
  induction s as [|c s IH]; [reflexivity|].
  cbn [String.length substring]. rewrite IH. reflexivity.
Qed.

(** After the literal text of a pattern, [%u] takes the number. *)
Lemma match_one_number (X : string) (n : Z) :
  X <> EmptyString -> simple_strtoul X = (n, EmptyString) ->
  (let '(_, endp) := simple_strtoul X in
   let consumed := (String.length X - String.length endp)%nat in
   if (consumed =? 0)%nat then None
   else match_one 5 endp EmptyString ([] ++ [substring 0 consumed X]))
  = Some [X].
Proof.
  intros Hne Hs. rewrite Hs. cbv zeta.
  cbn [String.length]. rewrite Nat.sub_0_r, substring_all.
  destruct X as [|c X]; [contradiction|]. reflexivity.
Qed.

(** The three patterns of the table against the options that
    [apfs_show_options] prints. *)
Lemma kernel_match_token_shown (X : string) (n : Z) :
  X <> EmptyString -> simple_strtoul X = (n, EmptyString) ->
  kernel_match_token ("vol=" ++ X) tokens = (Opt_vol, [X]) /\
  kernel_match_token ("uid=" ++ X) tokens = (Opt_uid, [X]) /\
  kernel_match_token ("gid=" ++ X) tokens = (Opt_gid, [X]).
Proof.
  intros Hne Hs. pose proof (match_one_number X n Hne Hs) as Hm.
  split; [|split].
  - change (kernel_match_token ("vol=" ++ X) tokens)
      with (match (let '(_, endp) := simple_strtoul X in
                   let consumed := (String.length X - String.length endp)%nat in
                   if (consumed =? 0)%nat then None
                   else match_one 5 endp EmptyString
                          ([] ++ [substring 0 consumed X]))
            with Some args => (Opt_vol, args) | None => (Opt_err, []) end).
    rewrite Hm. reflexivity.
  - change (kernel_match_token ("uid=" ++ X) tokens)
      with (match (let '(_, endp) := simple_strtoul X in
                   let consumed := (String.length X - String.length endp)%nat in
                   if (consumed =? 0)%nat then None
                   else match_one 5 endp EmptyString
                          ([] ++ [substring 0 consumed X]))
            with
            | Some args => (Opt_uid, args)
            | None => kernel_match_token ("uid=" ++ X) (tl tokens)
            end).
    rewrite Hm. reflexivity.
  - change (kernel_match_token ("gid=" ++ X) tokens)
      with (match (let '(_, endp) := simple_strtoul X in
                   let consumed := (String.length X - String.length endp)%nat in
                   if (consumed =? 0)%nat then None
                   else match_one 5 endp EmptyString
                          ([] ++ [substring 0 consumed X]))
            with
            | Some args => (Opt_gid, args)
            | None => kernel_match_token ("gid=" ++ X) (tl (tl tokens))
            end).
    rewrite Hm. reflexivity.
Qed.

(** [match_int] on a printed number that fits in an [int]. *)
Lemma kernel_match_int_shown n :
  0 <= n <= 2 ^ 31 - 1 -> kernel_match_int (kernel_print_u n) = (0, n).
Proof.
  intros Hn. assert (H32 : 2 ^ 31 - 1 < 2 ^ 32) by reflexivity.
  destruct (kernel_print_u_parses n ltac:(lia)) as (Hne & _ & _ & Hl).
  unfold kernel_match_int. rewrite Hl.
  destruct (kernel_print_u n) as [|c X]; [contradiction|].
  cbn [String.length Nat.eqb].
  replace (n <? - 2 ^ 31) with false by (symmetry; apply Z.ltb_ge; lia).
  replace (n >? 2 ^ 31 - 1) with false
    by (symmetry; rewrite Z.gtb_ltb; apply Z.ltb_ge; lia).
  reflexivity.
Qed.

Lemma append_empty_r : forall s : string, (s ++ "")%string = s.
Proof.
  induction s as [|c s IH]; [reflexivity|]. cbn [append]. rewrite IH. reflexivity.
Qed.

Lemma append_assoc_r : forall a b c : string,
  ((a ++ b) ++ c)%string = (a ++ (b ++ c))%string.
Proof.
  induction a as [|x a IH]; intros b c; [reflexivity|].
  cbn [append]. rewrite IH. reflexivity.
Qed.

Lemma segments_not_nil : forall s : string, segments s <> [].
Proof.
  induction s as [|c s IH]; [discriminate|].
  cbn [segments]. destruct (c =? ",")%char; [discriminate|].
  destruct (segments s); discriminate.
Qed.

(** The segments of a text that starts with a part without commas. *)
Lemma segments_app : forall a b : string,
  no_comma a = true ->
  segments (a ++ b)
  = match segments b with
    | h :: t => (a ++ h)%string :: t
    | [] => [a]
    end.
Proof.
  induction a as [|c a IH]; intros b Ha.
  - cbn [append]. destruct (segments b) eqn:Hb; [|reflexivity].
    exfalso. exact (segments_not_nil b Hb).
  - cbn [no_comma] in Ha. apply andb_true_iff in Ha. destruct Ha as [Hc Ha].
    apply negb_true_iff in Hc.
    cbn [append segments]. rewrite Hc, (IH b Ha).
    destruct (segments b) as [|h t] eqn:Hb; [|reflexivity].
    exfalso. exact (segments_not_nil b Hb).
Qed.

(** The segments of an option text are the empty segment in front of the
    first comma and then the options. *)
Lemma segments_join : forall (opts : list string) (p : string),
  Forall (fun q => no_comma q = true) (p :: opts) ->
  segments (p ++ join_options opts) = p :: opts.
Proof.
  induction opts as [|q opts IH]; intros p Hall.
  - cbn [join_options]. rewrite append_empty_r.
    inversion Hall as [|? ? Hp _]; subst.
    rewrite <- (append_empty_r p) at 1. rewrite (segments_app p "" Hp).
    cbn [segments]. rewrite append_empty_r. reflexivity.
  - inversion Hall as [|? ? Hp Hrest]; subst.
    cbn [join_options]. rewrite (segments_app p _ Hp).
    change (segments ("," ++ q ++ join_options opts))
      with (EmptyString :: segments (q ++ join_options opts)).
    rewrite (IH q Hrest), append_empty_r. reflexivity.
Qed.

Lemma parse_segments_join K sbi (opts : list string) :
  Forall (fun q => no_comma q = true) opts ->
  parse_segments K sbi (segments (join_options opts)) = parse_segments K sbi opts.
Proof.
  intros Hall. destruct opts as [|p opts]; [reflexivity|].
  cbn [join_options].
  change (segments ("," ++ p ++ join_options opts))
    with (EmptyString :: segments (p ++ join_options opts)).
  rewrite (segments_join opts p Hall). reflexivity.
Qed.

Lemma no_comma_option (key : string) n :
  no_comma key = true -> 0 <= n < 2 ^ 32 ->
  no_comma (key ++ kernel_print_u n) = true.
Proof.
  intros Hk Hn. destruct (kernel_print_u_parses n Hn) as (_ & Hc & _).
  induction key as [|c key IH]; [exact Hc|].
  cbn [no_comma append] in *. apply andb_true_iff in Hk. destruct Hk as [H1 H2].
  rewrite H1. cbn [andb]. apply IH. exact H2.
Qed.

Section ShownOptions.

Variable d : disk.

Lemma parse_shown_vol sbi n rest :
  0 <= n <= 2 ^ 31 - 1 ->
  parse_segments (kernel_on d) sbi (("vol=" ++ kernel_print_u n)%string :: rest)
  = parse_segments (kernel_on d) (set_vol_nr sbi n) rest.
Proof.
  intros Hn. assert (H32 : 2 ^ 31 - 1 < 2 ^ 32) by reflexivity.
  destruct (kernel_print_u_parses n ltac:(lia)) as (Hne & _ & Hu & _).
  destruct (kernel_match_token_shown _ n Hne Hu) as (Hv & _ & _).
  cbn [parse_segments kernel_on match_token match_int].
  change (("vol=" ++ kernel_print_u n =? "")%string) with false. cbv iota.
  rewrite Hv. cbn [nth]. rewrite (kernel_match_int_shown n Hn). reflexivity.
Qed.

Lemma parse_shown_uid sbi n rest :
  0 <= n <= 2 ^ 31 - 1 ->
  parse_segments (kernel_on d) sbi (("uid=" ++ kernel_print_u n)%string :: rest)
  = parse_segments (kernel_on d)
      (set_s_flags (set_s_uid sbi n) (Z.lor (s_flags sbi) APFS_UID_OVERRIDE)) rest.
Proof.
  intros Hn. assert (H32 : 2 ^ 31 - 1 < 2 ^ 32) by reflexivity.
  destruct (kernel_print_u_parses n ltac:(lia)) as (Hne & _ & Hu & _).
  destruct (kernel_match_token_shown _ n Hne Hu) as (_ & Hv & _).
  cbn [parse_segments kernel_on match_token match_int make_kuid].
  change (("uid=" ++ kernel_print_u n =? "")%string) with false. cbv iota.
  rewrite Hv. cbn [nth]. rewrite (kernel_match_int_shown n Hn).
  cbn [Z.eqb negb]. unfold u32. rewrite (Z.mod_small n) by lia.
  cbn [s_uid set_s_uid s_flags]. unfold uid_valid.
  replace (n =? 4294967295) with false by (symmetry; apply Z.eqb_neq; lia).
  reflexivity.
Qed.

Lemma parse_shown_gid sbi n rest :
  0 <= n <= 2 ^ 31 - 1 ->
  parse_segments (kernel_on d) sbi (("gid=" ++ kernel_print_u n)%string :: rest)
  = parse_segments (kernel_on d)
      (set_s_flags (set_s_gid sbi n) (Z.lor (s_flags sbi) APFS_GID_OVERRIDE)) rest.
Proof.
  intros Hn. assert (H32 : 2 ^ 31 - 1 < 2 ^ 32) by reflexivity.
  destruct (kernel_print_u_parses n ltac:(lia)) as (Hne & _ & Hu & _).
  destruct (kernel_match_token_shown _ n Hne Hu) as (_ & _ & Hv).
  cbn [parse_segments kernel_on match_token match_int make_kgid].
  change (("gid=" ++ kernel_print_u n =? "")%string) with false. cbv iota.
  rewrite Hv. cbn [nth]. rewrite (kernel_match_int_shown n Hn).
  cbn [Z.eqb negb]. unfold u32. rewrite (Z.mod_small n) by lia.
  cbn [s_gid set_s_gid s_flags]. unfold gid_valid.
  replace (n =? 4294967295) with false by (symmetry; apply Z.eqb_neq; lia).
  reflexivity.
Qed.

End ShownOptions.

(** [apfs_show_options] on an empty text prints the options of the mount
    state, each after a comma. *)
Lemma apfs_show_options_join sb :
  apfs_show_options kernel_print_u (fun u => u) (fun g => g) EmptyString sb
  = (0, join_options (shown_options (APFS_SB sb))).
Proof.
  unfold apfs_show_options, shown_options.
  destruct (negb (s_vol_nr (APFS_SB sb) =? 0));
    destruct (negb (Z.land (s_flags (APFS_SB sb)) APFS_UID_OVERRIDE =? 0));
    destruct (negb (Z.land (s_flags (APFS_SB sb)) APFS_GID_OVERRIDE =? 0));
    cbn [app join_options append];
    rewrite ?append_assoc_r; cbn [append]; rewrite ?append_assoc_r;
    cbn [append]; rewrite ?append_empty_r; reflexivity.
Qed.

(** X18.  The options that [apfs_show_options] prints can be given back to
    [parse_options]: for a mount state whose volume number and overridden
    ids fit in an [int] and whose flags are the two override flags,
    parsing the printed text succeeds and yields the same volume number, the
    same flags and the same overridden uid and gid.  (The kernel side, [%u]
    of [seq_printf], [match_token], [match_int] and the initial user
    namespace, is the model of the kernel used for the sample images.) *)
Theorem apfs_show_options_round_trip (d : disk) (sb0 sb : super_block) :
  0 <= s_vol_nr (APFS_SB sb) <= 2 ^ 31 - 1 ->
  0 <= s_flags (APFS_SB sb) <= 3 ->
  (Z.land (s_flags (APFS_SB sb)) APFS_UID_OVERRIDE <> 0 ->
   0 <= s_uid (APFS_SB sb) <= 2 ^ 31 - 1) ->
  (Z.land (s_flags (APFS_SB sb)) APFS_GID_OVERRIDE <> 0 ->
   0 <= s_gid (APFS_SB sb) <= 2 ^ 31 - 1) ->
  exists text sb',
    apfs_show_options kernel_print_u (fun u => u) (fun g => g) EmptyString sb
    = (0, text) /\
    parse_options (kernel_on d) sb0 (Some text) = (0, sb') /\
    s_vol_nr (APFS_SB sb') = s_vol_nr (APFS_SB sb) /\
    s_flags (APFS_SB sb') = s_flags (APFS_SB sb) /\
    (Z.land (s_flags (APFS_SB sb)) APFS_UID_OVERRIDE <> 0 ->
     s_uid (APFS_SB sb') = s_uid (APFS_SB sb)) /\
    (Z.land (s_flags (APFS_SB sb)) APFS_GID_OVERRIDE <> 0 ->
     s_gid (APFS_SB sb') = s_gid (APFS_SB sb)).
Proof.
  intros Hv Hf Hu Hg.
  rewrite apfs_show_options_join.
  set (sbi := APFS_SB sb) in *.
  assert (H32 : 2 ^ 31 - 1 < 2 ^ 32) by reflexivity.
  assert (Hall : Forall (fun q => no_comma q = true) (shown_options sbi)).
  { unfold shown_options. apply Forall_app. split; [|apply Forall_app; split].
    - destruct (negb _); constructor; [|constructor].
      apply no_comma_option; [reflexivity|lia].
    - destruct (negb _) eqn:Hb; constructor; [|constructor].
      apply no_comma_option; [reflexivity|].
      apply negb_true_iff, Z.eqb_neq in Hb. specialize (Hu Hb). lia.
    - destruct (negb _) eqn:Hb; constructor; [|constructor].
      apply no_comma_option; [reflexivity|].
      apply negb_true_iff, Z.eqb_neq in Hb. specialize (Hg Hb). lia. }
  set (sbi0 := set_s_flags (set_vol_nr (APFS_SB sb0) 0) 0).
  assert (Hps : exists sbi',
            parse_segments (kernel_on d) sbi0 (shown_options sbi) = (0, sbi') /\
            s_vol_nr sbi' = s_vol_nr sbi /\ s_flags sbi' = s_flags sbi /\
            (Z.land (s_flags sbi) APFS_UID_OVERRIDE <> 0 -> s_uid sbi' = s_uid sbi) /\
            (Z.land (s_flags sbi) APFS_GID_OVERRIDE <> 0 -> s_gid sbi' = s_gid sbi)).
  { unfold shown_options.
    assert (Hfc : s_flags sbi = 0 \/ s_flags sbi = 1 \/ s_flags sbi = 2
                  \/ s_flags sbi = 3) by lia.
    assert (Hvol : forall rest sbi1,
              parse_segments (kernel_on d) sbi1
                ((if negb (s_vol_nr sbi =? 0)
                  then [("vol=" ++ kernel_print_u (s_vol_nr sbi))%string]
                  else []) ++ rest)
              = parse_segments (kernel_on d)
                  (set_vol_nr sbi1 (if s_vol_nr sbi =? 0 then s_vol_nr sbi1
                                    else s_vol_nr sbi)) rest).
    { intros rest sbi1. destruct (s_vol_nr sbi =? 0); cbn [negb app].
      - destruct sbi1; reflexivity.
      - apply parse_shown_vol. exact Hv. }
    rewrite Hvol. clear Hvol.
    assert (Hv0 : (if s_vol_nr sbi =? 0 then s_vol_nr sbi0 else s_vol_nr sbi)
                  = s_vol_nr sbi).
    { destruct (s_vol_nr sbi =? 0) eqn:Hz; [|reflexivity].
      apply Z.eqb_eq in Hz. rewrite Hz. reflexivity. }
    rewrite Hv0. clear Hv0.
    destruct Hfc as [Hfe|[Hfe|[Hfe|Hfe]]]; rewrite Hfe in Hu, Hg |- *.
    - cbn [Z.land Z.eqb negb app parse_segments APFS_UID_OVERRIDE APFS_GID_OVERRIDE].
      eexists. split; [reflexivity|].
      cbn [s_vol_nr s_flags set_vol_nr sbi0 set_s_flags].
      split; [reflexivity|]. split; [reflexivity|].
      split; intros Hc; exfalso; apply Hc; reflexivity.
    - change (negb (Z.land 1 APFS_UID_OVERRIDE =? 0)) with true.
      change (negb (Z.land 1 APFS_GID_OVERRIDE =? 0)) with false.
      cbv iota. cbn [app].
      rewrite parse_shown_uid by (apply Hu; discriminate).
      cbn [parse_segments]. eexists. split; [reflexivity|].
      cbn [s_vol_nr s_flags s_uid set_vol_nr sbi0 set_s_flags set_s_uid].
      split; [reflexivity|]. split; [reflexivity|].
      split; [reflexivity|]. intros Hc; exfalso; apply Hc; reflexivity.
    - change (negb (Z.land 2 APFS_UID_OVERRIDE =? 0)) with false.
      change (negb (Z.land 2 APFS_GID_OVERRIDE =? 0)) with true.
      cbv iota. cbn [app].
      rewrite parse_shown_gid by (apply Hg; discriminate).
      cbn [parse_segments]. eexists. split; [reflexivity|].
      cbn [s_vol_nr s_flags s_gid set_vol_nr sbi0 set_s_flags set_s_gid].
      split; [reflexivity|]. split; [reflexivity|].
      split; [|reflexivity]. intros Hc; exfalso; apply Hc; reflexivity.
    - change (negb (Z.land 3 APFS_UID_OVERRIDE =? 0)) with true.
      change (negb (Z.land 3 APFS_GID_OVERRIDE =? 0)) with true.
      cbv iota. cbn [app].
      rewrite parse_shown_uid by (apply Hu; discriminate).
      rewrite parse_shown_gid by (apply Hg; discriminate).
      cbn [parse_segments]. eexists. split; [reflexivity|].
      cbn [s_vol_nr s_flags s_uid s_gid set_vol_nr sbi0 set_s_flags set_s_uid
           set_s_gid].
      split; [reflexivity|]. split; [reflexivity|].
      split; reflexivity. }
  destruct Hps as (sbi' & Hps & R1 & R2 & R3 & R4).
  exists (join_options (shown_options sbi)), (set_s_fs_info sb0 (Some sbi')).
  split; [reflexivity|].
  split.
  { unfold parse_options. fold sbi0.
    rewrite (parse_segments_join _ _ _ Hall), Hps. reflexivity. }
  cbn [APFS_SB s_fs_info set_s_fs_info]. auto.
Qed.

Lemma apfs_show_options_round_trip_witness :
  exists text sb',
    apfs_show_options kernel_print_u (fun u => u) (fun g => g) EmptyString
      (set_s_fs_info mounted_sb
         (Some (set_s_flags (set_s_uid (set_vol_nr (APFS_SB mounted_sb) 1) 501) 1)))
    = (0, text) /\
    text = ",vol=1,uid=501"%string /\
    parse_options (kernel_on []) blank_sb (Some text) = (0, sb') /\
    s_vol_nr (APFS_SB sb') = 1 /\ s_flags (APFS_SB sb') = 1.
Proof.
  destruct (apfs_show_options_round_trip [] blank_sb
              (set_s_fs_info mounted_sb
                 (Some (set_s_flags (set_s_uid (set_vol_nr (APFS_SB mounted_sb) 1)
                                       501) 1))))
    as (text & sb' & Hs & Hp & Hv & Hf & _).
  - vm_compute. split; discriminate.
  - vm_compute. split; discriminate.
  - intros _. vm_compute. split; discriminate.
  - intros Hc. exfalso. apply Hc. reflexivity.
  - exists text, sb'. split; [exact Hs|]. split.
    + apply (f_equal snd) in Hs. cbn [snd] in Hs. rewrite <- Hs.
      vm_compute. reflexivity.
    + split; [exact Hp|]. split; [exact Hv|exact Hf].
Defined.
